(** * Verification of the tree-sitter parser driver (runtime/parser.c)
      and of the parse-table builder (compiler/parse_table.cc).

    The development is a shallow embedding: every C function of
    [parser.c] that a property talks about is transcribed as a Rocq
    function of the same name.  Unsigned 32-bit quantities are integers
    of [Z] reduced with [u32] wherever the C code computes with them. *)

From stdpp Require Import base option list gmap.
From Stdlib Require Import ZArith Lia Bool.

Set Warnings "-register-all".
Local Open Scope Z_scope.

(** ** Machine integers *)

(** [unsigned] and [uint32_t] arithmetic is arithmetic modulo [2^32]. *)
Definition u32 (z : Z) : Z := z mod 2 ^ 32.

Definition UINT_MAX : Z := 4294967295.

Definition is_u32 (z : Z) : Prop := 0 <= z <= UINT_MAX.

(** ** Identifiers of the language table *)

Definition TSSymbol : Type := Z.
Definition TSStateId : Type := Z.
Definition StackVersion : Type := Z.     (* unsigned *)

(** Modelled from the spec: [error_costs.h] is not part of the sources;
    section 6 of the specification reserves state id 0 as the error
    state. *)
Definition ERROR_STATE : TSStateId := 0.

(** parser.c, line 36. *)
Definition MAX_VERSION_COUNT : Z := 6.

(** ** Positions and syntax trees *)

(** Modelled from the spec: [length.h] is not among the sources.
    Section 3: a position is [(bytes: u32, row: u32, column: u32)], it
    supports addition and subtraction and has a distinguished zero. *)
Record TSPoint : Type := mkPoint { row : Z; column : Z }.
Record Length : Type := mkLength { bytes : Z; extent : TSPoint }.

Definition length_zero : Length :=
  {| bytes := 0; extent := {| row := 0; column := 0 |} |}.

Definition length_add (a b : Length) : Length :=
  {| bytes := u32 (bytes a + bytes b);
     extent := {| row := u32 (row (extent a) + row (extent b));
                  column := u32 (column (extent a) + column (extent b)) |} |}.

Definition length_sub (a b : Length) : Length :=
  {| bytes := u32 (bytes a - bytes b);
     extent := {| row := u32 (row (extent a) - row (extent b));
                  column := u32 (column (extent a) - column (extent b)) |} |}.

Record TSLexMode : Type := mkLexMode {
  lex_state : Z;
  external_lex_state : Z
}.

(** Modelled from the spec: [tree.h] is not among the sources.  The
    fields are those of section 3 ("Tree node"); [parser.c] reads and
    writes them under these names.  The reference count and the parent
    link only serve memory management and are left out. *)
Inductive Tree : Type := mkTree {
  symbol : TSSymbol;
  alias_sequence_id : Z;
  parse_state : TSStateId;
  padding : Length;
  size : Length;
  children : list Tree;
  first_leaf_symbol : TSSymbol;
  first_leaf_lex_mode : TSLexMode;
  error_cost : Z;                 (* unsigned *)
  dynamic_precedence : Z;         (* int32_t *)
  bytes_scanned : Z;              (* uint32_t *)
  external_token_state : list Z;
  extra : bool;
  visible : bool;
  fragile_left : bool;
  fragile_right : bool;
  is_missing : bool;
  has_changes : bool;
  has_external_tokens : bool
}.

Abbreviation TreeArray := (list Tree).

(** Modelled from the spec: the reserved symbols [END] and [ERROR] of
    section 6; [tree_sitter/parser.h] is not among the sources.  The ids
    are those of the C header: 0 and [(TSSymbol)-1]. *)
Definition ts_builtin_sym_end : TSSymbol := 0.
Definition ts_builtin_sym_error : TSSymbol := 65535.

(** A leaf with every scalar field cleared, used to write concrete trees. *)
Definition blank_tree : Tree :=
  {| symbol := 0; alias_sequence_id := 0; parse_state := 0;
     padding := length_zero; size := length_zero; children := [];
     first_leaf_symbol := 0;
     first_leaf_lex_mode := {| lex_state := 0; external_lex_state := 0 |};
     error_cost := 0; dynamic_precedence := 0; bytes_scanned := 0;
     external_token_state := [];
     extra := false; visible := false; fragile_left := false;
     fragile_right := false; is_missing := false; has_changes := false;
     has_external_tokens := false |}.

Definition set_symbol (s : TSSymbol) (t : Tree) : Tree :=
  let 'mkTree _ a ps pd sz ch fs fl ec dp bs ets ex vi frl frr mi hc het := t in
  mkTree s a ps pd sz ch fs fl ec dp bs ets ex vi frl frr mi hc het.

Definition set_error_cost (c : Z) (t : Tree) : Tree :=
  let 'mkTree s a ps pd sz ch fs fl _ dp bs ets ex vi frl frr mi hc het := t in
  mkTree s a ps pd sz ch fs fl c dp bs ets ex vi frl frr mi hc het.

Definition set_dynamic_precedence (d : Z) (t : Tree) : Tree :=
  let 'mkTree s a ps pd sz ch fs fl ec _ bs ets ex vi frl frr mi hc het := t in
  mkTree s a ps pd sz ch fs fl ec d bs ets ex vi frl frr mi hc het.

Definition set_children (c : list Tree) (t : Tree) : Tree :=
  let 'mkTree s a ps pd sz _ fs fl ec dp bs ets ex vi frl frr mi hc het := t in
  mkTree s a ps pd sz c fs fl ec dp bs ets ex vi frl frr mi hc het.

Definition set_extra (b : bool) (t : Tree) : Tree :=
  let 'mkTree s a ps pd sz ch fs fl ec dp bs ets _ vi frl frr mi hc het := t in
  mkTree s a ps pd sz ch fs fl ec dp bs ets b vi frl frr mi hc het.


Definition set_padding_size (p z : Length) (t : Tree) : Tree :=
  let 'mkTree s a ps _ _ ch fs fl ec dp bs ets ex vi frl frr mi hc het := t in
  mkTree s a ps p z ch fs fl ec dp bs ets ex vi frl frr mi hc het.

(** ** Tree selection (parser.c, lines 495-543) *)

Section SelectTree.

(** [ts_tree_compare] is defined in [tree.c], which is not among the
    sources: the comparison is a parameter.  It returns -1, 0 or 1. *)
Variable ts_tree_compare : Tree -> Tree -> Z.

(** parser.c, lines 495-543.  The arguments are pointers and may be
    null; the result [true] means that the right tree is selected. *)
Definition parser__select_tree (left right : option Tree) : bool :=
  match left, right with
  | None, _ => true
  | Some _, None => false
  | Some l, Some r =>
      if error_cost r <? error_cost l then true
      else if error_cost l <? error_cost r then false
      else if dynamic_precedence r >? dynamic_precedence l then true
      else if dynamic_precedence l >? dynamic_precedence r then false
      else if error_cost l >? 0 then true
      else
        let comparison := ts_tree_compare l r in
        if comparison =? -1 then false
        else if comparison =? 1 then true
        else false
  end.

(** The rules of section 4.6 of the specification, read in order; rule 3
    keeps the left tree, that is, answers [false]. *)
Definition select_tree_spec (l r : Tree) : bool :=
  if error_cost r <? error_cost l then true
  else if error_cost l <? error_cost r then false
  else if dynamic_precedence r >? dynamic_precedence l then true
  else if dynamic_precedence l >? dynamic_precedence r then false
  else if (error_cost l >? 0) && (error_cost r >? 0) then false
  else ts_tree_compare l r =? 1.

(** The same rules with rule 3 as the code has it: two trees tied at a
    positive error cost and at the same dynamic precedence are decided
    for the right tree. *)
Definition select_tree_rules (l r : Tree) : bool :=
  if error_cost r <? error_cost l then true
  else if error_cost l <? error_cost r then false
  else if dynamic_precedence r >? dynamic_precedence l then true
  else if dynamic_precedence l >? dynamic_precedence r then false
  else if (error_cost l >? 0) && (error_cost r >? 0) then true
  else ts_tree_compare l r =? 1.

(** Two trees are tied in error when they have the same positive error
    cost and the same dynamic precedence. *)
Definition tied_in_error (a b : Tree) : Prop :=
  error_cost a = error_cost b /\ 0 < error_cost a /\
  dynamic_precedence a = dynamic_precedence b.

End SelectTree.

(** Modelled from the spec: [ts_tree_compare] of [tree.c], section 4.1:
    "a total order used to break ties between equally scored parses:
    lexicographic over (start position, symbol, recursive compare of
    children)".  The start of a tree's content, measured from the end of
    the preceding token, is its padding. *)
Definition compare_Z (x y : Z) : Z :=
  if x <? y then -1 else if y <? x then 1 else 0.

Fixpoint ts_tree_compare_model (a b : Tree) {struct a} : Z :=
  match a with
  | mkTree sa _ _ pa _ ca _ _ _ _ _ _ _ _ _ _ _ _ _ =>
      let c := compare_Z (bytes pa) (bytes (padding b)) in
      if negb (c =? 0) then c
      else
        let c := compare_Z sa (symbol b) in
        if negb (c =? 0) then c
        else
          (fix compare_children (l1 : list Tree) (l2 : list Tree) : Z :=
             match l1, l2 with
             | [], [] => 0
             | [], _ :: _ => -1
             | _ :: _, [] => 1
             | x :: l1', y :: l2' =>
                 let c := ts_tree_compare_model x y in
                 if negb (c =? 0) then c else compare_children l1' l2'
             end) ca (children b)
  end.

(** The lexicographic step and the comparison of two child arrays, named
    so that the equations of [ts_tree_compare_model] can be stated. *)
Definition lex_then (c1 c2 : Z) : Z := if negb (c1 =? 0) then c1 else c2.

Section CompareChildren.
Variable cmp : Tree -> Tree -> Z.

Fixpoint compare_children (l1 l2 : list Tree) : Z :=
  match l1, l2 with
  | [], [] => 0
  | [], _ :: _ => -1
  | _ :: _, [] => 1
  | x :: l1', y :: l2' =>
      let c := cmp x y in
      if negb (c =? 0) then c else compare_children l1' l2'
  end.

End CompareChildren.

(** A comparison answers with a sign. *)
Definition sign_value (z : Z) : Prop := z = -1 \/ z = 0 \/ z = 1.

Section ComparisonProperties.

Variable cmp : Tree -> Tree -> Z.

(** Transitivity of "not before", at given arguments and at all their
    permutations. *)
Definition cmp_ge_trans (x y z : Tree) : Prop :=
  0 <= cmp x y -> 0 <= cmp y z -> 0 <= cmp x z.

Definition cmp_ge_trans_all (x y z : Tree) : Prop :=
  cmp_ge_trans x y z /\ cmp_ge_trans y z x /\ cmp_ge_trans z x y /\
  cmp_ge_trans x z y /\ cmp_ge_trans z y x /\ cmp_ge_trans y x z.

End ComparisonProperties.

(** Number of nodes of a tree. *)
Fixpoint tree_nodes (t : Tree) : nat :=
  match t with
  | mkTree _ _ _ _ _ ch _ _ _ _ _ _ _ _ _ _ _ _ _ =>
      S ((fix forest_nodes (l : list Tree) : nat :=
            match l with
            | [] => O
            | x :: l' => (tree_nodes x + forest_nodes l')%nat
            end) ch)
  end.

Fixpoint forest_nodes (l : list Tree) : nat :=
  match l with
  | [] => O
  | x :: l' => (tree_nodes x + forest_nodes l')%nat
  end.

(** ** Error status of a stack version (parser.c, lines 40-183) *)

Module ErrorCosts.

Record ErrorStatus : Type := mkErrorStatus {
  cost : Z;                    (* unsigned *)
  node_count : Z;              (* unsigned *)
  dynamic_precedence : Z;      (* int *)
  is_in_error : bool
}.

Inductive ErrorComparison : Type :=
| ErrorComparisonTakeLeft
| ErrorComparisonPreferLeft
| ErrorComparisonNone
| ErrorComparisonPreferRight
| ErrorComparisonTakeRight.

Definition wf_status (a : ErrorStatus) : Prop :=
  is_u32 (cost a) /\ is_u32 (node_count a).

Section WithCostConstant.

(** [ERROR_COST_PER_SKIPPED_TREE] is a macro of [error_costs.h], which
    is not among the sources: it is a parameter of the development. *)
Variable ERROR_COST_PER_SKIPPED_TREE : Z.

(** parser.c, line 38. *)
Definition MAX_COST_DIFFERENCE : Z := u32 (16 * ERROR_COST_PER_SKIPPED_TREE).

(** parser.c, lines 135-171.  The two products are evaluated on
    [unsigned] operands, hence modulo [2^32]. *)
Definition parser__compare_versions (a b : ErrorStatus) : ErrorComparison :=
  if negb (is_in_error a) && is_in_error b then
    if cost a <? cost b then ErrorComparisonTakeLeft
    else ErrorComparisonPreferLeft
  else if is_in_error a && negb (is_in_error b) then
    if cost b <? cost a then ErrorComparisonTakeRight
    else ErrorComparisonPreferRight
  else if cost a <? cost b then
    if u32 (u32 (cost b - cost a) * u32 (1 + node_count a)) >? MAX_COST_DIFFERENCE
    then ErrorComparisonTakeLeft
    else ErrorComparisonPreferLeft
  else if cost b <? cost a then
    if u32 (u32 (cost a - cost b) * u32 (1 + node_count b)) >? MAX_COST_DIFFERENCE
    then ErrorComparisonTakeRight
    else ErrorComparisonPreferRight
  else if dynamic_precedence a >? dynamic_precedence b then ErrorComparisonPreferLeft
  else if dynamic_precedence b >? dynamic_precedence a then ErrorComparisonPreferRight
  else ErrorComparisonNone.

(** The comparison as section 4.7 of the specification words it, over
    the integers: the scaled cost difference is an exact product. *)
Definition compare_versions_spec (a b : ErrorStatus) : ErrorComparison :=
  match is_in_error a, is_in_error b with
  | false, true =>
      if cost a <? cost b then ErrorComparisonTakeLeft
      else ErrorComparisonPreferLeft
  | true, false =>
      if cost b <? cost a then ErrorComparisonTakeRight
      else ErrorComparisonPreferRight
  | _, _ =>
      if cost a <? cost b then
        if (cost b - cost a) * (1 + node_count a) >? 16 * ERROR_COST_PER_SKIPPED_TREE
        then ErrorComparisonTakeLeft else ErrorComparisonPreferLeft
      else if cost b <? cost a then
        if (cost a - cost b) * (1 + node_count b) >? 16 * ERROR_COST_PER_SKIPPED_TREE
        then ErrorComparisonTakeRight else ErrorComparisonPreferRight
      else if dynamic_precedence a >? dynamic_precedence b
        then ErrorComparisonPreferLeft
      else if dynamic_precedence b >? dynamic_precedence a
        then ErrorComparisonPreferRight
      else ErrorComparisonNone
  end.

(** *** The stack queries used by [parser__version_status] *)

Section WithStack.

(** [stack.c] is not among the sources: the five queries are parameters. *)
Variable Stack : Type.
Variable ts_stack_error_cost : Stack -> StackVersion -> Z.
Variable ts_stack_is_paused : Stack -> StackVersion -> bool.
Variable ts_stack_node_count_since_error : Stack -> StackVersion -> Z.
Variable ts_stack_dynamic_precedence : Stack -> StackVersion -> Z.
Variable ts_stack_state : Stack -> StackVersion -> TSStateId.

(** parser.c, lines 173-183. *)
Definition parser__version_status (stack : Stack) (version : StackVersion)
  : ErrorStatus :=
  let cost := ts_stack_error_cost stack version in
  let is_paused := ts_stack_is_paused stack version in
  let cost := if is_paused then u32 (cost + ERROR_COST_PER_SKIPPED_TREE) else cost in
  {| cost := cost;
     node_count := ts_stack_node_count_since_error stack version;
     dynamic_precedence := ts_stack_dynamic_precedence stack version;
     is_in_error := is_paused || (ts_stack_state stack version =? ERROR_STATE) |}.

End WithStack.
End WithCostConstant.
End ErrorCosts.

(** The order of pairs in which the first components decide and the
    second ones break ties. *)
Definition lexprod {A B : Type} (RA : A -> A -> Prop) (RB : B -> B -> Prop)
  (x y : A * B) : Prop :=
  RA (fst x) (fst y) \/ (fst x = fst y /\ RB (snd x) (snd y)).

(** ** The parse table of the compiler (compiler/parse_table.cc) *)

Module ParseTable.

Inductive ParseActionType : Type :=
| ParseActionTypeError
| ParseActionTypeShift
| ParseActionTypeReduce
| ParseActionTypeAccept.

#[global] Instance ParseActionType_eq_dec : EqDecision ParseActionType.
Proof. solve_decision. Defined.

Section WithSymbols.

(** [rules::Symbol], [PrecedenceRange] and [rules::Associativity] are
    declared in headers that are not among the sources: they are
    parameters.  Symbols are keys of [std::map] and are compared with
    [==]. *)
Context {Symbol : Type} `{Countable Symbol}.
Variable PrecedenceRange : Type.
Variable Associativity : Type.

(** A [const Production *] is compared by address; [None] is [nullptr]. *)
Definition ProductionPtr : Type := option positive.

Record ParseAction : Type := mkParseAction {
  type : ParseActionType;
  extra : bool;
  fragile : bool;
  symbol : Symbol;
  state_index : Z;              (* ParseStateId = uint64_t *)
  consumed_symbol_count : Z;    (* size_t *)
  precedence_range : PrecedenceRange;
  associativity : Associativity;
  production : ProductionPtr
}.

(** parse_table.cc, lines 80-85: [ParseAction::operator==].  The
    precedence range and the associativity are not compared. *)
Definition ParseAction_eqb (a other : ParseAction) : bool :=
  bool_decide (type a = type other) &&
  Bool.eqb (extra a) (extra other) &&
  Bool.eqb (fragile a) (fragile other) &&
  bool_decide (symbol a = symbol other) &&
  (state_index a =? state_index other) &&
  bool_decide (production a = production other) &&
  (consumed_symbol_count a =? consumed_symbol_count other).

Record ParseTableEntry : Type := mkParseTableEntry {
  actions : list ParseAction;
  reusable : bool;
  depends_on_lookahead : bool
}.

(** parse_table.cc, lines 115-116: the default constructor. *)
Definition ParseTableEntry_default : ParseTableEntry :=
  {| actions := []; reusable := true; depends_on_lookahead := false |}.

Record ParseState : Type := mkParseState {
  entries : gmap Symbol ParseTableEntry;
  lex_state_id : Z
}.

Record ParseTableSymbolMetadata : Type := mkParseTableSymbolMetadata {
  md_extra : bool;
  md_structural : bool
}.

Record ParseTable : Type := mkParseTable {
  states : list ParseState;
  error_state : ParseState;
  symbols : gmap Symbol ParseTableSymbolMetadata
}.

(** [symbols[symbol]] of a [std::map]: a missing key is first inserted
    with a value-initialised metadata record. *)
Definition symbols_at (t : ParseTable) (s : Symbol) : ParseTableSymbolMetadata :=
  default {| md_extra := false; md_structural := false |} (symbols t !! s).

(** [state.entries[symbol]]: a missing key is inserted with a
    default-constructed entry. *)
Definition entry_at (st : ParseState) (s : Symbol) : ParseTableEntry :=
  default ParseTableEntry_default (entries st !! s).

(** parse_table.cc, lines 172-176: the flag of the symbol is raised. *)
Definition mark_symbol (t : ParseTable) (s : Symbol) (action : ParseAction)
  : gmap Symbol ParseTableSymbolMetadata :=
  let m := symbols_at t s in
  if extra action
  then <[s := {| md_extra := true; md_structural := md_structural m |}]> (symbols t)
  else <[s := {| md_extra := md_extra m; md_structural := true |}]> (symbols t).

(** Index of the first element of [l] that [operator==] equates with
    [action]: the element the range-for loop returns a reference to. *)
Fixpoint find_existing (action : ParseAction) (l : list ParseAction) : option nat :=
  match l with
  | [] => None
  | existing_action :: l' =>
      if ParseAction_eqb existing_action action then Some O
      else option_map S (find_existing action l')
  end.

Definition set_entry (t : ParseTable) (id : nat) (st : ParseState)
  (s : Symbol) (e : ParseTableEntry)
  (syms : gmap Symbol ParseTableSymbolMetadata) : ParseTable :=
  {| states := <[id := {| entries := <[s := e]> (entries st);
                          lex_state_id := lex_state_id st |}]> (states t);
     error_state := error_state t;
     symbols := syms |}.

(** parse_table.cc, lines 172-186: [ParseTable::add_action].  The
    result is the updated table together with the position, in the
    action list of the entry, of the action the returned reference
    designates.  [states[id]] with [id] out of range is undefined
    behaviour: [None]. *)
Definition add_action (t : ParseTable) (id : nat) (s : Symbol)
  (action : ParseAction) : option (ParseTable * nat) :=
  let syms := mark_symbol t s action in
  match states t !! id with
  | None => None
  | Some state =>
      let e := entry_at state s in
      match find_existing action (actions e) with
      | Some k => Some (set_entry t id state s e syms, k)
      | None =>
          let e' := {| actions := actions e ++ [action];
                       reusable := reusable e;
                       depends_on_lookahead := depends_on_lookahead e |} in
          Some (set_entry t id state s e' syms, length (actions e))
      end
  end.

(** The action list of entry [(id, s)] of a table. *)
Definition actions_at (t : ParseTable) (id : nat) (s : Symbol) : list ParseAction :=
  match states t !! id with
  | None => []
  | Some state => actions (entry_at state s)
  end.

(** parse_table.cc, line 129: the default constructor of a state. *)
Definition ParseState_default : ParseState :=
  {| entries := ∅; lex_state_id := -1 |}.

(** parse_table.cc, lines 131-136 and 149-154: the keys of the two maps,
    as sets. *)
Definition expected_inputs (st : ParseState) : gset Symbol := dom (entries st).

Definition all_symbols (t : ParseTable) : gset Symbol := dom (symbols t).

(** parse_table.cc, lines 156-159: [add_state].  The result is the table
    and the id returned. *)
Definition add_state (t : ParseTable) : ParseTable * nat :=
  ({| states := states t ++ [ParseState_default];
      error_state := error_state t;
      symbols := symbols t |},
   length (states t)).

(** parse_table.cc, lines 161-170: [set_action].  The action list of
    the entry becomes the one action; the other fields of the entry
    stay.  The reference returned is to the first action of the list.
    [states[id]] with [id] out of range is undefined behaviour:
    [None]. *)
Definition set_action (t : ParseTable) (id : nat) (s : Symbol)
  (action : ParseAction) : option (ParseTable * nat) :=
  let syms := mark_symbol t s action in
  match states t !! id with
  | None => None
  | Some state =>
      let e := entry_at state s in
      let e' := {| actions := [action];
                   reusable := reusable e;
                   depends_on_lookahead := depends_on_lookahead e |} in
      Some (set_entry t id state s e' syms, O)
  end.

(** Every symbol that a state has an entry for is known to the table. *)
Definition symbols_cover (t : ParseTable) : Prop :=
  forall st, st ∈ states t -> expected_inputs st ⊆ all_symbols t.

(** [rules::Symbol::operator<] is declared in a header that is not
    among the sources: the order of symbols is a parameter. *)
Variable Symbol_lt : Symbol -> Symbol -> bool.

(** The enumerators of [ParseActionType] in the order of their
    declaration (parse_table.h, lines 18-23). *)
Definition ParseActionType_rank (t : ParseActionType) : Z :=
  match t with
  | ParseActionTypeError => 0
  | ParseActionTypeShift => 1
  | ParseActionTypeReduce => 2
  | ParseActionTypeAccept => 3
  end.

(** [production < other.production]: the order of two addresses, the
    null pointer below every other. *)
Definition ProductionPtr_lt (p q : ProductionPtr) : bool :=
  match p, q with
  | None, Some _ => true
  | Some a, Some b => (a <? b)%positive
  | _, None => false
  end.

(** parse_table.cc, lines 87-113: [ParseAction::operator<]. *)
Definition ParseAction_ltb (a other : ParseAction) : bool :=
  if ParseActionType_rank (type a) <? ParseActionType_rank (type other) then true
  else if ParseActionType_rank (type other) <? ParseActionType_rank (type a) then false
  else if extra a && negb (extra other) then true
  else if extra other && negb (extra a) then false
  else if fragile a && negb (fragile other) then true
  else if fragile other && negb (fragile a) then false
  else if Symbol_lt (symbol a) (symbol other) then true
  else if Symbol_lt (symbol other) (symbol a) then false
  else if state_index a <? state_index other then true
  else if state_index other <? state_index a then false
  else if ProductionPtr_lt (production a) (production other) then true
  else if ProductionPtr_lt (production other) (production a) then false
  else consumed_symbol_count a <? consumed_symbol_count other.

(** The fields that the two operators read, in the order in which
    [operator<] reads them, each as a number but the symbol; a flag that
    is set comes first. *)
Definition bool_rank (b : bool) : Z := if b then 0 else 1.

Definition ProductionPtr_rank (p : ProductionPtr) : Z :=
  match p with
  | None => 0
  | Some a => Z.pos a
  end.

Definition ParseAction_key (a : ParseAction)
  : Z * (Z * (Z * (Symbol * (Z * (Z * Z))))) :=
  (ParseActionType_rank (type a),
   (bool_rank (extra a),
    (bool_rank (fragile a),
     (symbol a,
      (state_index a,
       (ProductionPtr_rank (production a), consumed_symbol_count a)))))).

Definition ParseAction_key_lt
  (k1 k2 : Z * (Z * (Z * (Symbol * (Z * (Z * Z)))))) : Prop :=
  lexprod Z.lt
    (lexprod Z.lt
       (lexprod Z.lt
          (lexprod (fun x y => Symbol_lt x y = true)
             (lexprod Z.lt (lexprod Z.lt Z.lt))))) k1 k2.

(** parse_table.cc, lines 124-127: [ParseTableEntry::operator==]; two
    vectors are equal when they have the same length and equal elements
    at each index. *)
Fixpoint actions_eqb (l1 l2 : list ParseAction) : bool :=
  match l1, l2 with
  | [], [] => true
  | a :: l1', b :: l2' => ParseAction_eqb a b && actions_eqb l1' l2'
  | _, _ => false
  end.

Definition ParseTableEntry_eqb (e other : ParseTableEntry) : bool :=
  actions_eqb (actions e) (actions other) &&
  Bool.eqb (reusable e) (reusable other) &&
  Bool.eqb (depends_on_lookahead e) (depends_on_lookahead other).

End WithSymbols.

Arguments ParseState_default {Symbol _ _ PrecedenceRange Associativity}.
Arguments expected_inputs {Symbol _ _ PrecedenceRange Associativity} st.
Arguments all_symbols {Symbol _ _ PrecedenceRange Associativity} t.
Arguments add_state {Symbol _ _ PrecedenceRange Associativity} t.
Arguments symbols_at {Symbol _ _ PrecedenceRange Associativity} t s.
Arguments symbols_cover {Symbol _ _ PrecedenceRange Associativity} t.
Arguments set_action {Symbol _ _ PrecedenceRange Associativity} t id s action.
Arguments ParseAction_ltb {Symbol PrecedenceRange Associativity} Symbol_lt a other.
Arguments actions_eqb {Symbol _ PrecedenceRange Associativity} l1 l2.
Arguments ParseAction_key {Symbol PrecedenceRange Associativity} a.
Arguments ParseAction_key_lt {Symbol} Symbol_lt k1 k2.
Arguments ParseTableEntry_eqb {Symbol _ PrecedenceRange Associativity} e other.
Arguments type {Symbol PrecedenceRange Associativity} _.
Arguments extra {Symbol PrecedenceRange Associativity} _.
Arguments fragile {Symbol PrecedenceRange Associativity} _.
Arguments symbol {Symbol PrecedenceRange Associativity} _.
Arguments state_index {Symbol PrecedenceRange Associativity} _.
Arguments consumed_symbol_count {Symbol PrecedenceRange Associativity} _.
Arguments precedence_range {Symbol PrecedenceRange Associativity} _.
Arguments associativity {Symbol PrecedenceRange Associativity} _.
Arguments production {Symbol PrecedenceRange Associativity} _.
Arguments actions {Symbol PrecedenceRange Associativity} _.
Arguments reusable {Symbol PrecedenceRange Associativity} _.
Arguments depends_on_lookahead {Symbol PrecedenceRange Associativity} _.
Arguments entries {Symbol _ _ PrecedenceRange Associativity} _.
Arguments lex_state_id {Symbol _ _ PrecedenceRange Associativity} _.
Arguments states {Symbol _ _ PrecedenceRange Associativity} _.
Arguments error_state {Symbol _ _ PrecedenceRange Associativity} _.
Arguments symbols {Symbol _ _ PrecedenceRange Associativity} _.
Arguments ParseAction_eqb {Symbol _ PrecedenceRange Associativity} a other.
Arguments find_existing {Symbol _ PrecedenceRange Associativity} action l.
Arguments add_action {Symbol _ _ PrecedenceRange Associativity} t id s action.
Arguments actions_at {Symbol _ _ PrecedenceRange Associativity} t id s.
Arguments mark_symbol {Symbol _ _ PrecedenceRange Associativity} t s action.
Arguments set_entry {Symbol _ _ PrecedenceRange Associativity} t id st s e syms.
Arguments entry_at {Symbol _ _ PrecedenceRange Associativity} st s.

End ParseTable.

(** ** The lexer loop (parser.c, lines 215-373) *)

Definition set_bytes_scanned (n : Z) (t : Tree) : Tree :=
  let 'mkTree s a ps pd sz ch fs fl ec dp _ ets ex vi frl frr mi hc het := t in
  mkTree s a ps pd sz ch fs fl ec dp n ets ex vi frl frr mi hc het.

Definition set_parse_state (st : TSStateId) (t : Tree) : Tree :=
  let 'mkTree s a _ pd sz ch fs fl ec dp bs ets ex vi frl frr mi hc het := t in
  mkTree s a st pd sz ch fs fl ec dp bs ets ex vi frl frr mi hc het.

Definition set_first_leaf_lex_mode (m : TSLexMode) (t : Tree) : Tree :=
  let 'mkTree s a ps pd sz ch fs _ ec dp bs ets ex vi frl frr mi hc het := t in
  mkTree s a ps pd sz ch fs m ec dp bs ets ex vi frl frr mi hc het.

Definition set_has_external_tokens (b : bool) (t : Tree) : Tree :=
  let 'mkTree s a ps pd sz ch fs fl ec dp bs ets ex vi frl frr mi hc _ := t in
  mkTree s a ps pd sz ch fs fl ec dp bs ets ex vi frl frr mi hc b.

Definition set_external_token_state (st : list Z) (t : Tree) : Tree :=
  let 'mkTree s a ps pd sz ch fs fl ec dp bs _ ex vi frl frr mi hc het := t in
  mkTree s a ps pd sz ch fs fl ec dp bs st ex vi frl frr mi hc het.

(** The fields of [Lexer] that [parser.c] reads and writes; what the
    lexer keeps about its input (chunk, logger, buffers) is [lexer_input]. *)
Record Lexer (Input : Type) : Type := mkLexer {
  current_position : Length;
  token_start_position : Length;
  token_end_position : Length;
  lookahead : Z;                (* data.lookahead, int32_t *)
  result_symbol : TSSymbol;     (* data.result_symbol *)
  lexer_input : Input
}.

Arguments mkLexer {Input} _ _ _ _ _ _.
Arguments current_position {Input} _.
Arguments token_start_position {Input} _.
Arguments token_end_position {Input} _.
Arguments lookahead {Input} _.
Arguments result_symbol {Input} _.
Arguments lexer_input {Input} _.

Definition set_token_end_position {Input} (p : Length) (l : Lexer Input) : Lexer Input :=
  mkLexer (current_position l) (token_start_position l) p
    (lookahead l) (result_symbol l) (lexer_input l).

Definition set_token_start_position {Input} (p : Length) (l : Lexer Input) : Lexer Input :=
  mkLexer (current_position l) p (token_end_position l)
    (lookahead l) (result_symbol l) (lexer_input l).

Definition set_result_symbol {Input} (s : TSSymbol) (l : Lexer Input) : Lexer Input :=
  mkLexer (current_position l) (token_start_position l) (token_end_position l)
    (lookahead l) s (lexer_input l).

(** [lexer.c], [length.h], [tree.c], [language.c] and the tables and
    callbacks of the language are not among the sources: the functions
    of theirs that [parser__lex] calls are the fields of this class. *)
Class LexEnv : Type := {
  Input : Type;
  Payload : Type;                 (* the external scanner's payload *)
  ValidTokens : Type;             (* a non-null [const bool *] *)
  (* lexer.c *)
  ts_lexer_reset : Lexer Input -> Length -> Lexer Input;
  ts_lexer_start : Lexer Input -> Lexer Input;
  lexer_advance : Lexer Input -> bool -> Lexer Input;     (* data.advance *)
  ts_lexer_advance_to_end : Lexer Input -> Lexer Input;
  (* length.h *)
  length_is_undefined : Length -> bool;
  (* the language *)
  lex_modes : TSStateId -> TSLexMode;
  keyword_capture_token : TSSymbol;
  lex_fn : Lexer Input -> Z -> bool * Lexer Input;
  keyword_lex_fn : Lexer Input -> Z -> bool * Lexer Input;
  external_scanner_scan :
    Payload -> Lexer Input -> ValidTokens -> bool * Lexer Input * Payload;
  external_scanner_serialize : Payload -> list Z * Payload;
  external_scanner_deserialize : Payload -> list Z -> Payload;
  external_scanner_symbol_map : TSSymbol -> TSSymbol;
  ts_language_enabled_external_tokens : Z -> option ValidTokens;
  ts_language_has_actions : TSStateId -> TSSymbol -> bool;
  (* tree.c *)
  ts_tree_make_leaf : TSSymbol -> Length -> Length -> Tree;
  ts_tree_make_error : Length -> Length -> Z -> Tree
}.

Section Lexing.
Context {env : LexEnv}.

(** parser.c, lines 215-225. *)
Definition parser__restore_external_scanner (payload : Payload)
  (external_token : option Tree) : Payload :=
  match external_token with
  | Some t => external_scanner_deserialize payload (external_token_state t)
  | None => external_scanner_deserialize payload []
  end.

(** The local variables of [parser__lex] that live across iterations of
    its loop, with the two pieces of parser state the loop changes.
    [ls_reached] is a ghost: the byte position of the lexer after each
    recognizer attempt and after each skipped character. *)
Record LexState : Type := mkLexState {
  ls_lexer : Lexer Input;
  ls_payload : Payload;
  ls_lex_mode : TSLexMode;
  ls_valid_external_tokens : option ValidTokens;
  ls_found_external_token : bool;
  ls_error_mode : bool;
  ls_skipped_error : bool;
  ls_first_error_character : Z;
  ls_error_start_position : Length;
  ls_error_end_position : Length;
  ls_last_byte_scanned : Z;
  ls_reached : list Z
}.

Inductive LoopExit : Type := Break | Continue.

(** [if (current_position.bytes > last_byte_scanned) last_byte_scanned = ...] *)
Definition bump_last_byte_scanned (lexer : Lexer Input) (last : Z) : Z :=
  if bytes (current_position lexer) >? last
  then bytes (current_position lexer) else last.

(** Lines 303-319: the lexer failed in error mode; one more character
    joins the error span, or the end of the input ends the loop. *)
Definition lex_skip (st : LexState) (lexer : Lexer Input) (payload : Payload)
  (last : Z) (reached : list Z) : LoopExit * LexState :=
  let '(first_error_character, error_start_position, error_end_position) :=
    if negb (ls_skipped_error st)
    then (lookahead lexer, token_start_position lexer, token_start_position lexer)
    else (ls_first_error_character st, ls_error_start_position st,
          ls_error_end_position st) in
  let next lexer' error_end_position' reached' :=
    mkLexState lexer' payload (ls_lex_mode st) (ls_valid_external_tokens st)
      (ls_found_external_token st) (ls_error_mode st) true first_error_character
      error_start_position error_end_position' last reached' in
  if bytes (current_position lexer) =? bytes error_end_position then
    if lookahead lexer =? 0 then
      (Break,
       next (set_result_symbol ts_builtin_sym_error lexer) error_end_position reached)
    else
      let lexer' := lexer_advance lexer false in
      (Continue,
       next lexer' (current_position lexer')
         (bytes (current_position lexer') :: reached))
  else
    (Continue, next lexer (current_position lexer) reached).

(** Lines 278-319: the internal lexer runs from the current position. *)
Definition lex_internal (start_position : Length) (st : LexState)
  (lexer : Lexer Input) (payload : Payload) (last : Z) (reached : list Z)
  : LoopExit * LexState :=
  let lexer := ts_lexer_start lexer in
  let '(ok, lexer) := lex_fn lexer (lex_state (ls_lex_mode st)) in
  let reached := bytes (current_position lexer) :: reached in
  if ok then
    (Break,
     mkLexState lexer payload (ls_lex_mode st) (ls_valid_external_tokens st)
       (ls_found_external_token st) (ls_error_mode st) (ls_skipped_error st)
       (ls_first_error_character st) (ls_error_start_position st)
       (ls_error_end_position st) last reached)
  else if negb (ls_error_mode st) then
    let lex_mode := lex_modes ERROR_STATE in
    let valid_external_tokens :=
      ts_language_enabled_external_tokens (external_lex_state lex_mode) in
    let last := bump_last_byte_scanned lexer last in
    let lexer := ts_lexer_reset lexer start_position in
    (Continue,
     mkLexState lexer payload lex_mode valid_external_tokens
       (ls_found_external_token st) true (ls_skipped_error st)
       (ls_first_error_character st) (ls_error_start_position st)
       (ls_error_end_position st) last reached)
  else lex_skip st lexer payload last reached.

(** Lines 246-320: one iteration of the loop. *)
Definition lex_iteration (start_position : Length) (external_token : option Tree)
  (st : LexState) : LoopExit * LexState :=
  let current_position_ := current_position (ls_lexer st) in
  match ls_valid_external_tokens st with
  | Some valid_external_tokens =>
      let lexer := ts_lexer_start (ls_lexer st) in
      let payload := parser__restore_external_scanner (ls_payload st) external_token in
      let '(ok, lexer, payload) :=
        external_scanner_scan payload lexer valid_external_tokens in
      let reached := bytes (current_position lexer) :: ls_reached st in
      let lexer :=
        if ok && length_is_undefined (token_end_position lexer)
        then set_token_end_position (current_position lexer) lexer
        else lexer in
      if ok && (negb (ls_error_mode st) ||
                (bytes (token_end_position lexer) >? bytes current_position_))
      then
        (Break,
         mkLexState lexer payload (ls_lex_mode st) (ls_valid_external_tokens st)
           true (ls_error_mode st) (ls_skipped_error st)
           (ls_first_error_character st) (ls_error_start_position st)
           (ls_error_end_position st) (ls_last_byte_scanned st) reached)
      else
        let last := bump_last_byte_scanned lexer (ls_last_byte_scanned st) in
        let lexer := ts_lexer_reset lexer current_position_ in
        lex_internal start_position st lexer payload last reached
  | None =>
      lex_internal start_position st (ls_lexer st) (ls_payload st)
        (ls_last_byte_scanned st) (ls_reached st)
  end.

(** The [for (;;)] loop; [None] when the iterations allowed are used up. *)
Fixpoint lex_loop (fuel : nat) (start_position : Length)
  (external_token : option Tree) (st : LexState) : option LexState :=
  match fuel with
  | O => None
  | S fuel' =>
      match lex_iteration start_position external_token st with
      | (Break, st') => Some st'
      | (Continue, st') => lex_loop fuel' start_position external_token st'
      end
  end.

(** What [parser__lex] leaves behind: the tree, the lexer and the
    payload of the scanner; [lo_last_byte_scanned] and [lo_reached] are
    the final values of the local variable and of the ghost. *)
Record LexOutcome : Type := mkLexOutcome {
  lo_result : Tree;
  lo_lexer : Lexer Input;
  lo_payload : Payload;
  lo_last_byte_scanned : Z;
  lo_reached : list Z
}.

(** Lines 326-365: the token built after the loop. *)
Definition lex_result (start_position : Length) (parse_state_ : TSStateId)
  (st : LexState) : Tree * Lexer Input * Payload :=
  let lexer := ls_lexer st in
  if ls_skipped_error st then
    let padding_ := length_sub (ls_error_start_position st) start_position in
    let size_ := length_sub (ls_error_end_position st) (ls_error_start_position st) in
    (ts_tree_make_error size_ padding_ (ls_first_error_character st),
     lexer, ls_payload st)
  else
    let lexer :=
      if bytes (token_end_position lexer) <? bytes (token_start_position lexer)
      then set_token_start_position (token_end_position lexer) lexer
      else lexer in
    let sym := result_symbol lexer in
    let padding_ := length_sub (token_start_position lexer) start_position in
    let size_ := length_sub (token_end_position lexer) (token_start_position lexer) in
    if ls_found_external_token st then
      let sym := external_scanner_symbol_map sym in
      let result := ts_tree_make_leaf sym padding_ size_ in
      let result := set_has_external_tokens true result in
      let '(buffer, payload) := external_scanner_serialize (ls_payload st) in
      (set_external_token_state buffer result, lexer, payload)
    else if (sym =? keyword_capture_token) && negb (sym =? 0) then
      let end_byte := bytes (token_end_position lexer) in
      let lexer := ts_lexer_reset lexer (token_start_position lexer) in
      let lexer := ts_lexer_start lexer in
      let '(ok, lexer) := keyword_lex_fn lexer 0 in
      let sym :=
        if ok && (bytes (token_end_position lexer) =? end_byte) &&
           ts_language_has_actions parse_state_ (result_symbol lexer)
        then result_symbol lexer else sym in
      (ts_tree_make_leaf sym padding_ size_, lexer, ls_payload st)
    else
      (ts_tree_make_leaf sym padding_ size_, lexer, ls_payload st).

(** parser.c, lines 227-373.  [start_position] and [external_token] are
    the position and the last external token of the stack version. *)
Definition parser__lex_run (fuel : nat) (lexer : Lexer Input) (payload : Payload)
  (start_position : Length) (external_token : option Tree)
  (parse_state_ : TSStateId) : option LexOutcome :=
  let lex_mode := lex_modes parse_state_ in
  let valid_external_tokens :=
    ts_language_enabled_external_tokens (external_lex_state lex_mode) in
  let st0 :=
    mkLexState (ts_lexer_reset lexer start_position) payload lex_mode
      valid_external_tokens false (parse_state_ =? ERROR_STATE) false 0
      length_zero length_zero (bytes start_position) [] in
  match lex_loop fuel start_position external_token st0 with
  | None => None
  | Some st =>
      let last := bump_last_byte_scanned (ls_lexer st) (ls_last_byte_scanned st) in
      let '(result, lexer, payload) := lex_result start_position parse_state_ st in
      let result := set_bytes_scanned (u32 (last - bytes start_position + 1)) result in
      let result := set_parse_state parse_state_ result in
      let result := set_first_leaf_lex_mode (ls_lex_mode st) result in
      Some (mkLexOutcome result lexer payload last (ls_reached st))
  end.

Definition parser__lex (fuel : nat) (lexer : Lexer Input) (payload : Payload)
  (start_position : Length) (external_token : option Tree)
  (parse_state_ : TSStateId) : option (Tree * Lexer Input * Payload) :=
  match parser__lex_run fuel lexer payload start_position external_token parse_state_ with
  | None => None
  | Some o => Some (lo_result o, lo_lexer o, lo_payload o)
  end.

(** Every position recorded so far is covered by [last_byte_scanned] or
    by the current position of the lexer. *)
Definition covered (start_position : Length) (lexer : Lexer Input) (last : Z)
  (reached : list Z) : Prop :=
  bytes start_position <= last /\
  forall q, In q reached -> q <= Z.max last (bytes (current_position lexer)).

Definition lex_invariant (start_position : Length) (st : LexState) : Prop :=
  covered start_position (ls_lexer st) (ls_last_byte_scanned st) (ls_reached st).

End Lexing.

(** ** The graph-structured stack *)

Inductive StackStatus : Type :=
| StackStatusActive
| StackStatusPaused
| StackStatusHalted.

(** Modelled from the spec: [stack.c] is not among the sources.
    Section 3 describes the stack as a DAG of nodes whose edges carry
    trees; "a version is a named handle to a head node".  What a node
    is, and the operations that walk the graph below a head, are the
    fields of this class; the operations on versions are defined from
    them below. *)
Class StackEnv : Type := {
  StackNode : Type;
  node_base : StackNode;                       (* the node of an empty stack *)
  node_state : StackNode -> TSStateId;
  node_position : StackNode -> Length;
  node_error_cost : StackNode -> Z;
  node_count_since_error : StackNode -> Z;
  node_dynamic_precedence : StackNode -> Z;
  (* push(tree, pending, state): a new node above the given one *)
  node_push : StackNode -> option Tree -> bool -> TSStateId -> StackNode;
  (* merge "combines predecessors" *)
  node_merge : StackNode -> StackNode -> StackNode;
  (* the nodes reached by popping, each with the tree arrays of the
     paths that lead to it (the first one, then the others), in the
     order the slices are returned *)
  node_pop_count : StackNode -> Z -> list (StackNode * TreeArray * list TreeArray);
  node_pop_all : StackNode -> list (StackNode * TreeArray * list TreeArray);
  node_pop_pending : StackNode -> list (StackNode * TreeArray * list TreeArray);
  (* tree.c *)
  ts_tree_external_token_state_eq : option Tree -> option Tree -> bool
}.

Record StackHead {senv : StackEnv} : Type := mkStackHead {
  head_node : StackNode;
  head_status : StackStatus;
  head_lookahead_when_paused : TSSymbol;
  head_last_external_token : option Tree
}.

Arguments mkStackHead {senv} _ _ _ _.
Arguments head_node {senv} _.
Arguments head_status {senv} _.
Arguments head_lookahead_when_paused {senv} _.
Arguments head_last_external_token {senv} _.

(** The array of heads: version [v] is the head at index [v]. *)
Abbreviation Stack := (list StackHead).

Record StackSlice : Type := mkStackSlice {
  slice_trees : TreeArray;
  slice_version : StackVersion
}.

Abbreviation StackSliceArray := (list StackSlice).

Section StackOperations.
Context {senv : StackEnv}.

Definition head_base : StackHead :=
  mkStackHead node_base StackStatusActive 0 None.

(** The head of a version.  A version outside the array is undefined
    behaviour in C; the model then answers with the base head. *)
Definition ts_stack_head (s : Stack) (v : StackVersion) : StackHead :=
  if v <? 0 then head_base else default head_base (s !! Z.to_nat v).

Definition ts_stack_version_count (s : Stack) : Z := Z.of_nat (length s).

Definition ts_stack_state (s : Stack) (v : StackVersion) : TSStateId :=
  node_state (head_node (ts_stack_head s v)).

Definition ts_stack_position (s : Stack) (v : StackVersion) : Length :=
  node_position (head_node (ts_stack_head s v)).

Definition ts_stack_error_cost (s : Stack) (v : StackVersion) : Z :=
  node_error_cost (head_node (ts_stack_head s v)).

Definition ts_stack_node_count_since_error (s : Stack) (v : StackVersion) : Z :=
  node_count_since_error (head_node (ts_stack_head s v)).

Definition ts_stack_dynamic_precedence (s : Stack) (v : StackVersion) : Z :=
  node_dynamic_precedence (head_node (ts_stack_head s v)).

Definition ts_stack_last_external_token (s : Stack) (v : StackVersion) : option Tree :=
  head_last_external_token (ts_stack_head s v).

Definition status_is (a b : StackStatus) : bool :=
  match a, b with
  | StackStatusActive, StackStatusActive
  | StackStatusPaused, StackStatusPaused
  | StackStatusHalted, StackStatusHalted => true
  | _, _ => false
  end.

Definition ts_stack_is_active (s : Stack) (v : StackVersion) : bool :=
  status_is (head_status (ts_stack_head s v)) StackStatusActive.

Definition ts_stack_is_paused (s : Stack) (v : StackVersion) : bool :=
  status_is (head_status (ts_stack_head s v)) StackStatusPaused.

Definition ts_stack_is_halted (s : Stack) (v : StackVersion) : bool :=
  status_is (head_status (ts_stack_head s v)) StackStatusHalted.

Definition set_head_node (n : StackNode) (h : StackHead) : StackHead :=
  mkStackHead n (head_status h) (head_lookahead_when_paused h)
    (head_last_external_token h).

Definition set_head_status (st : StackStatus) (h : StackHead) : StackHead :=
  mkStackHead (head_node h) st (head_lookahead_when_paused h)
    (head_last_external_token h).

(** Versions after the removed one move down by one. *)
Definition ts_stack_remove_version (s : Stack) (v : StackVersion) : Stack :=
  delete (Z.to_nat v) s.

Definition ts_stack_swap_versions (s : Stack) (v1 v2 : StackVersion) : Stack :=
  <[Z.to_nat v1 := ts_stack_head s v2]> (<[Z.to_nat v2 := ts_stack_head s v1]> s).

Definition ts_stack_halt (s : Stack) (v : StackVersion) : Stack :=
  <[Z.to_nat v := set_head_status StackStatusHalted (ts_stack_head s v)]> s.

Definition ts_stack_push (s : Stack) (v : StackVersion) (tree : option Tree)
  (pending : bool) (state : TSStateId) : Stack :=
  <[Z.to_nat v :=
      set_head_node (node_push (head_node (ts_stack_head s v)) tree pending state)
        (ts_stack_head s v)]> s.

Definition length_eqb (a b : Length) : bool :=
  (bytes a =? bytes b) && (row (extent a) =? row (extent b)) &&
  (column (extent a) =? column (extent b)).

(** Section 3: "merge(a,b) (only if (state, position,
    last-external-token-state) match; combines predecessors)". *)
Definition ts_stack_can_merge (s : Stack) (v1 v2 : StackVersion) : bool :=
  let h1 := ts_stack_head s v1 in
  let h2 := ts_stack_head s v2 in
  (node_state (head_node h1) =? node_state (head_node h2)) &&
  length_eqb (node_position (head_node h1)) (node_position (head_node h2)) &&
  ts_tree_external_token_state_eq (head_last_external_token h1)
    (head_last_external_token h2).

(** On success version [v1] stands for both versions and [v2] is removed. *)
Definition ts_stack_merge (s : Stack) (v1 v2 : StackVersion) : bool * Stack :=
  if ts_stack_can_merge s v1 v2 then
    let h1 := ts_stack_head s v1 in
    let h2 := ts_stack_head s v2 in
    let merged := set_head_node (node_merge (head_node h1) (head_node h2)) h1 in
    (true, ts_stack_remove_version (<[Z.to_nat v1 := merged]> s) v2)
  else (false, s).

(** Popping leaves the version in place and appends one new version for
    each node reached ("may create new version ids"; [parser.c] renumbers
    the new versions onto the old one afterwards).  The slices that lead
    to one node share its version and are adjacent. *)
Fixpoint slices_of (groups : list (StackNode * TreeArray * list TreeArray))
  (v : StackVersion) : StackSliceArray :=
  match groups with
  | [] => []
  | (_, first, others) :: groups' =>
      mkStackSlice first v :: map (fun trees => mkStackSlice trees v) others
        ++ slices_of groups' (v + 1)
  end.

Definition pop_with (groups : list (StackNode * TreeArray * list TreeArray))
  (s : Stack) (v : StackVersion) : StackSliceArray * Stack :=
  let h := ts_stack_head s v in
  (slices_of groups (ts_stack_version_count s),
   s ++ map (fun g => set_head_node (fst (fst g)) h) groups).

Definition ts_stack_pop_count (s : Stack) (v : StackVersion) (count : Z)
  : StackSliceArray * Stack :=
  pop_with (node_pop_count (head_node (ts_stack_head s v)) count) s v.

Definition ts_stack_pop_all (s : Stack) (v : StackVersion) : StackSliceArray * Stack :=
  pop_with (node_pop_all (head_node (ts_stack_head s v))) s v.

(** Modelled from the spec: [renumber(src, dst)] of section 3; the head
    of [v1] takes the place of the head of [v2], and index [v1] is
    given up. *)
Definition ts_stack_renumber_version (s : Stack) (v1 v2 : StackVersion) : Stack :=
  if v1 =? v2 then s
  else ts_stack_remove_version (<[Z.to_nat v2 := ts_stack_head s v1]> s) v1.

(** Modelled from the spec: [pop_pending(v)] of section 3.
    [parser__breakdown_top_of_stack] pushes on the version of the slice
    it gets and then pops [version] again, so the slice of a pending
    pop is on [version] itself: the version that the pop created is
    renumbered onto it. *)
Definition ts_stack_pop_pending (s : Stack) (v : StackVersion) : StackSliceArray * Stack :=
  let '(pop, s) := pop_with (node_pop_pending (head_node (ts_stack_head s v))) s v in
  match pop with
  | [] => (pop, s)
  | first :: rest =>
      (mkStackSlice (slice_trees first) v :: rest,
       ts_stack_renumber_version s (slice_version first) v)
  end.

(** [while (ts_stack_version_count(stack) > n) ts_stack_remove_version(stack, n);]
    the loop of lines 651-653 and of lines 1219-1222. *)
Fixpoint remove_versions_from (fuel : nat) (s : Stack) (n : StackVersion)
  : option Stack :=
  if ts_stack_version_count s >? n then
    match fuel with
    | O => None
    | S fuel' => remove_versions_from fuel' (ts_stack_remove_version s n) n
    end
  else Some s.

End StackOperations.

(** ** Condensing the stack (parser.c, lines 1167-1222) *)

Section Condense.
Context {senv : StackEnv}.
Variable ERROR_COST_PER_SKIPPED_TREE : Z.

(** [parser__version_status] on the stack above. *)
Definition version_status (s : Stack) (v : StackVersion) : ErrorCosts.ErrorStatus :=
  ErrorCosts.parser__version_status ERROR_COST_PER_SKIPPED_TREE Stack
    ts_stack_error_cost ts_stack_is_paused ts_stack_node_count_since_error
    ts_stack_dynamic_precedence ts_stack_state s v.

(** Lines 1183-1215: the body of the inner loop.  The result is the
    stack, the indices [i] and [j] as the [switch] leaves them, and
    [made_changes]. *)
Definition condense_pair (s : Stack) (i j : StackVersion)
  (status_i : ErrorCosts.ErrorStatus) (made_changes : bool)
  : Stack * StackVersion * StackVersion * bool :=
  let status_j := version_status s j in
  match ErrorCosts.parser__compare_versions ERROR_COST_PER_SKIPPED_TREE
          status_j status_i with
  | ErrorCosts.ErrorComparisonTakeLeft =>
      (ts_stack_remove_version s i, u32 (i - 1), u32 (i - 1), true)
  | ErrorCosts.ErrorComparisonPreferLeft
  | ErrorCosts.ErrorComparisonNone =>
      match ts_stack_merge s j i with
      | (true, s') => (s', u32 (i - 1), u32 (i - 1), true)
      | (false, s') => (s', i, j, made_changes)
      end
  | ErrorCosts.ErrorComparisonPreferRight =>
      match ts_stack_merge s j i with
      | (true, s') => (s', u32 (i - 1), u32 (i - 1), true)
      | (false, s') => (ts_stack_swap_versions s' i j, i, j, true)
      end
  | ErrorCosts.ErrorComparisonTakeRight =>
      (ts_stack_remove_version s j, u32 (i - 1), u32 (j - 1), true)
  end.

(** Lines 1182-1216: [for (j = ...; j < i; j++)], entered with a given
    [j].  [status_i] is computed once, before the loop. *)
Fixpoint condense_inner (fuel : nat) (s : Stack) (i j : StackVersion)
  (status_i : ErrorCosts.ErrorStatus) (made_changes : bool)
  : option (Stack * StackVersion * bool) :=
  if j <? i then
    match fuel with
    | O => None
    | S fuel' =>
        let '(s', i', j', made_changes') :=
          condense_pair s i j status_i made_changes in
        condense_inner fuel' s' i' (u32 (j' + 1)) status_i made_changes'
    end
  else Some (s, i, made_changes).

(** Lines 1170-1217: [for (i = ...; i < version_count; i++)], entered
    with a given [i]. *)
Fixpoint condense_outer (fuel : nat) (s : Stack) (i : StackVersion)
  (made_changes : bool) (min_error_cost : Z) : option (Stack * bool * Z) :=
  if i <? ts_stack_version_count s then
    match fuel with
    | O => None
    | S fuel' =>
        if ts_stack_is_halted s i then
          condense_outer fuel' (ts_stack_remove_version s i)
            (u32 (u32 (i - 1) + 1)) made_changes min_error_cost
        else
          let status_i := version_status s i in
          let min_error_cost :=
            if negb (ErrorCosts.is_in_error status_i) &&
               (ErrorCosts.cost status_i <? min_error_cost)
            then ErrorCosts.cost status_i else min_error_cost in
          match condense_inner (S (Z.to_nat i)) s i 0 status_i made_changes with
          | None => None
          | Some (s', i', made_changes') =>
              condense_outer fuel' s' (u32 (i' + 1)) made_changes' min_error_cost
          end
    end
  else Some (s, made_changes, min_error_cost).

(** Lines 1168-1217 of [parser__condense_stack]. *)
Definition condense_stack_scan (s : Stack) : option (Stack * bool * Z) :=
  condense_outer (S (length s)) s 0 false UINT_MAX.


(** The same scan on a stack that holds no halted version: the test of
    line 1171 is gone. *)
Fixpoint pairs_outer (fuel : nat) (s : Stack) (i : StackVersion)
  (made_changes : bool) (min_error_cost : Z) : option (Stack * bool * Z) :=
  if i <? ts_stack_version_count s then
    match fuel with
    | O => None
    | S fuel' =>
        let status_i := version_status s i in
        let min_error_cost :=
          if negb (ErrorCosts.is_in_error status_i) &&
             (ErrorCosts.cost status_i <? min_error_cost)
          then ErrorCosts.cost status_i else min_error_cost in
        match condense_inner (S (Z.to_nat i)) s i 0 status_i made_changes with
        | None => None
        | Some (s', i', made_changes') =>
            pairs_outer fuel' s' (u32 (i' + 1)) made_changes' min_error_cost
        end
    end
  else Some (s, made_changes, min_error_cost).

Definition head_is_halted (h : StackHead) : bool :=
  status_is (head_status h) StackStatusHalted.

Definition not_halted (h : StackHead) : Prop := head_is_halted h = false.

(** "[condense_stack] first removes every halted version, then ...":
    the halted versions are dropped up front. *)
Definition remove_halted (s : Stack) : Stack :=
  filter (fun h => head_is_halted h = false) s.

(** The table of section 4.7: what is done for a pair [(j, i)]. *)
Inductive CondenseAction : Type :=
| RemoveI                (* TakeLeft: remove i *)
| TryMerge               (* PreferLeft, None: try merge(j, i) *)
| TryMergeElseSwap       (* PreferRight: try merge, else swap versions *)
| RemoveJ.               (* TakeRight: remove j *)

Definition condense_action (c : ErrorCosts.ErrorComparison) : CondenseAction :=
  match c with
  | ErrorCosts.ErrorComparisonTakeLeft => RemoveI
  | ErrorCosts.ErrorComparisonPreferLeft => TryMerge
  | ErrorCosts.ErrorComparisonNone => TryMerge
  | ErrorCosts.ErrorComparisonPreferRight => TryMergeElseSwap
  | ErrorCosts.ErrorComparisonTakeRight => RemoveJ
  end.

(** *** The scan as section 4.7 words it

    A second definition of the scan, following the words of section 4.7
    and not the loops of the code: indices are integers, and what "reset
    scan" leaves implicit is written out.  The versions are taken in
    turn; for the version at index [i], the versions at [j < i] are
    compared with it from index 0 on, and the table is applied:

    - remove [i]: the version that followed it is now at [i], and the
      scan goes on with it;
    - merge [(j, i)] succeeded: likewise;
    - merge failed, or versions swapped: the next [j];
    - remove [j]: the version of [i] is now at [i - 1], the next one to
      compare with it is at [j].

    [right_status s i] is the status on the right of the comparison.
    The result carries the index at which the scan of the versions goes
    on. *)
Fixpoint table_pairs (fuel : nat)
  (right_status : Stack -> StackVersion -> ErrorCosts.ErrorStatus)
  (s : Stack) (i j : Z) (made_changes : bool) : option (Stack * Z * bool) :=
  if j <? i then
    match fuel with
    | O => None
    | S fuel' =>
        match condense_action
                (ErrorCosts.parser__compare_versions ERROR_COST_PER_SKIPPED_TREE
                   (version_status s j) (right_status s i))
        with
        | RemoveI => Some (ts_stack_remove_version s i, i, true)
        | TryMerge =>
            if fst (ts_stack_merge s j i)
            then Some (snd (ts_stack_merge s j i), i, true)
            else table_pairs fuel' right_status s i (j + 1) made_changes
        | TryMergeElseSwap =>
            if fst (ts_stack_merge s j i)
            then Some (snd (ts_stack_merge s j i), i, true)
            else table_pairs fuel' right_status (ts_stack_swap_versions s i j)
                   i (j + 1) true
        | RemoveJ =>
            table_pairs fuel' right_status (ts_stack_remove_version s j)
              (i - 1) j true
        end
    end
  else Some (s, i + 1, made_changes).

(** The two readings of "compute [compare_versions(status_j, status_i)]"
    for a pair [(j, i)]: [status_i] is the status that the version at
    [i] had when its scan began, kept until the scan of the next version
    begins; or it is the status of the version that is at index [i] when
    the pair is compared. *)
Inductive StatusReading : Type :=
| StatusKept
| StatusOfVersion.

Fixpoint table_versions (fuel : nat) (reading : StatusReading) (s : Stack) (i : Z)
  (made_changes : bool) (min_error_cost : Z) : option (Stack * bool * Z) :=
  if i <? ts_stack_version_count s then
    match fuel with
    | O => None
    | S fuel' =>
        let status_i := version_status s i in
        let min_error_cost :=
          if negb (ErrorCosts.is_in_error status_i) &&
             (ErrorCosts.cost status_i <? min_error_cost)
          then ErrorCosts.cost status_i else min_error_cost in
        let right_status :=
          match reading with
          | StatusKept => fun _ _ => status_i
          | StatusOfVersion => version_status
          end in
        match table_pairs (S (Z.to_nat i)) right_status s i 0 made_changes with
        | None => None
        | Some (s', i', made_changes') =>
            table_versions fuel' reading s' i' made_changes' min_error_cost
        end
    end
  else Some (s, made_changes, min_error_cost).

(** Every halted version is removed first; then the pairs are scanned. *)
Definition condense_by_table (reading : StatusReading) (s : Stack)
  : option (Stack * bool * Z) :=
  let s := remove_halted s in
  table_versions (S (length s)) reading s 0 false UINT_MAX.

End Condense.

(** ** Reductions (parser.c, lines 567-668) *)

Definition set_alias_sequence_id (a : Z) (t : Tree) : Tree :=
  let 'mkTree s _ ps pd sz ch fs fl ec dp bs ets ex vi frl frr mi hc het := t in
  mkTree s a ps pd sz ch fs fl ec dp bs ets ex vi frl frr mi hc het.

Definition set_fragile (l r : bool) (t : Tree) : Tree :=
  let 'mkTree s a ps pd sz ch fs fl ec dp bs ets ex vi _ _ mi hc het := t in
  mkTree s a ps pd sz ch fs fl ec dp bs ets ex vi l r mi hc het.

(** Modelled from the spec: the state recorded in a fragile node
    ([NONE_STATE] in section 4.5); [tree.h] is not among the sources. *)
Definition TS_TREE_STATE_NONE : TSStateId := 65535.

(** The functions of [tree.c] and [language.c] that the reductions and
    the acceptance call; both files are absent from the sources. *)
Class TreeEnv : Type := {
  ts_tree_make_node : TSSymbol -> TreeArray -> Z -> Tree;
  ts_tree_make_error_node : TreeArray -> Tree;
  ts_tree_set_children : Tree -> TreeArray -> Tree;
  ts_tree_compare : Tree -> Tree -> Z;
  ts_language_next_state : TSStateId -> TSSymbol -> TSStateId
}.

(** [while (children.size > 0 && children.contents[children.size - 1]->extra)
    children.size--;] *)
Fixpoint strip_trailing_extras (trees : TreeArray) : TreeArray :=
  match trees with
  | [] => []
  | t :: trees' =>
      match strip_trailing_extras trees' with
      | [] => if extra t then [] else [t]
      | rest => t :: rest
      end
  end.

Section Reduce.
Context {senv : StackEnv} {tenv : TreeEnv}.

(** parser.c, lines 567-577.  The result is the tree that [*tree]
    designates afterwards, and the boolean returned. *)
Definition parser__replace_children (tree : Tree) (children_ : TreeArray)
  : Tree * bool :=
  let scratch_tree := ts_tree_set_children (set_children [] tree) children_ in
  if parser__select_tree ts_tree_compare (Some tree) (Some scratch_tree)
  then (scratch_tree, true)
  else (tree, false).

(** Lines 605-621: the slices that follow and share the version of the
    current one compete for the children of the parent.  The result is
    the parent, the slice kept and the slices not yet looked at. *)
Fixpoint reduce_alternatives (parent : Tree) (slice : StackSlice)
  (rest : StackSliceArray) : Tree * StackSlice * StackSliceArray :=
  match rest with
  | [] => (parent, slice, rest)
  | next_slice :: rest' =>
      if negb (slice_version next_slice =? slice_version slice)
      then (parent, slice, rest)
      else
        let children_ := strip_trailing_extras (slice_trees next_slice) in
        let '(parent', replaced) := parser__replace_children parent children_ in
        if replaced
        then reduce_alternatives parent' next_slice rest'
        else reduce_alternatives parent' slice rest'
  end.

(** Lines 639-641: the extra trees that were on top are pushed back. *)
Definition push_extras (s : Stack) (v : StackVersion) (extras : TreeArray)
  (state : TSStateId) : Stack :=
  foldl (fun s t => ts_stack_push s v (Some t) false state) s extras.

(** Lines 645-650: the versions of the slices left over are halted. *)
Definition halt_slices (s : Stack) (rest : StackSliceArray) : Stack :=
  foldl (fun s slice => ts_stack_halt s (slice_version slice)) s rest.

(** Lines 586-656: the loop over the slices, entered with the slices
    not yet looked at.  [pop_size] is [pop.size]. *)
Fixpoint reduce_slices (fuel : nat) (in_ambiguity : bool) (s : Stack)
  (pop : StackSliceArray) (pop_size initial_version_count : Z)
  (sym : TSSymbol) (dynamic_precedence_ : Z) (alias : Z) (fragile : bool)
  : option Stack :=
  match pop with
  | [] => Some s
  | slice :: rest =>
      match fuel with
      | O => None
      | S fuel' =>
          let children_ := strip_trailing_extras (slice_trees slice) in
          let parent := ts_tree_make_node sym children_ alias in
          let '(parent, slice, rest) := reduce_alternatives parent slice rest in
          let parent :=
            set_dynamic_precedence
              (dynamic_precedence parent + dynamic_precedence_) parent in
          let parent := set_alias_sequence_id alias parent in
          let state := ts_stack_state s (slice_version slice) in
          let next_state := ts_language_next_state state sym in
          let parent :=
            if fragile || in_ambiguity || (pop_size >? 1) ||
               (initial_version_count >? 1)
            then set_parse_state TS_TREE_STATE_NONE (set_fragile true true parent)
            else set_parse_state state parent in
          let s := ts_stack_push s (slice_version slice) (Some parent) false
                     next_state in
          let s := push_extras s (slice_version slice)
                     (drop (length (children parent)) (slice_trees slice))
                     next_state in
          if ts_stack_version_count s >? MAX_VERSION_COUNT then
            let s := halt_slices s rest in
            remove_versions_from (length s) s (u32 (slice_version slice + 1))
          else
            reduce_slices fuel' in_ambiguity s rest pop_size
              initial_version_count sym dynamic_precedence_ alias fragile
      end
  end.

(** Lines 659-664: the inner loop of the final merges, entered with a
    given [j]; the result is the stack and [i] as the loop leaves it. *)
Fixpoint reduce_merge_inner (fuel : nat) (s : Stack) (i j : StackVersion)
  : option (Stack * StackVersion) :=
  if j <? i then
    match ts_stack_merge s j i with
    | (true, s') => Some (s', u32 (i - 1))
    | (false, s') =>
        match fuel with
        | O => None
        | S fuel' => reduce_merge_inner fuel' s' i (u32 (j + 1))
        end
    end
  else Some (s, i).

(** Lines 658-665: the versions created by the reduction are merged
    with each other where they can be. *)
Fixpoint reduce_merge (fuel : nat) (s : Stack) (initial_version_count : Z)
  (i : StackVersion) : option Stack :=
  if i <? ts_stack_version_count s then
    match fuel with
    | O => None
    | S fuel' =>
        match reduce_merge_inner (Z.to_nat i) s i initial_version_count with
        | None => None
        | Some (s', i') =>
            reduce_merge fuel' s' initial_version_count (u32 (i' + 1))
        end
    end
  else Some s.

(** parser.c, lines 579-668: the slices returned and the stack left. *)
Definition parser__reduce (in_ambiguity : bool) (s : Stack) (version : StackVersion)
  (sym : TSSymbol) (count : Z) (dynamic_precedence_ : Z) (alias : Z)
  (fragile : bool) : option (StackSliceArray * Stack) :=
  let initial_version_count := ts_stack_version_count s in
  let '(pop, s) := ts_stack_pop_count s version count in
  match reduce_slices (S (length pop)) in_ambiguity s pop (Z.of_nat (length pop))
          initial_version_count sym dynamic_precedence_ alias fragile with
  | None => None
  | Some s =>
      match reduce_merge (S (length s)) s initial_version_count
              initial_version_count with
      | None => None
      | Some s => Some (pop, s)
      end
  end.

End Reduce.

(** ** Acceptance and halting (parser.c, lines 689-733 and 881-902) *)

(** [ts_tree_total_bytes] of [tree.h]: padding and size, as a [uint32_t]. *)
Definition ts_tree_total_bytes (t : Tree) : Z :=
  u32 (bytes (padding t) + bytes (size t)).


Record TokenCache : Type := mkTokenCache {
  cache_token : option Tree;
  cache_byte_index : Z;
  cache_last_external_token : option Tree
}.

(** The fields of [Parser] that the functions below read and write. *)
Record Parser {lenv : LexEnv} {senv : StackEnv} : Type := mkParser {
  parser_lexer : Lexer Input;
  parser_stack : Stack;
  parser_finished_tree : option Tree;
  parser_accept_count : Z;
  parser_in_ambiguity : bool;
  parser_external_scanner_payload : Payload;
  parser_token_cache : TokenCache
}.

Arguments mkParser {lenv senv} _ _ _ _ _ _ _.
Arguments parser_lexer {lenv senv} _.
Arguments parser_stack {lenv senv} _.
Arguments parser_finished_tree {lenv senv} _.
Arguments parser_accept_count {lenv senv} _.
Arguments parser_in_ambiguity {lenv senv} _.
Arguments parser_external_scanner_payload {lenv senv} _.
Arguments parser_token_cache {lenv senv} _.

Section Accept.
Context {lenv : LexEnv} {senv : StackEnv} {tenv : TreeEnv}.

Definition set_parser_lexer (l : Lexer Input) (p : Parser) : Parser :=
  mkParser l (parser_stack p) (parser_finished_tree p) (parser_accept_count p)
    (parser_in_ambiguity p) (parser_external_scanner_payload p)
    (parser_token_cache p).

Definition set_parser_stack (s : Stack) (p : Parser) : Parser :=
  mkParser (parser_lexer p) s (parser_finished_tree p) (parser_accept_count p)
    (parser_in_ambiguity p) (parser_external_scanner_payload p)
    (parser_token_cache p).


(** Lines 700-714: from the end of the array, the first child that is
    not extra is replaced by its own children
    ([array_splice(&trees, j, 1, &child->children)]).  The result is
    that child and the array after the splice. *)
Fixpoint accept_splice (trees : TreeArray) : option (Tree * TreeArray) :=
  match trees with
  | [] => None
  | t :: rest =>
      match accept_splice rest with
      | Some (child, rest') => Some (child, t :: rest')
      | None => if negb (extra t) then Some (t, children t ++ rest) else None
      end
  end.

(** Lines 696-729: one root per slice; the roots compete for
    [finished_tree].  [None]: the assertion of line 716 fails. *)
Fixpoint accept_slices (pop : StackSliceArray) (finished_tree : option Tree)
  (accept_count : Z) : option (option Tree * Z) :=
  match pop with
  | [] => Some (finished_tree, accept_count)
  | slice :: pop' =>
      match accept_splice (slice_trees slice) with
      | None => None
      | Some (child, trees) =>
          let root :=
            ts_tree_make_node (symbol child) trees (alias_sequence_id child) in
          let accept_count := u32 (accept_count + 1) in
          let finished_tree :=
            match finished_tree with
            | Some finished =>
                if parser__select_tree ts_tree_compare (Some finished) (Some root)
                then Some root else Some finished
            | None => Some root
            end in
          accept_slices pop' finished_tree accept_count
      end
  end.

(** parser.c, lines 689-733.  [None]: an assertion fails, or
    [pop.contents[0]] does not exist. *)
Definition parser__accept (p : Parser) (version : StackVersion) (lookahead_ : Tree)
  : option Parser :=
  let lookahead_ := set_extra true lookahead_ in
  if negb (symbol lookahead_ =? ts_builtin_sym_end) then None
  else
    let s := ts_stack_push (parser_stack p) version (Some lookahead_) false 1 in
    let '(pop, s) := ts_stack_pop_all s version in
    match accept_slices pop (parser_finished_tree p) (parser_accept_count p) with
    | None => None
    | Some (finished_tree, accept_count) =>
        match pop with
        | [] => None
        | first :: _ =>
            let s := ts_stack_remove_version s (slice_version first) in
            let s := ts_stack_halt s version in
            Some (mkParser (parser_lexer p) s finished_tree accept_count
                    (parser_in_ambiguity p) (parser_external_scanner_payload p)
                    (parser_token_cache p))
        end
    end.









End Accept.

(** ** The lookahead (parser.c, lines 74-116 and 375-493) *)

(** [TableEntry] of [language.h]; the array [actions] and its length
    [action_count] are one list. *)
Record TableEntry (Action : Type) : Type := mkTableEntry {
  actions : list Action;
  is_reusable : bool;
  depends_on_lookahead : bool
}.

Arguments mkTableEntry {Action} _ _ _.
Arguments actions {Action} _.
Arguments is_reusable {Action} _.
Arguments depends_on_lookahead {Action} _.

(** [reusable_node.h] and [language.c] are not among the sources.  The
    cursor is a type with the three fields that [parser.c] reads
    ([tree], [byte_index], [last_external_token]); its operations and
    the lookup in the parse table are fields of this class.
    [reusable_node_breakdown] answers whether it went down. *)
Class ReuseEnv : Type := {
  TSParseAction : Type;
  ReusableNode : Type;
  reusable_tree : ReusableNode -> option Tree;
  reusable_byte_index : ReusableNode -> Z;
  reusable_last_external_token : ReusableNode -> option Tree;
  reusable_node_pop : ReusableNode -> ReusableNode;
  reusable_node_breakdown : ReusableNode -> bool * ReusableNode;
  reusable_node_after_leaf : ReusableNode -> ReusableNode;
  ts_language_table_entry : TSStateId -> TSSymbol -> TableEntry TSParseAction
}.

(** [tree->children.size > 0]. *)
Definition has_children (t : Tree) : bool :=
  match children t with
  | [] => false
  | _ :: _ => true
  end.

Section Breakdown.
Context {senv : StackEnv} {tenv : TreeEnv}.

(** Lines 87-101: the children of the parent are pushed one by one. *)
Fixpoint breakdown_children (children_ : TreeArray) (s : Stack)
  (version : StackVersion) (state : TSStateId) (pending : bool)
  : Stack * TSStateId * bool :=
  match children_ with
  | [] => (s, state, pending)
  | child :: rest =>
      let pending := has_children child in
      let state :=
        if symbol child =? ts_builtin_sym_error then ERROR_STATE
        else if negb (extra child) then ts_language_next_state state (symbol child)
        else state in
      breakdown_children rest (ts_stack_push s version (Some child) pending state)
        version state pending
  end.

(** Lines 83-113, the body of the loop over the slices.  [None]:
    [array_front] of an empty array. *)
Fixpoint breakdown_slices (pop : StackSliceArray) (s : Stack) (pending : bool)
  : option (Stack * bool) :=
  match pop with
  | [] => Some (s, pending)
  | slice :: pop' =>
      match slice_trees slice with
      | [] => None
      | parent :: trees =>
          let state := ts_stack_state s (slice_version slice) in
          let '(s, state, pending) :=
            breakdown_children (children parent) s (slice_version slice) state
              pending in
          let s :=
            foldl (fun s tree =>
                     ts_stack_push s (slice_version slice) (Some tree) false state)
              s trees in
          breakdown_slices pop' s pending
      end
  end.

(** parser.c, lines 74-116.  [fuel] bounds the [do ... while (pending)]
    loop; [did_break_down] is the variable of line 75. *)
Fixpoint breakdown_loop (fuel : nat) (s : Stack) (version : StackVersion)
  (did_break_down : bool) : option (bool * Stack) :=
  match fuel with
  | O => None
  | S fuel' =>
      let '(pop, s) := ts_stack_pop_pending s version in
      match pop with
      | [] => Some (did_break_down, s)
      | _ :: _ =>
          match breakdown_slices pop s false with
          | None => None
          | Some (s, pending) =>
              if pending then breakdown_loop fuel' s version true
              else Some (true, s)
          end
      end
  end.

Definition parser__breakdown_top_of_stack (fuel : nat) (s : Stack)
  (version : StackVersion) : option (bool * Stack) :=
  breakdown_loop fuel s version false.

End Breakdown.

(** What [parser__get_lookahead] returns and what it leaves behind:
    the tree, the parser, [*state], [*reusable_node] and
    [*table_entry]. *)
Record Lookahead {lenv : LexEnv} {senv : StackEnv} {renv : ReuseEnv} : Type :=
  mkLookahead {
  la_result : Tree;
  la_parser : Parser;
  la_state : TSStateId;
  la_reusable_node : ReusableNode;
  la_table_entry : TableEntry TSParseAction
}.

Arguments mkLookahead {lenv senv renv} _ _ _ _ _.
Arguments la_result {lenv senv renv} _.
Arguments la_parser {lenv senv renv} _.
Arguments la_state {lenv senv renv} _.
Arguments la_reusable_node {lenv senv renv} _.
Arguments la_table_entry {lenv senv renv} _.

Section GetLookahead.
Context {lenv : LexEnv} {senv : StackEnv} {tenv : TreeEnv} {renv : ReuseEnv}.

Definition set_parser_token_cache (c : TokenCache) (p : Parser) : Parser :=
  mkParser (parser_lexer p) (parser_stack p) (parser_finished_tree p)
    (parser_accept_count p) (parser_in_ambiguity p)
    (parser_external_scanner_payload p) c.

Definition set_parser_external_scanner_payload (payload : Payload) (p : Parser)
  : Parser :=
  mkParser (parser_lexer p) (parser_stack p) (parser_finished_tree p)
    (parser_accept_count p) (parser_in_ambiguity p) payload
    (parser_token_cache p).

(** parser.c, lines 375-384. *)
Definition parser__get_cached_token (p : Parser) (byte_index : Z)
  (last_external_token : option Tree) : option Tree :=
  let cache := parser_token_cache p in
  match cache_token cache with
  | Some token =>
      if (cache_byte_index cache =? byte_index) &&
         ts_tree_external_token_state_eq (cache_last_external_token cache)
           last_external_token
      then Some token
      else None
  | None => None
  end.

(** parser.c, lines 386-396, without the reference counts. *)
Definition parser__set_cached_token (p : Parser) (byte_index : Z)
  (last_external_token : option Tree) (token : option Tree) : Parser :=
  set_parser_token_cache (mkTokenCache token byte_index last_external_token) p.

(** parser.c, lines 398-415. *)
Definition parser__can_reuse_first_leaf (state : TSStateId) (tree : Tree)
  (table_entry : TableEntry TSParseAction) : bool :=
  let current_lex_mode := lex_modes state in
  if (lex_state (first_leaf_lex_mode tree) =? lex_state current_lex_mode) &&
     (external_lex_state (first_leaf_lex_mode tree)
        =? external_lex_state current_lex_mode) &&
     (negb (first_leaf_symbol tree =? keyword_capture_token) ||
      (parse_state tree =? state))
  then true
  else if (bytes (size tree) =? 0) && negb (symbol tree =? ts_builtin_sym_end)
  then false
  else (external_lex_state current_lex_mode =? 0) && is_reusable table_entry.

(** Lines 438-449: whether a [reason] not to reuse the tree is found. *)
Definition cant_reuse_node (in_ambiguity : bool) (result : Tree) : bool :=
  if has_changes result then true
  else if symbol result =? ts_builtin_sym_error then true
  else if is_missing result then true
  else if fragile_left result || fragile_right result then true
  else if in_ambiguity && has_children result then true
  else false.

(** How one turn of the loop of lines 423-476 ends. *)
Inductive CursorStep : Type :=
| CursorContinue (s : Stack) (state : TSStateId) (reusable_node : ReusableNode)
| CursorBreak (reusable_node : ReusableNode)
| CursorReturn (result : Tree) (table_entry : TableEntry TSParseAction).

(** One turn of the loop, condition included. *)
Definition get_lookahead_step (fuel : nat) (in_ambiguity : bool)
  (version : StackVersion) (position : Length) (last_external_token : option Tree)
  (s : Stack) (state : TSStateId) (reusable_node : ReusableNode)
  : option CursorStep :=
  match reusable_tree reusable_node with
  | None => Some (CursorBreak reusable_node)
  | Some result =>
      if reusable_byte_index reusable_node >? bytes position then
        Some (CursorBreak reusable_node)
      else if reusable_byte_index reusable_node <? bytes position then
        Some (CursorContinue s state (reusable_node_pop reusable_node))
      else if negb (ts_tree_external_token_state_eq
                      (reusable_last_external_token reusable_node)
                      last_external_token) then
        Some (CursorContinue s state (reusable_node_pop reusable_node))
      else if cant_reuse_node in_ambiguity result then
        let '(went_down, reusable_node) := reusable_node_breakdown reusable_node in
        if went_down then Some (CursorContinue s state reusable_node)
        else
          let reusable_node := reusable_node_pop reusable_node in
          match parser__breakdown_top_of_stack fuel s version with
          | None => None
          | Some (_, s) =>
              Some (CursorContinue s (ts_stack_state s version) reusable_node)
          end
      else
        let table_entry := ts_language_table_entry state (first_leaf_symbol result) in
        let next_reusable_node := reusable_node_after_leaf reusable_node in
        if negb (parser__can_reuse_first_leaf state result table_entry) then
          Some (CursorBreak next_reusable_node)
        else Some (CursorReturn result table_entry)
  end.

(** How the loop ends: with a tree of the cursor, or without. *)
Inductive CursorExit : Type :=
| CursorReused (result : Tree) (table_entry : TableEntry TSParseAction)
    (s : Stack) (state : TSStateId) (reusable_node : ReusableNode)
| CursorPassed (s : Stack) (state : TSStateId) (reusable_node : ReusableNode).

(** Lines 423-476; [fuel] bounds the number of turns. *)
Fixpoint get_lookahead_cursor (fuel : nat) (in_ambiguity : bool)
  (version : StackVersion) (position : Length) (last_external_token : option Tree)
  (s : Stack) (state : TSStateId) (reusable_node : ReusableNode)
  : option CursorExit :=
  match fuel with
  | O => None
  | S fuel' =>
      match get_lookahead_step fuel' in_ambiguity version position
              last_external_token s state reusable_node with
      | None => None
      | Some (CursorContinue s state reusable_node) =>
          get_lookahead_cursor fuel' in_ambiguity version position
            last_external_token s state reusable_node
      | Some (CursorBreak reusable_node) =>
          Some (CursorPassed s state reusable_node)
      | Some (CursorReturn result table_entry) =>
          Some (CursorReused result table_entry s state reusable_node)
      end
  end.

(** Lines 478-484: the token of the cache, if there is one for this
    place and it can be reused. *)
Definition get_lookahead_cached (p : Parser) (position : Length)
  (last_external_token : option Tree) (state : TSStateId)
  : option (Tree * TableEntry TSParseAction) :=
  match parser__get_cached_token p (bytes position) last_external_token with
  | Some result =>
      let table_entry := ts_language_table_entry state (first_leaf_symbol result) in
      if parser__can_reuse_first_leaf state result table_entry
      then Some (result, table_entry)
      else None
  | None => None
  end.

(** parser.c, lines 417-493.  [parser__lex] reads the position and the
    last external token of [version] from the stack (lines 228-229). *)
Definition parser__get_lookahead (fuel : nat) (p : Parser) (version : StackVersion)
  (state : TSStateId) (reusable_node : ReusableNode) : option Lookahead :=
  let position := ts_stack_position (parser_stack p) version in
  let last_external_token := ts_stack_last_external_token (parser_stack p) version in
  match get_lookahead_cursor fuel (parser_in_ambiguity p) version position
          last_external_token (parser_stack p) state reusable_node with
  | None => None
  | Some (CursorReused result table_entry s state reusable_node) =>
      Some (mkLookahead result (set_parser_stack s p) state reusable_node table_entry)
  | Some (CursorPassed s state reusable_node) =>
      let p := set_parser_stack s p in
      match get_lookahead_cached p position last_external_token state with
      | Some (result, table_entry) =>
          Some (mkLookahead result p state reusable_node table_entry)
      | None =>
          match parser__lex fuel (parser_lexer p) (parser_external_scanner_payload p)
                  (ts_stack_position (parser_stack p) version)
                  (ts_stack_last_external_token (parser_stack p) version) state with
          | None => None
          | Some (result, lexer, payload) =>
              let p :=
                set_parser_external_scanner_payload payload (set_parser_lexer lexer p) in
              let p :=
                parser__set_cached_token p (bytes position) last_external_token
                  (Some result) in
              Some (mkLookahead result p state reusable_node
                      (ts_language_table_entry state (symbol result)))
          end
      end
  end.

(** The three sources of a lookahead, in the words of the
    specification (section 4.3, "Lookahead acquisition"). *)

(** The checks on a tree of the cursor, as conditions: the tree has no
    changes, is no error, is not missing, is not fragile, and has no
    children while the parser is in an ambiguity. *)
Definition node_reusable (in_ambiguity : bool) (t : Tree) : Prop :=
  has_changes t = false /\
  symbol t <> ts_builtin_sym_error /\
  is_missing t = false /\
  fragile_left t = false /\
  fragile_right t = false /\
  (in_ambiguity = true -> children t = []).

(** The first leaf of a tree can be reused in [state]. *)
Definition first_leaf_reusable (state : TSStateId) (t : Tree) : Prop :=
  parser__can_reuse_first_leaf state t
    (ts_language_table_entry state (first_leaf_symbol t)) = true.

(** The cache holds a token for this byte and this external token state
    whose first leaf can be reused in [state]. *)
Definition cache_applies (p : Parser) (position : Length)
  (last_external_token : option Tree) (state : TSStateId) (result : Tree) : Prop :=
  cache_token (parser_token_cache p) = Some result /\
  cache_byte_index (parser_token_cache p) = bytes position /\
  ts_tree_external_token_state_eq
    (cache_last_external_token (parser_token_cache p)) last_external_token = true /\
  parser__can_reuse_first_leaf state result
    (ts_language_table_entry state (first_leaf_symbol result)) = true.

(** Where the search of the cursor stands: the stack, the parse state
    and the cursor. *)
Definition CursorAt : Type := (Stack * TSStateId * ReusableNode)%type.

Section Sources.
Variable in_ambiguity : bool.
Variable version : StackVersion.
Variable position : Length.
Variable last_external_token : option Tree.

(** The cursor is on a candidate: a tree at the byte position of the
    version, with the same external token state. *)
Definition candidate_here (reusable_node : ReusableNode) (t : Tree) : Prop :=
  reusable_tree reusable_node = Some t /\
  reusable_byte_index reusable_node = bytes position /\
  ts_tree_external_token_state_eq (reusable_last_external_token reusable_node)
    last_external_token = true.

(** The first source applies: the candidate passes the checks. *)
Definition candidate_applies (state : TSStateId) (reusable_node : ReusableNode)
  (t : Tree) : Prop :=
  candidate_here reusable_node t /\
  node_reusable in_ambiguity t /\
  first_leaf_reusable state t.

(** The cursor moves on, past a tree that is no candidate or into one
    that fails the checks:
    - a tree that begins before the position is passed;
    - a tree at the position with another external token state is
      passed;
    - a candidate that fails the checks and has children is entered;
    - a candidate that fails the checks and has none is passed, and the
      top of the stack is broken down, which can change the parse
      state. *)
Inductive cursor_skips : CursorAt -> CursorAt -> Prop :=
| skips_before s state r t :
    reusable_tree r = Some t ->
    reusable_byte_index r < bytes position ->
    cursor_skips (s, state, r) (s, state, reusable_node_pop r)
| skips_external s state r t :
    reusable_tree r = Some t ->
    reusable_byte_index r = bytes position ->
    ts_tree_external_token_state_eq (reusable_last_external_token r)
      last_external_token = false ->
    cursor_skips (s, state, r) (s, state, reusable_node_pop r)
| skips_into s state r t :
    candidate_here r t ->
    ~ node_reusable in_ambiguity t ->
    fst (reusable_node_breakdown r) = true ->
    cursor_skips (s, state, r) (s, state, snd (reusable_node_breakdown r))
| skips_leaf s state r t fuel did_break_down s' :
    candidate_here r t ->
    ~ node_reusable in_ambiguity t ->
    fst (reusable_node_breakdown r) = false ->
    parser__breakdown_top_of_stack fuel s version = Some (did_break_down, s') ->
    cursor_skips (s, state, r)
      (s', ts_stack_state s' version,
       reusable_node_pop (snd (reusable_node_breakdown r))).

(** The first source does not apply, and the cursor is left at
    [reusable_node']: the cursor is at its end; or its tree begins
    beyond the position; or the candidate passes the checks on the tree
    but its first leaf cannot be reused in [state], and the cursor is
    moved behind that leaf. *)
Inductive cursor_gives_up (state : TSStateId) (r : ReusableNode)
  : ReusableNode -> Prop :=
| gives_up_at_end :
    reusable_tree r = None ->
    cursor_gives_up state r r
| gives_up_beyond t :
    reusable_tree r = Some t ->
    bytes position < reusable_byte_index r ->
    cursor_gives_up state r r
| gives_up_first_leaf t :
    candidate_here r t ->
    node_reusable in_ambiguity t ->
    ~ first_leaf_reusable state t ->
    cursor_gives_up state r (reusable_node_after_leaf r).

(** What the exit of the loop over the cursor stands for. *)
Definition cursor_exit_ok (c : CursorAt) (exit_ : CursorExit) : Prop :=
  match exit_ with
  | CursorReused result table_entry s' state' r' =>
      rtc cursor_skips c (s', state', r') /\
      candidate_applies state' r' result /\
      table_entry = ts_language_table_entry state' (first_leaf_symbol result)
  | CursorPassed s' state' r'' =>
      exists r',
        rtc cursor_skips c (s', state', r') /\
        cursor_gives_up state' r' r''
  end.

End Sources.

(** The lookahead of a call on [p], [version], [state] and
    [reusable_node], source by source, in the order of section 4.3.
    [position] and [last_external_token] are the position and the
    external token that the version has when the call begins. *)
Inductive lookahead_of (p : Parser) (version : StackVersion) (position : Length)
  (last_external_token : option Tree) (state : TSStateId)
  (reusable_node : ReusableNode) : Lookahead -> Prop :=
| of_cursor s' state' r' result :
    rtc (cursor_skips (parser_in_ambiguity p) version position last_external_token)
      (parser_stack p, state, reusable_node) (s', state', r') ->
    candidate_applies (parser_in_ambiguity p) position last_external_token
      state' r' result ->
    lookahead_of p version position last_external_token state reusable_node
      (mkLookahead result (set_parser_stack s' p) state' r'
         (ts_language_table_entry state' (first_leaf_symbol result)))
| of_cache s' state' r' r'' result :
    rtc (cursor_skips (parser_in_ambiguity p) version position last_external_token)
      (parser_stack p, state, reusable_node) (s', state', r') ->
    cursor_gives_up (parser_in_ambiguity p) position last_external_token
      state' r' r'' ->
    cache_applies p position last_external_token state' result ->
    lookahead_of p version position last_external_token state reusable_node
      (mkLookahead result (set_parser_stack s' p) state' r''
         (ts_language_table_entry state' (first_leaf_symbol result)))
| of_lexer s' state' r' r'' fuel result lexer payload :
    rtc (cursor_skips (parser_in_ambiguity p) version position last_external_token)
      (parser_stack p, state, reusable_node) (s', state', r') ->
    cursor_gives_up (parser_in_ambiguity p) position last_external_token
      state' r' r'' ->
    (forall t, ~ cache_applies p position last_external_token state' t) ->
    parser__lex fuel (parser_lexer p) (parser_external_scanner_payload p)
      (ts_stack_position s' version) (ts_stack_last_external_token s' version) state'
    = Some (result, lexer, payload) ->
    lookahead_of p version position last_external_token state reusable_node
      (mkLookahead result
         (mkParser lexer s' (parser_finished_tree p) (parser_accept_count p)
            (parser_in_ambiguity p) payload
            (mkTokenCache (Some result) (bytes position) last_external_token))
         state' r'' (ts_language_table_entry state' (symbol result))).

End GetLookahead.

(** ** Other functions of parser.c *)

(** The answer to a comparison, read from the other side. *)
Definition comparison_mirror (c : ErrorCosts.ErrorComparison)
  : ErrorCosts.ErrorComparison :=
  match c with
  | ErrorCosts.ErrorComparisonTakeLeft => ErrorCosts.ErrorComparisonTakeRight
  | ErrorCosts.ErrorComparisonPreferLeft => ErrorCosts.ErrorComparisonPreferRight
  | ErrorCosts.ErrorComparisonNone => ErrorCosts.ErrorComparisonNone
  | ErrorCosts.ErrorComparisonPreferRight => ErrorCosts.ErrorComparisonPreferLeft
  | ErrorCosts.ErrorComparisonTakeRight => ErrorCosts.ErrorComparisonTakeLeft
  end.

Section BetterVersion.
Context {senv : StackEnv}.
Variable ERROR_COST_PER_SKIPPED_TREE : Z.

(** Lines 197-209: the body of the loop for version [i]; [true] is a
    [return true]. *)
Definition better_version_at (s : Stack) (version : StackVersion)
  (position : Length) (status : ErrorCosts.ErrorStatus) (i : StackVersion) : bool :=
  if (i =? version) || negb (ts_stack_is_active s i) ||
     (bytes (ts_stack_position s i) <? bytes position)
  then false
  else
    let status_i := version_status ERROR_COST_PER_SKIPPED_TREE s i in
    match ErrorCosts.parser__compare_versions ERROR_COST_PER_SKIPPED_TREE
            status status_i with
    | ErrorCosts.ErrorComparisonTakeRight => true
    | ErrorCosts.ErrorComparisonPreferRight => ts_stack_can_merge s i version
    | _ => false
    end.

(** parser.c, lines 185-213. *)
Definition parser__better_version_exists (finished_tree : option Tree)
  (s : Stack) (version : StackVersion) (is_in_error : bool) (cost : Z) : bool :=
  if match finished_tree with
     | Some t => error_cost t <=? cost
     | None => false
     end
  then true
  else
    let position := ts_stack_position s version in
    let status :=
      {| ErrorCosts.cost := cost;
         ErrorCosts.is_in_error := is_in_error;
         ErrorCosts.dynamic_precedence := ts_stack_dynamic_precedence s version;
         ErrorCosts.node_count := ts_stack_node_count_since_error s version |} in
    existsb (better_version_at s version position status)
      (map Z.of_nat (seq 0 (length s))).

End BetterVersion.

Section BreakdownLookahead.
Context {renv : ReuseEnv}.

(** Lines 122-127: the loop; [None] when [reusable_node->tree] is null,
    or when the turns allowed are used up. *)
Fixpoint breakdown_lookahead_loop (fuel : nat) (state : TSStateId)
  (reusable_node : ReusableNode) (did_break_down : bool)
  : option (bool * ReusableNode) :=
  match fuel with
  | O => None
  | S fuel' =>
      match reusable_tree reusable_node with
      | None => None
      | Some tree =>
          if has_children tree && negb (parse_state tree =? state) then
            breakdown_lookahead_loop fuel' state
              (snd (reusable_node_breakdown reusable_node)) true
          else Some (did_break_down, reusable_node)
      end
  end.

(** parser.c, lines 119-133.  The result is [*lookahead] and
    [*reusable_node]. *)
Definition parser__breakdown_lookahead (fuel : nat) (lookahead_ : Tree)
  (state : TSStateId) (reusable_node : ReusableNode)
  : option (Tree * ReusableNode) :=
  match breakdown_lookahead_loop fuel state reusable_node false with
  | None => None
  | Some (did_break_down, reusable_node) =>
      if did_break_down then
        match reusable_tree reusable_node with
        | Some tree => Some (tree, reusable_node)
        | None => None
        end
      else Some (lookahead_, reusable_node)
  end.

End BreakdownLookahead.

(** A tree is no worse than another when it does not cost more and, at
    equal cost, does not have a lower dynamic precedence: the order of
    the first four tests of [parser__select_tree]. *)
Definition no_worse (t t' : Tree) : Prop :=
  error_cost t <= error_cost t' /\
  (error_cost t = error_cost t' -> dynamic_precedence t' <= dynamic_precedence t).

(** One status comes before another when it is out of error and the
    other is not or, both being alike in that, when it costs less or, at
    equal cost, has the higher dynamic precedence. *)
Definition status_before (a b : ErrorCosts.ErrorStatus) : Prop :=
  (ErrorCosts.is_in_error a = false /\ ErrorCosts.is_in_error b = true) \/
  (ErrorCosts.is_in_error a = ErrorCosts.is_in_error b /\
   (ErrorCosts.cost a < ErrorCosts.cost b \/
    (ErrorCosts.cost a = ErrorCosts.cost b /\
     ErrorCosts.dynamic_precedence b < ErrorCosts.dynamic_precedence a))).

Definition left_wins (c : ErrorCosts.ErrorComparison) : Prop :=
  c = ErrorCosts.ErrorComparisonTakeLeft \/ c = ErrorCosts.ErrorComparisonPreferLeft.

Definition right_wins (c : ErrorCosts.ErrorComparison) : Prop :=
  c = ErrorCosts.ErrorComparisonTakeRight \/ c = ErrorCosts.ErrorComparisonPreferRight.

(** ** Concrete inputs used by the examples below *)

Module Inputs.

(** Two versions, neither in error: the first is error free after about
    a million nodes, the second carries an error cost of 4096. *)
Definition status_cheap : ErrorCosts.ErrorStatus :=
  {| ErrorCosts.cost := 0; ErrorCosts.node_count := 1048575;
     ErrorCosts.dynamic_precedence := 0; ErrorCosts.is_in_error := false |}.

Definition status_costly : ErrorCosts.ErrorStatus :=
  {| ErrorCosts.cost := 4096; ErrorCosts.node_count := 0;
     ErrorCosts.dynamic_precedence := 0; ErrorCosts.is_in_error := false |}.

(** Three trees with the same positive error cost and the same dynamic
    precedence, told apart by their symbols. *)
Definition tree_e1 : Tree := set_error_cost 1 (set_symbol 1 blank_tree).
Definition tree_e2 : Tree := set_error_cost 1 (set_symbol 2 blank_tree).
Definition tree_e3 : Tree := set_error_cost 1 (set_symbol 3 blank_tree).

(** A table with one state and no entry, and an [Accept] action on
    symbol 5; the absent types are instantiated with [unit]. *)
Definition accept_action : ParseTable.ParseAction (Symbol := Z) unit unit :=
  {| ParseTable.type := ParseTable.ParseActionTypeAccept;
     ParseTable.extra := false; ParseTable.fragile := false;
     ParseTable.symbol := 5; ParseTable.state_index := -1;
     ParseTable.consumed_symbol_count := 0;
     ParseTable.precedence_range := tt; ParseTable.associativity := tt;
     ParseTable.production := None |}.

Definition one_state_table : ParseTable.ParseTable (Symbol := Z) unit unit :=
  {| ParseTable.states :=
       [ {| ParseTable.entries := (∅ : gmap Z _); ParseTable.lex_state_id := -1 |} ];
     ParseTable.error_state :=
       {| ParseTable.entries := ∅; ParseTable.lex_state_id := -1 |};
     ParseTable.symbols := ∅ |}.

(** Two [Shift] actions to state 3 that differ in their precedence
    only, and a table with one state and no entry for them; here a
    precedence range is a number. *)
Definition shift_low : ParseTable.ParseAction (Symbol := Z) Z unit :=
  {| ParseTable.type := ParseTable.ParseActionTypeShift;
     ParseTable.extra := false; ParseTable.fragile := false;
     ParseTable.symbol := -1; ParseTable.state_index := 3;
     ParseTable.consumed_symbol_count := 0;
     ParseTable.precedence_range := 1; ParseTable.associativity := tt;
     ParseTable.production := None |}.

Definition shift_high : ParseTable.ParseAction (Symbol := Z) Z unit :=
  {| ParseTable.type := ParseTable.ParseActionTypeShift;
     ParseTable.extra := false; ParseTable.fragile := false;
     ParseTable.symbol := -1; ParseTable.state_index := 3;
     ParseTable.consumed_symbol_count := 0;
     ParseTable.precedence_range := 2; ParseTable.associativity := tt;
     ParseTable.production := None |}.

Definition shift_table : ParseTable.ParseTable (Symbol := Z) Z unit :=
  {| ParseTable.states :=
       [ {| ParseTable.entries := (∅ : gmap Z _); ParseTable.lex_state_id := -1 |} ];
     ParseTable.error_state :=
       {| ParseTable.entries := ∅; ParseTable.lex_state_id := -1 |};
     ParseTable.symbols := ∅ |}.

(** A lexer over an input of [n] bytes, all of them the letter [a],
    whose internal lexer takes the rest of the input as one token
    (symbol 1), or the end of the input as the token [END]; there is no
    external scanner and no keyword. *)
Definition toy_lookahead (n : Z) (p : Length) : Z :=
  if bytes p <? n then 97 else 0.

Definition toy_reset (n : Z) (l : Lexer unit) (p : Length) : Lexer unit :=
  mkLexer p (token_start_position l) (token_end_position l)
    (toy_lookahead n p) (result_symbol l) tt.

Definition toy_start (l : Lexer unit) : Lexer unit :=
  mkLexer (current_position l) (current_position l) (current_position l)
    (lookahead l) (result_symbol l) tt.

Definition toy_advance (n : Z) (l : Lexer unit) (skip : bool) : Lexer unit :=
  if bytes (current_position l) <? n then
    let p := {| bytes := bytes (current_position l) + 1;
                extent := extent (current_position l) |} in
    mkLexer p (if skip then p else token_start_position l)
      (token_end_position l) (toy_lookahead n p) (result_symbol l) tt
  else l.

Definition toy_lex_fn (n : Z) (l : Lexer unit) (lex_state_ : Z) : bool * Lexer unit :=
  if bytes (current_position l) <? n then
    let p := {| bytes := n; extent := extent (current_position l) |} in
    (true, mkLexer p (token_start_position l) p 0 1 tt)
  else
    (true, mkLexer (current_position l) (token_start_position l)
             (current_position l) (lookahead l) ts_builtin_sym_end tt).

Definition toy_leaf (sym : TSSymbol) (padding_ size_ : Length) : Tree :=
  set_padding_size padding_ size_ (set_symbol sym blank_tree).

Definition toy_env (n : Z) : LexEnv :=
  {| Input := unit; Payload := unit; ValidTokens := unit;
     ts_lexer_reset := toy_reset n;
     ts_lexer_start := toy_start;
     lexer_advance := toy_advance n;
     ts_lexer_advance_to_end := fun l =>
       toy_reset n l {| bytes := Z.max n (bytes (current_position l));
                        extent := extent (current_position l) |};
     length_is_undefined := fun _ => false;
     lex_modes := fun _ => {| lex_state := 0; external_lex_state := 0 |};
     keyword_capture_token := 0;
     lex_fn := toy_lex_fn n;
     keyword_lex_fn := fun l _ => (false, l);
     external_scanner_scan := fun p l _ => (false, l, p);
     external_scanner_serialize := fun p => ([], p);
     external_scanner_deserialize := fun p _ => p;
     external_scanner_symbol_map := fun s => s;
     ts_language_enabled_external_tokens := fun _ => None;
     ts_language_has_actions := fun _ _ => false;
     ts_tree_make_leaf := toy_leaf;
     ts_tree_make_error := fun size_ padding_ _ =>
       toy_leaf ts_builtin_sym_error padding_ size_ |}.

Definition toy_lexer : Lexer unit :=
  mkLexer length_zero length_zero length_zero 0 0 tt.

(** A stack without sharing: a node is the list of its entries, the
    top one first, each a state, a tree and the pending flag; the empty
    list is the base node, in state 1. *)
Definition ToyNode : Type := list (TSStateId * option Tree * bool).

Definition toy_entry_tree (e : TSStateId * option Tree * bool) : option Tree :=
  snd (fst e).

Definition toy_trees (n : ToyNode) : TreeArray :=
  rev (omap toy_entry_tree n).

Definition toy_state (n : ToyNode) : TSStateId :=
  match n with
  | [] => 1
  | e :: _ => fst (fst e)
  end.

Definition toy_position (n : ToyNode) : Length :=
  foldr (fun t acc => length_add acc (length_add (padding t) (size t)))
    length_zero (omap toy_entry_tree n).

Definition toy_error_cost (n : ToyNode) : Z :=
  foldr (fun t acc => u32 (acc + error_cost t)) 0 (omap toy_entry_tree n).

Definition toy_dynamic_precedence (n : ToyNode) : Z :=
  foldr (fun t acc => acc + dynamic_precedence t) 0 (omap toy_entry_tree n).

Definition toy_external_token_state_eq (a b : option Tree) : bool :=
  bool_decide (from_option external_token_state [] a
               = from_option external_token_state [] b).

Definition toy_stack_env : StackEnv :=
  {| StackNode := ToyNode;
     node_base := [];
     node_state := toy_state;
     node_position := toy_position;
     node_error_cost := toy_error_cost;
     node_count_since_error := fun n => Z.of_nat (length n);
     node_dynamic_precedence := toy_dynamic_precedence;
     node_push := fun n t pending st => (st, t, pending) :: n;
     node_merge := fun a _ => a;
     node_pop_count := fun n k =>
       [(drop (Z.to_nat k) n, toy_trees (take (Z.to_nat k) n), [])];
     node_pop_all := fun n => [([], toy_trees n, [])];
     node_pop_pending := fun n =>
       match n with
       | (_, Some t, true) :: n' => [(n', [t], [])]
       | _ => []
       end;
     ts_tree_external_token_state_eq := toy_external_token_state_eq |}.

Definition toy_head (n : ToyNode) (st : StackStatus)
  : StackHead (senv := toy_stack_env) :=
  mkStackHead (senv := toy_stack_env) n st 0 None.

Definition toy_leaf_tree (sym : TSSymbol) (n : Z) : Tree :=
  toy_leaf sym length_zero {| bytes := n; extent := {| row := 0; column := n |} |}.

(** Three versions: a halted one, one at byte 3 in state 2, and one at
    byte 3 in state 3 that carries an error cost of 5. *)
Definition three_versions : list (StackHead (senv := toy_stack_env)) :=
  [ toy_head [] StackStatusHalted;
    toy_head [(2, Some (toy_leaf_tree 1 3), false)] StackStatusActive;
    toy_head [(3, Some (set_error_cost 5 (toy_leaf_tree 2 3)), false)]
      StackStatusActive ].

(** Three active versions in the states 2, 3 and 4, each with one token
    of three bytes on it, of error cost 500, 1000 and 0. *)
Definition costly_version (state : TSStateId) (error_cost_ : Z)
  : StackHead (senv := toy_stack_env) :=
  toy_head [(state, Some (set_error_cost error_cost_ (toy_leaf_tree 1 3)), false)]
    StackStatusActive.

Definition costly_versions : list (StackHead (senv := toy_stack_env)) :=
  [ costly_version 2 500; costly_version 3 1000; costly_version 4 0 ].

(** Trees built as section 4.1 describes [make_node]: the children are
    set, the extent is the sum of theirs, the padding that of the first
    child, error cost and dynamic precedence add up. *)
Definition ts_tree_total_size (t : Tree) : Length :=
  length_add (padding t) (size t).

Definition toy_children_extent (ch : TreeArray) : Length :=
  foldl (fun acc t => length_add acc (ts_tree_total_size t)) length_zero ch.

Definition toy_set_children (t : Tree) (ch : TreeArray) : Tree :=
  let padding_ := match ch with [] => length_zero | c :: _ => padding c end in
  let size_ := length_sub (toy_children_extent ch) padding_ in
  set_error_cost (foldl (fun acc c => u32 (acc + error_cost c)) 0 ch)
    (set_dynamic_precedence (foldl (fun acc c => acc + dynamic_precedence c) 0 ch)
       (set_padding_size padding_ size_ (set_children ch t))).

Definition toy_make_node (sym : TSSymbol) (ch : TreeArray) (alias : Z) : Tree :=
  toy_set_children (set_alias_sequence_id alias (set_symbol sym blank_tree)) ch.

Definition toy_tree_env : TreeEnv :=
  {| ts_tree_make_node := toy_make_node;
     ts_tree_make_error_node := fun ch => toy_make_node ts_builtin_sym_error ch 0;
     ts_tree_set_children := toy_set_children;
     ts_tree_compare := ts_tree_compare_model;
     ts_language_next_state := fun st _ => st |}.

(** Six active versions, each with one token of three bytes on it. *)
Definition six_versions : list (StackHead (senv := toy_stack_env)) :=
  replicate 6 (toy_head [(2, Some (toy_leaf_tree 1 3), false)] StackStatusActive).

(** A parser over an input of ten bytes of which version 0, the only
    one, has taken a token of three bytes; no tree is finished. *)
Definition toy_parser : Parser (lenv := toy_env 10) (senv := toy_stack_env) :=
  mkParser (lenv := toy_env 10) (senv := toy_stack_env) toy_lexer
    [toy_head [(2, Some (toy_leaf_tree 1 3), false)] StackStatusActive]
    None 0 false tt (mkTokenCache None 0 None).

(** The same parser before any token is taken: version 0 is at byte 0. *)
Definition toy_parser_start : Parser (lenv := toy_env 10) (senv := toy_stack_env) :=
  mkParser (lenv := toy_env 10) (senv := toy_stack_env) toy_lexer
    [toy_head [] StackStatusActive]
    None 0 false tt (mkTokenCache None 0 None).

(** A cursor over what is left of an old tree, in pre-order: the trees
    still to come and the byte at which the first of them starts.  No
    tree carries an external token state. *)
Definition ToyCursor : Type := (TreeArray * Z)%type.

Definition toy_cursor_pop (c : ToyCursor) : ToyCursor :=
  match fst c with
  | [] => c
  | t :: rest => (rest, u32 (snd c + ts_tree_total_bytes t))
  end.

Definition toy_cursor_breakdown (c : ToyCursor) : bool * ToyCursor :=
  match fst c with
  | [] => (false, c)
  | t :: rest =>
      match children t with
      | [] => (false, c)
      | ch => (true, (ch ++ rest, snd c))
      end
  end.

(** The trees that follow the first leaf of a tree, inside it, and the
    width of that leaf. *)
Fixpoint toy_after_first_leaf (t : Tree) : TreeArray * Z :=
  match t with
  | mkTree _ _ _ p z ch _ _ _ _ _ _ _ _ _ _ _ _ _ =>
      match ch with
      | [] => ([], u32 (bytes p + bytes z))
      | c :: cs =>
          let '(following, width) := toy_after_first_leaf c in
          (following ++ cs, width)
      end
  end.

Definition toy_cursor_after_leaf (c : ToyCursor) : ToyCursor :=
  match fst c with
  | [] => c
  | t :: rest =>
      let '(following, width) := toy_after_first_leaf t in
      (following ++ rest, u32 (snd c + width))
  end.

(** A table in which every entry is empty and reusable. *)
Definition toy_reuse_env : ReuseEnv :=
  {| TSParseAction := unit;
     ReusableNode := ToyCursor;
     reusable_tree := fun c => head (fst c);
     reusable_byte_index := snd;
     reusable_last_external_token := fun _ => None;
     reusable_node_pop := toy_cursor_pop;
     reusable_node_breakdown := toy_cursor_breakdown;
     reusable_node_after_leaf := toy_cursor_after_leaf;
     ts_language_table_entry := fun _ _ => mkTableEntry [] true false |}.

(** The cursor at the start of an old tree that is one token of three
    bytes. *)
Definition toy_cursor : ToyCursor := ([toy_leaf_tree 1 3], 0).

(** An old tree that is a node over two tokens, and the cursor at its
    start. *)
Definition toy_node_tree : Tree :=
  toy_make_node 9 [toy_leaf_tree 1 3; toy_leaf_tree 1 4] 0.

Definition toy_node_cursor : ToyCursor := ([toy_node_tree], 0).

End Inputs.

(** * Properties *)

(** ** Machine integers *)

Lemma u32_range z : is_u32 (u32 z).
Proof.
  unfold is_u32, u32, UINT_MAX.
  pose proof (Z.mod_pos_bound z (2 ^ 32)). lia.
Qed.

Lemma u32_small z : is_u32 z -> u32 z = z.
Proof.
  unfold is_u32, u32, UINT_MAX. intros Hz.
  apply Z.mod_small. lia.
Qed.

(** ** Comparison of versions *)

Section CompareVersionsFacts.
Import ErrorCosts.

Variable E : Z.

(** When neither scaled difference overflows 32 bits, the code computes
    the comparison of section 4.7. *)
Lemma compare_versions_exact (a b : ErrorStatus) :
  wf_status a -> wf_status b ->
  is_u32 (16 * E) ->
  (cost a < cost b -> (cost b - cost a) * (1 + node_count a) <= UINT_MAX) ->
  (cost b < cost a -> (cost a - cost b) * (1 + node_count b) <= UINT_MAX) ->
  parser__compare_versions E a b = compare_versions_spec E a b.
Proof.
  intros [Hca Hna] [Hcb Hnb] HE Hab Hba.
  unfold parser__compare_versions, compare_versions_spec, MAX_COST_DIFFERENCE.
  rewrite (u32_small _ HE).
  destruct (is_in_error a), (is_in_error b); cbn [negb andb]; try reflexivity.
  all: destruct (Z.ltb_spec (cost a) (cost b)) as [Hlt | Hge].
  all: try (rewrite (u32_small (cost b - cost a)) by (unfold is_u32 in *; lia);
            rewrite (u32_small (1 + node_count a)) by (unfold is_u32 in *; nia);
            rewrite (u32_small (_ * _)) by (unfold is_u32 in *; nia);
            reflexivity).
  all: destruct (Z.ltb_spec (cost b) (cost a)) as [Hlt' | Hge']; try reflexivity.
  all: rewrite (u32_small (cost a - cost b)) by (unfold is_u32 in *; lia);
       rewrite (u32_small (1 + node_count b)) by (unfold is_u32 in *; nia);
       rewrite (u32_small (_ * _)) by (unfold is_u32 in *; nia);
       reflexivity.
Qed.

(** C2.  The comparison of two versions that are both out of error, with
    costs 0 and 4096 and 1048575 nodes since the last error on the
    cheaper one: the scaled difference is [4096 * 1048576 = 2^32], far
    above [MAX_COST_DIFFERENCE], so that the specified answer is
    [TakeLeft]; the code evaluates the product on [unsigned] operands,
    obtains 0 and answers [PreferLeft].  This holds for every value of
    [ERROR_COST_PER_SKIPPED_TREE] whose sixteen-fold fits in 32 bits. *)
Theorem compare_versions_product_wraps :
  is_u32 (16 * E) ->
  parser__compare_versions E Inputs.status_cheap Inputs.status_costly
    = ErrorComparisonPreferLeft /\
  compare_versions_spec E Inputs.status_cheap Inputs.status_costly
    = ErrorComparisonTakeLeft.
Proof.
  intros HE. unfold is_u32, UINT_MAX in HE.
  unfold parser__compare_versions, compare_versions_spec, MAX_COST_DIFFERENCE.
  cbn [Inputs.status_cheap Inputs.status_costly cost node_count
       is_in_error dynamic_precedence negb andb].
  change (0 <? 4096) with true. cbv iota.
  change (u32 (u32 (4096 - 0) * u32 (1 + 1048575))) with 0.
  change ((4096 - 0) * (1 + 1048575)) with 4294967296.
  split.
  - destruct (Z.gtb_spec 0 (u32 (16 * E))) as [Hgt | Hle]; [|reflexivity].
    pose proof (u32_range (16 * E)) as Hr. unfold is_u32 in Hr. lia.
  - destruct (Z.gtb_spec 4294967296 (16 * E)) as [Hgt | Hle]; [reflexivity|lia].
Qed.

End CompareVersionsFacts.

Lemma compare_versions_product_wraps_witness :
  is_u32 (16 * 100) /\
  ErrorCosts.parser__compare_versions 100 Inputs.status_cheap Inputs.status_costly
    = ErrorCosts.ErrorComparisonPreferLeft /\
  ErrorCosts.compare_versions_spec 100 Inputs.status_cheap Inputs.status_costly
    = ErrorCosts.ErrorComparisonTakeLeft.
Proof.
  assert (Hr : is_u32 (16 * 100)) by (unfold is_u32, UINT_MAX; lia).
  split; [exact Hr | exact (compare_versions_product_wraps 100 Hr)].
Defined.

(** ** Status of a version *)

Section VersionStatusFacts.
Import ErrorCosts.

Variable E : Z.
Variable Stack : Type.
Variable ts_stack_error_cost : Stack -> StackVersion -> Z.
Variable ts_stack_is_paused : Stack -> StackVersion -> bool.
Variable ts_stack_node_count_since_error : Stack -> StackVersion -> Z.
Variable ts_stack_dynamic_precedence : Stack -> StackVersion -> Z.
Variable ts_stack_state : Stack -> StackVersion -> TSStateId.

(** As long as the penalised cost fits in 32 bits it is the exact sum. *)
Lemma version_status_cost_exact stack version :
  ts_stack_is_paused stack version = true ->
  is_u32 (ts_stack_error_cost stack version + E) ->
  cost (parser__version_status E Stack ts_stack_error_cost ts_stack_is_paused
          ts_stack_node_count_since_error ts_stack_dynamic_precedence
          ts_stack_state stack version)
  = ts_stack_error_cost stack version + E.
Proof.
  intros Hp Hr. unfold parser__version_status. cbn [cost].
  rewrite Hp. apply u32_small, Hr.
Qed.


End VersionStatusFacts.

(** ** Tree selection *)

Section SelectTreeFacts.

Variable ts_tree_compare : Tree -> Tree -> Z.

(** C1, as amended.  [parser__select_tree] decides between two trees by
    the four rules of section 4.6 in their order, with rule 3 as the
    code has it: the smaller error cost wins; otherwise the higher
    dynamic precedence wins; otherwise, if both error costs are
    positive, the right tree is selected; otherwise the right tree is
    selected exactly when [ts_tree_compare] ranks the left tree after
    it, so that the earlier tree is kept and a tie keeps the left. *)
Theorem select_tree_rules_correct (l r : Tree) :
  parser__select_tree ts_tree_compare (Some l) (Some r)
  = select_tree_rules ts_tree_compare l r.
Proof.
  unfold parser__select_tree, select_tree_rules.
  destruct (Z.ltb_spec (error_cost r) (error_cost l)) as [Hrl | Hrl]; [reflexivity|].
  destruct (Z.ltb_spec (error_cost l) (error_cost r)) as [Hlr | Hlr]; [reflexivity|].
  destruct (dynamic_precedence r >? dynamic_precedence l); [reflexivity|].
  destruct (dynamic_precedence l >? dynamic_precedence r); [reflexivity|].
  assert (Heq : error_cost l = error_cost r) by lia.
  rewrite <- Heq.
  destruct (error_cost l >? 0); cbn [andb]; [reflexivity|].
  destruct (Z.eqb_spec (ts_tree_compare l r) (-1)) as [Hm | Hm].
  - rewrite Hm. reflexivity.
  - destruct (ts_tree_compare l r =? 1); reflexivity.
Qed.

(** A null left tree always loses; a null right tree never wins. *)
Lemma select_tree_null (left right : option Tree) :
  parser__select_tree ts_tree_compare None right = true /\
  (left <> None -> parser__select_tree ts_tree_compare left None = false).
Proof.
  split; [reflexivity|]. destruct left; [reflexivity|congruence].
Qed.

End SelectTreeFacts.

(** C1, counterexample.  Two trees of error cost 1 and dynamic
    precedence 0: rule 3 of the specification keeps the left one, the
    code selects the right one. *)
Lemma select_tree_error_tie_takes_right :
  parser__select_tree ts_tree_compare_model
    (Some Inputs.tree_e1) (Some Inputs.tree_e2) = true /\
  select_tree_spec ts_tree_compare_model Inputs.tree_e1 Inputs.tree_e2 = false.
Proof. split; reflexivity. Qed.

(** *** The modelled tree comparison is a total preorder *)

Lemma ts_tree_compare_model_eq (a b : Tree) :
  ts_tree_compare_model a b =
  lex_then (compare_Z (bytes (padding a)) (bytes (padding b)))
    (lex_then (compare_Z (symbol a) (symbol b))
       (compare_children ts_tree_compare_model (children a) (children b))).
Proof. destruct a; reflexivity. Qed.

Lemma tree_nodes_eq (t : Tree) :
  tree_nodes t = S (forest_nodes (children t)).
Proof. destruct t; reflexivity. Qed.

Lemma forest_nodes_In (x : Tree) (l : list Tree) :
  In x l -> (tree_nodes x <= forest_nodes l)%nat.
Proof.
  induction l as [|y l IH]; cbn [In forest_nodes]; [tauto|].
  intros [-> | Hin]; [lia|]. specialize (IH Hin). lia.
Qed.

Lemma child_nodes_lt (x t : Tree) :
  In x (children t) -> (tree_nodes x < tree_nodes t)%nat.
Proof.
  intros Hin. rewrite (tree_nodes_eq t).
  pose proof (forest_nodes_In x _ Hin). lia.
Qed.

Lemma compare_Z_sign x y : sign_value (compare_Z x y).
Proof.
  unfold sign_value, compare_Z.
  destruct (x <? y); [auto|]. destruct (y <? x); auto.
Qed.

Lemma compare_Z_opp x y : compare_Z y x = - compare_Z x y.
Proof.
  unfold compare_Z.
  destruct (Z.ltb_spec x y), (Z.ltb_spec y x); lia.
Qed.

Lemma compare_Z_ge_trans x y z :
  0 <= compare_Z x y -> 0 <= compare_Z y z -> 0 <= compare_Z x z.
Proof.
  unfold compare_Z.
  destruct (Z.ltb_spec x y), (Z.ltb_spec y x), (Z.ltb_spec y z),
    (Z.ltb_spec z y), (Z.ltb_spec x z), (Z.ltb_spec z x); lia.
Qed.

Lemma compare_Z_zero x y : compare_Z x y = 0 <-> x = y.
Proof.
  unfold compare_Z.
  destruct (Z.ltb_spec x y), (Z.ltb_spec y x); lia.
Qed.

Lemma lex_then_sign c1 c2 :
  sign_value c1 -> sign_value c2 -> sign_value (lex_then c1 c2).
Proof.
  unfold lex_then. destruct (Z.eqb_spec c1 0); cbn [negb]; auto.
Qed.

Lemma lex_then_opp c1 c2 : lex_then (- c1) (- c2) = - lex_then c1 c2.
Proof.
  unfold lex_then.
  destruct (Z.eqb_spec c1 0), (Z.eqb_spec (- c1) 0); cbn [negb]; lia.
Qed.

Section ComparePreorder.

Variable cmp : Tree -> Tree -> Z.

Lemma compare_children_sign (l1 l2 : list Tree) :
  (forall x y, In x l1 -> sign_value (cmp x y)) ->
  sign_value (compare_children cmp l1 l2).
Proof.
  revert l2. induction l1 as [|x l1 IH]; intros [|y l2] Hs;
    cbn [compare_children]; unfold sign_value; auto.
  destruct (Z.eqb_spec (cmp x y) 0); cbn [negb].
  - apply IH. intros x' y' Hin. apply Hs. right. exact Hin.
  - apply Hs. left. reflexivity.
Qed.

Lemma compare_children_opp (l1 l2 : list Tree) :
  (forall x y, In x l1 -> cmp y x = - cmp x y) ->
  compare_children cmp l2 l1 = - compare_children cmp l1 l2.
Proof.
  revert l2. induction l1 as [|x l1 IH]; intros [|y l2] Ho;
    cbn [compare_children]; try reflexivity.
  rewrite (Ho x y) by (left; reflexivity).
  destruct (Z.eqb_spec (cmp x y) 0), (Z.eqb_spec (- cmp x y) 0);
    cbn [negb]; try lia.
  apply IH. intros x' y' Hin. apply Ho. right. exact Hin.
Qed.

Lemma compare_children_ge_trans (l1 l2 l3 : list Tree) :
  (forall x y, cmp y x = - cmp x y) ->
  (forall x y z, In x l1 -> In y l2 -> In z l3 -> cmp_ge_trans_all cmp x y z) ->
  0 <= compare_children cmp l1 l2 ->
  0 <= compare_children cmp l2 l3 ->
  0 <= compare_children cmp l1 l3.
Proof.
  intros Ho. revert l2 l3.
  induction l1 as [|x l1 IH]; intros [|y l2] [|z l3] Ht;
    cbn [compare_children]; try lia.
  pose proof (Ht x y z (or_introl eq_refl) (or_introl eq_refl) (or_introl eq_refl))
    as (T1 & T2 & T3 & T4 & T5 & T6).
  unfold cmp_ge_trans in *.
  pose proof (Ho x y) as Oxy. pose proof (Ho y z) as Oyz. pose proof (Ho x z) as Oxz.
  assert (IH' : 0 <= compare_children cmp l1 l2 ->
                0 <= compare_children cmp l2 l3 ->
                0 <= compare_children cmp l1 l3).
  { apply IH. intros x' y' z' Hx Hy Hz. apply Ht; right; assumption. }
  destruct (Z.eqb_spec (cmp x y) 0), (Z.eqb_spec (cmp y z) 0),
    (Z.eqb_spec (cmp x z) 0); cbn [negb]; intros H1 H2; try lia; auto.
Qed.

End ComparePreorder.

Lemma lex_then_ge_trans (a1 b1 c1 a2 b2 c2 : Z) :
  (0 <= a1 -> 0 <= b1 -> 0 <= c1) ->
  (0 <= a1 -> 0 <= b1 -> c1 = 0 -> a1 = 0 /\ b1 = 0) ->
  (a1 = 0 -> b1 = 0 -> 0 <= a2 -> 0 <= b2 -> 0 <= c2) ->
  0 <= lex_then a1 a2 -> 0 <= lex_then b1 b2 -> 0 <= lex_then c1 c2.
Proof.
  unfold lex_then. intros H1 H2 H3.
  destruct (Z.eqb_spec a1 0), (Z.eqb_spec b1 0), (Z.eqb_spec c1 0);
    cbn [negb]; intros Ha Hb; try lia.
  all: first
    [ apply H3; assumption
    | assert (0 <= b1) as Hb1 by lia; assert (0 <= a1) as Ha1 by lia;
      destruct (H2 Ha1 Hb1 eq_refl); lia ].
Qed.

Lemma compare_Z_ge_strict x y z :
  0 <= compare_Z x y -> 0 <= compare_Z y z -> compare_Z x z = 0 ->
  compare_Z x y = 0 /\ compare_Z y z = 0.
Proof.
  unfold compare_Z.
  destruct (Z.ltb_spec x y), (Z.ltb_spec y x), (Z.ltb_spec y z),
    (Z.ltb_spec z y), (Z.ltb_spec x z), (Z.ltb_spec z x); lia.
Qed.

Lemma ts_tree_compare_model_sign_opp (n : nat) :
  forall a b, (tree_nodes a <= n)%nat ->
    sign_value (ts_tree_compare_model a b) /\
    ts_tree_compare_model b a = - ts_tree_compare_model a b.
Proof.
  induction n as [|n IH]; intros a b Hn.
  - rewrite tree_nodes_eq in Hn. lia.
  - assert (Hch : forall x y, In x (children a) ->
              sign_value (ts_tree_compare_model x y) /\
              ts_tree_compare_model y x = - ts_tree_compare_model x y).
    { intros x y Hin. apply IH. pose proof (child_nodes_lt x a Hin). lia. }
    rewrite (ts_tree_compare_model_eq a b), (ts_tree_compare_model_eq b a).
    split.
    + apply lex_then_sign; [apply compare_Z_sign|].
      apply lex_then_sign; [apply compare_Z_sign|].
      apply compare_children_sign. intros x y Hin. apply (Hch x y Hin).
    + rewrite (compare_Z_opp (bytes (padding a))), (compare_Z_opp (symbol a)).
      rewrite (compare_children_opp ts_tree_compare_model (children a) (children b)).
      * rewrite !lex_then_opp. reflexivity.
      * intros x y Hin. apply (Hch x y Hin).
Qed.

Lemma ts_tree_compare_model_sign a b : sign_value (ts_tree_compare_model a b).
Proof. apply (ts_tree_compare_model_sign_opp (tree_nodes a)). lia. Qed.

Lemma ts_tree_compare_model_opp a b :
  ts_tree_compare_model b a = - ts_tree_compare_model a b.
Proof. apply (ts_tree_compare_model_sign_opp (tree_nodes a)). lia. Qed.

Lemma ts_tree_compare_model_ge_trans_bounded (n : nat) :
  forall a b c, (tree_nodes a + tree_nodes b + tree_nodes c <= n)%nat ->
    cmp_ge_trans ts_tree_compare_model a b c.
Proof.
  induction n as [|n IH]; intros a b c Hn.
  - rewrite (tree_nodes_eq a) in Hn. lia.
  - unfold cmp_ge_trans.
    rewrite (ts_tree_compare_model_eq a b), (ts_tree_compare_model_eq b c),
      (ts_tree_compare_model_eq a c).
    apply lex_then_ge_trans.
    + apply compare_Z_ge_trans.
    + apply compare_Z_ge_strict.
    + intros _ _. apply lex_then_ge_trans.
      * apply compare_Z_ge_trans.
      * apply compare_Z_ge_strict.
      * intros _ _. apply compare_children_ge_trans.
        -- intros x y. apply ts_tree_compare_model_opp.
        -- intros x y z Hx Hy Hz.
           pose proof (child_nodes_lt x a Hx).
           pose proof (child_nodes_lt y b Hy).
           pose proof (child_nodes_lt z c Hz).
           unfold cmp_ge_trans_all. repeat split; apply IH; lia.
Qed.

Lemma ts_tree_compare_model_ge_trans a b c :
  cmp_ge_trans ts_tree_compare_model a b c.
Proof.
  apply (ts_tree_compare_model_ge_trans_bounded
           (tree_nodes a + tree_nodes b + tree_nodes c)). lia.
Qed.

(** The modelled comparison never ranks two trees both ways. *)
Lemma ts_tree_compare_model_antisym a b :
  ts_tree_compare_model a b = 1 -> ts_tree_compare_model b a <> 1.
Proof. intros Hab. rewrite ts_tree_compare_model_opp, Hab. lia. Qed.

(** The strict part of the modelled comparison is transitive. *)
Lemma ts_tree_compare_model_trans a b c :
  ts_tree_compare_model a b = 1 -> ts_tree_compare_model b c = 1 ->
  ts_tree_compare_model a c = 1.
Proof.
  intros Hab Hbc.
  pose proof (ts_tree_compare_model_ge_trans a b c) as Hge.
  pose proof (ts_tree_compare_model_ge_trans c a b) as Hge'.
  pose proof (ts_tree_compare_model_sign a c) as Hs.
  pose proof (ts_tree_compare_model_opp a c) as Hac.
  pose proof (ts_tree_compare_model_opp b c) as Hcb.
  unfold cmp_ge_trans, sign_value in *. lia.
Qed.

(** *** Antisymmetry and absence of cycles *)

Section SelectTreeOrder.

Variable ts_tree_compare : Tree -> Tree -> Z.

(** What the answer [true] of [parser__select_tree] means. *)
Lemma select_tree_true_inv (l r : Tree) :
  parser__select_tree ts_tree_compare (Some l) (Some r) = true ->
  error_cost r < error_cost l \/
  (error_cost r = error_cost l /\ dynamic_precedence l < dynamic_precedence r) \/
  (error_cost r = error_cost l /\ dynamic_precedence l = dynamic_precedence r /\
   (0 < error_cost l \/ ts_tree_compare l r = 1)).
Proof.
  unfold parser__select_tree.
  destruct (Z.ltb_spec (error_cost r) (error_cost l)) as [Hrl | Hrl]; [auto|].
  destruct (Z.ltb_spec (error_cost l) (error_cost r)) as [Hlr | Hlr]; [discriminate|].
  destruct (Z.gtb_spec (dynamic_precedence r) (dynamic_precedence l)) as [Hd | Hd].
  { intros _. right. left. lia. }
  destruct (Z.gtb_spec (dynamic_precedence l) (dynamic_precedence r)) as [Hd' | Hd'];
    [discriminate|].
  destruct (Z.gtb_spec (error_cost l) 0) as [Hpos | Hpos].
  { intros _. right. right. lia. }
  destruct (Z.eqb_spec (ts_tree_compare l r) (-1)); [discriminate|].
  destruct (Z.eqb_spec (ts_tree_compare l r) 1); [|discriminate].
  intros _. right. right. repeat split; lia.
Qed.

Lemma select_tree_tied (a b : Tree) :
  tied_in_error a b ->
  parser__select_tree ts_tree_compare (Some a) (Some b) = true.
Proof.
  intros (Hc & Hpos & Hd). unfold parser__select_tree.
  rewrite Hc, Hd, Z.ltb_irrefl. rewrite Z.gtb_ltb, Z.ltb_irrefl.
  destruct (Z.gtb_spec (error_cost b) 0); [reflexivity|lia].
Qed.

Hypothesis compare_antisym :
  forall a b, ts_tree_compare a b = 1 -> ts_tree_compare b a <> 1.
Hypothesis compare_trans :
  forall a b c, ts_tree_compare a b = 1 -> ts_tree_compare b c = 1 ->
    ts_tree_compare a c = 1.

(** C8, as amended.  [parser__select_tree] is a total function, and it
    is antisymmetric and free of cycles except among trees tied at the
    same positive error cost and the same dynamic precedence, provided
    [ts_tree_compare] is itself antisymmetric and transitive: if each of
    two trees is selected over the other, or if three trees are each
    selected over the next, then the trees are so tied; and between two
    trees so tied the right argument is always the one selected. *)
Theorem select_tree_order_up_to_error_ties :
  (forall a b,
     parser__select_tree ts_tree_compare (Some a) (Some b) = true ->
     parser__select_tree ts_tree_compare (Some b) (Some a) = true ->
     tied_in_error a b) /\
  (forall a b c,
     parser__select_tree ts_tree_compare (Some a) (Some b) = true ->
     parser__select_tree ts_tree_compare (Some b) (Some c) = true ->
     parser__select_tree ts_tree_compare (Some c) (Some a) = true ->
     tied_in_error a b /\ tied_in_error b c) /\
  (forall a b,
     tied_in_error a b ->
     parser__select_tree ts_tree_compare (Some a) (Some b) = true /\
     parser__select_tree ts_tree_compare (Some b) (Some a) = true).
Proof.
  split; [|split].
  - intros a b Hab Hba.
    apply select_tree_true_inv in Hab, Hba. unfold tied_in_error.
    destruct Hab as [Hab | [Hab | (Hc & Hd & [Hpos | Hcmp])]];
      destruct Hba as [Hba | [Hba | (Hc' & Hd' & [Hpos' | Hcmp'])]]; try lia.
    exfalso. exact (compare_antisym a b Hcmp Hcmp').
  - intros a b c Hab Hbc Hca.
    apply select_tree_true_inv in Hab, Hbc, Hca. unfold tied_in_error.
    destruct Hab as [Hab | [Hab | (Hc1 & Hd1 & [Hp1 | Hcmp1])]];
      destruct Hbc as [Hbc | [Hbc | (Hc2 & Hd2 & [Hp2 | Hcmp2])]];
      destruct Hca as [Hca | [Hca | (Hc3 & Hd3 & [Hp3 | Hcmp3])]]; try lia.
    exfalso.
    exact (compare_antisym a c (compare_trans a b c Hcmp1 Hcmp2) Hcmp3).
  - intros a b Ht. split; apply select_tree_tied; [exact Ht|].
    destruct Ht as (Hc & Hpos & Hd). unfold tied_in_error. lia.
Qed.

End SelectTreeOrder.

Lemma select_tree_order_witness :
  (parser__select_tree ts_tree_compare_model
     (Some Inputs.tree_e1) (Some Inputs.tree_e2) = true /\
   parser__select_tree ts_tree_compare_model
     (Some Inputs.tree_e2) (Some Inputs.tree_e1) = true) /\
  tied_in_error Inputs.tree_e1 Inputs.tree_e2.
Proof.
  assert (H12 : parser__select_tree ts_tree_compare_model
                  (Some Inputs.tree_e1) (Some Inputs.tree_e2) = true)
    by reflexivity.
  assert (H21 : parser__select_tree ts_tree_compare_model
                  (Some Inputs.tree_e2) (Some Inputs.tree_e1) = true)
    by reflexivity.
  split; [split; assumption|].
  exact (proj1 (select_tree_order_up_to_error_ties ts_tree_compare_model
                  ts_tree_compare_model_antisym ts_tree_compare_model_trans)
           Inputs.tree_e1 Inputs.tree_e2 H12 H21).
Defined.

(** C8, counterexample.  Three distinct trees of error cost 1: each of
    the first two is selected over the other, and the three form a
    cycle in which each is selected over the previous one. *)
Lemma select_tree_not_antisymmetric :
  Inputs.tree_e1 <> Inputs.tree_e2 /\
  parser__select_tree ts_tree_compare_model
    (Some Inputs.tree_e1) (Some Inputs.tree_e2) = true /\
  parser__select_tree ts_tree_compare_model
    (Some Inputs.tree_e2) (Some Inputs.tree_e1) = true /\
  parser__select_tree ts_tree_compare_model
    (Some Inputs.tree_e2) (Some Inputs.tree_e3) = true /\
  parser__select_tree ts_tree_compare_model
    (Some Inputs.tree_e3) (Some Inputs.tree_e1) = true.
Proof.
  split; [|repeat split; reflexivity].
  intros Heq. apply (f_equal symbol) in Heq. discriminate Heq.
Qed.

(** ** The parse table: [add_action] *)

Section AddActionFacts.
Import ParseTable.

Context {Symbol : Type} `{Countable Symbol}.
Context {PrecedenceRange Associativity : Type}.

Local Abbreviation Action := (ParseAction (Symbol := Symbol) PrecedenceRange Associativity).
Local Abbreviation Table := (ParseTable.ParseTable (Symbol := Symbol) PrecedenceRange Associativity).

Lemma ParseAction_eqb_refl (a : Action) : ParseAction_eqb a a = true.
Proof.
  unfold ParseAction_eqb.
  rewrite !bool_decide_eq_true_2 by reflexivity.
  rewrite !Bool.eqb_reflx, !Z.eqb_refl. reflexivity.
Qed.

(** [find_existing] returns the first position that holds an equal action. *)
Lemma find_existing_Some (a : Action) (l : list Action) (k : nat) :
  find_existing a l = Some k ->
  exists e, l !! k = Some e /\ ParseAction_eqb e a = true /\
    forall j e', (j < k)%nat -> l !! j = Some e' -> ParseAction_eqb e' a = false.
Proof.
  revert k. induction l as [|x l IH]; intros k; cbn [find_existing]; [discriminate|].
  destruct (ParseAction_eqb x a) eqn:Hx.
  - intros [= <-]. exists x. repeat split; [exact Hx|]. intros j e' Hj. lia.
  - destruct (find_existing a l) as [k'|] eqn:Hf; cbn [option_map]; [|discriminate].
    intros [= <-]. destruct (IH k' eq_refl) as (e & Hl & He & Hfirst).
    exists e. repeat split; [exact Hl | exact He |].
    intros [|j] e' Hj; cbn [lookup list_lookup].
    + intros [= <-]. exact Hx.
    + apply Hfirst. lia.
Qed.

Lemma find_existing_None (a : Action) (l : list Action) :
  find_existing a l = None <-> forall e, In e l -> ParseAction_eqb e a = false.
Proof.
  induction l as [|x l IH]; cbn [find_existing In].
  - split; [tauto|reflexivity].
  - destruct (ParseAction_eqb x a) eqn:Hx.
    + split; [discriminate|]. intros Hall.
      rewrite (Hall x (or_introl eq_refl)) in Hx. discriminate.
    + destruct (find_existing a l) as [k|]; cbn [option_map].
      * split; [discriminate|]. intros Hall.
        assert (Some k = None) as Habs; [|discriminate].
        apply IH. intros e He. apply Hall. right. exact He.
      * split; [|reflexivity]. intros _ e [<- | He]; [exact Hx|].
        apply (proj1 IH eq_refl e He).
Qed.

Lemma find_existing_snoc (a : Action) (l : list Action) :
  find_existing a l = None ->
  find_existing a (l ++ [a]) = Some (length l).
Proof.
  induction l as [|x l IH]; cbn [find_existing app length].
  - intros _. rewrite ParseAction_eqb_refl. reflexivity.
  - destruct (ParseAction_eqb x a); [discriminate|].
    destruct (find_existing a l); cbn [option_map]; [discriminate|].
    intros _. rewrite (IH eq_refl). reflexivity.
Qed.

Lemma mark_symbol_idem (t : Table) (st : ParseState PrecedenceRange Associativity)
  (id : nat) (s : Symbol) (e : ParseTableEntry PrecedenceRange Associativity)
  (a : Action) :
  mark_symbol (set_entry t id st s e (mark_symbol t s a)) s a = mark_symbol t s a.
Proof.
  unfold mark_symbol, symbols_at, set_entry. cbn [symbols].
  destruct (extra a); rewrite lookup_insert_eq; cbn [default md_extra md_structural];
    rewrite insert_insert_eq; reflexivity.
Qed.

Lemma entry_at_insert (st : ParseState PrecedenceRange Associativity) (s : Symbol)
  (e : ParseTableEntry PrecedenceRange Associativity) :
  entry_at {| entries := <[s := e]> (entries st);
              lex_state_id := lex_state_id st |} s = e.
Proof. unfold entry_at. cbn [entries]. rewrite lookup_insert_eq. reflexivity. Qed.

Lemma actions_at_add_action (t t1 : Table) (id : nat) (s : Symbol) (a : Action) (k1 : nat) :
  add_action t id s a = Some (t1, k1) ->
  actions_at t1 id s =
    match find_existing a (actions_at t id s) with
    | Some _ => actions_at t id s
    | None => actions_at t id s ++ [a]
    end.
Proof.
  unfold add_action, actions_at.
  destruct (states t !! id) as [st|] eqn:Hst; [|discriminate].
  assert (Hlt : (id < length (states t))%nat) by (eapply lookup_lt_Some; eauto).
  destruct (find_existing a (actions (entry_at st s))) as [k|] eqn:Hf;
    intros [= <- <-]; unfold set_entry; cbn [states];
    rewrite list_lookup_insert_eq by exact Hlt;
    unfold entry_at; cbn [entries]; rewrite lookup_insert_eq; reflexivity.
Qed.

(** C10.  [add_action] is idempotent.  When it succeeds on a table:
    if an action equal (for [operator==]) to the given one is already in
    the action list of the entry, that list is left unchanged and the
    returned reference designates the first such existing action; and a
    second call with the same arguments returns the same reference and
    leaves the table as the first call made it. *)
Theorem add_action_idempotent (t t1 : Table) (id : nat) (s : Symbol)
  (a : Action) (k1 : nat) :
  add_action t id s a = Some (t1, k1) ->
  ((exists e, In e (actions_at t id s) /\ ParseAction_eqb e a = true) ->
     actions_at t1 id s = actions_at t id s /\
     exists e, actions_at t id s !! k1 = Some e /\ ParseAction_eqb e a = true) /\
  add_action t1 id s a = Some (t1, k1).
Proof.
  intros Hadd. split.
  - intros (e & Hin & He).
    rewrite (actions_at_add_action _ _ _ _ _ _ Hadd).
    revert Hadd. unfold add_action, actions_at in *.
    destruct (states t !! id) as [st|] eqn:Hst; [|discriminate].
    destruct (find_existing a (actions (entry_at st s))) as [k|] eqn:Hf.
    + intros [= <- <-]. split; [reflexivity|].
      destruct (find_existing_Some _ _ _ Hf) as (e' & Hl & He' & _). eauto.
    + rewrite (proj1 (find_existing_None _ _) Hf e Hin) in He. discriminate.
  - pose proof (actions_at_add_action _ _ _ _ _ _ Hadd) as Hacts.
    revert Hadd Hacts. unfold add_action, actions_at.
    destruct (states t !! id) as [st|] eqn:Hst; [|discriminate].
    assert (Hlt : (id < length (states t))%nat) by (eapply lookup_lt_Some; eauto).
    set (e := entry_at st s).
    intros Hadd.
    assert (exists e', t1 = set_entry t id st s e' (mark_symbol t s a) /\
              find_existing a (actions e') = Some k1) as (e' & -> & Hf').
    { destruct (find_existing a (actions e)) as [k|] eqn:Hf; injection Hadd as <- <-.
      - exists e. split; [reflexivity | exact Hf].
      - eexists. split; [reflexivity|]. cbn [actions].
        apply find_existing_snoc, Hf. }
    intros _. rewrite mark_symbol_idem.
    unfold set_entry at 1. cbn [states].
    rewrite list_lookup_insert_eq by exact Hlt.
    rewrite !entry_at_insert, Hf'.
    unfold set_entry. cbn [states entries lex_state_id error_state].
    rewrite list_insert_insert_eq, insert_insert_eq. reflexivity.
Qed.

End AddActionFacts.

Lemma add_action_idempotent_witness :
  exists t1 k1,
    ParseTable.add_action Inputs.one_state_table 0%nat 5 Inputs.accept_action
      = Some (t1, k1) /\
    ParseTable.add_action t1 0%nat 5 Inputs.accept_action = Some (t1, k1).
Proof.
  destruct (ParseTable.add_action Inputs.one_state_table 0%nat 5 Inputs.accept_action)
    as [[t1 k1]|] eqn:Hadd.
  - exists t1, k1. split; [reflexivity|].
    exact (proj2 (add_action_idempotent _ _ _ _ _ _ Hadd)).
  - discriminate Hadd.
Defined.

(** ** The lexer loop: [bytes_scanned] *)

Lemma bytes_scanned_set (n : Z) (st : TSStateId) (m : TSLexMode) (t : Tree) :
  bytes_scanned (set_first_leaf_lex_mode m (set_parse_state st (set_bytes_scanned n t))) = n.
Proof. destruct t; reflexivity. Qed.

Section LexFacts.
Context {env : LexEnv}.

(** The contract of the lexer that the loop relies on: a reset moves the
    lexer to the given position, starting a token does not move it, and
    neither a character step nor a recognizer moves it backwards. *)
Hypothesis reset_position :
  forall l p, current_position (ts_lexer_reset l p) = p.
Hypothesis start_position_kept :
  forall l, current_position (ts_lexer_start l) = current_position l.
Hypothesis advance_forward :
  forall l skip,
    bytes (current_position l) <= bytes (current_position (lexer_advance l skip)).
Hypothesis lex_fn_forward :
  forall l m,
    bytes (current_position l) <= bytes (current_position (snd (lex_fn l m))).
Hypothesis scan_forward :
  forall p l v,
    bytes (current_position l)
    <= bytes (current_position (snd (fst (external_scanner_scan p l v)))).

Lemma bump_last_byte_scanned_max (lexer : Lexer Input) (last : Z) :
  bump_last_byte_scanned lexer last = Z.max last (bytes (current_position lexer)).
Proof.
  unfold bump_last_byte_scanned.
  destruct (Z.gtb_spec (bytes (current_position lexer)) last); lia.
Qed.

Lemma covered_weaken start_position lexer lexer' last last' reached :
  covered start_position lexer last reached ->
  last <= last' ->
  Z.max last (bytes (current_position lexer))
    <= Z.max last' (bytes (current_position lexer')) ->
  covered start_position lexer' last' reached.
Proof.
  intros [Hs Hr] Hl Hm. split; [lia|].
  intros q Hq. specialize (Hr q Hq). lia.
Qed.

Lemma covered_cons start_position lexer last reached :
  covered start_position lexer last reached ->
  covered start_position lexer last (bytes (current_position lexer) :: reached).
Proof.
  intros [Hs Hr]. split; [exact Hs|].
  intros q [<- | Hq]; [lia | exact (Hr q Hq)].
Qed.

Lemma lex_skip_invariant start_position st lexer payload last reached e st' :
  covered start_position lexer last reached ->
  lex_skip st lexer payload last reached = (e, st') ->
  lex_invariant start_position st'.
Proof.
  intros Hc. unfold lex_skip, lex_invariant.
  destruct (if negb (ls_skipped_error st) then _ else _) as [[c es] ee].
  destruct (bytes (current_position lexer) =? bytes ee).
  - destruct (lookahead lexer =? 0); intros [= <- <-]; cbn.
    + exact Hc.
    + apply covered_cons.
      eapply covered_weaken; [exact Hc | lia |].
      pose proof (advance_forward lexer false). lia.
  - intros [= <- <-]; cbn. exact Hc.
Qed.

Lemma lex_internal_invariant start_position st lexer payload last reached e st' :
  covered start_position lexer last reached ->
  lex_internal start_position st lexer payload last reached = (e, st') ->
  lex_invariant start_position st'.
Proof.
  intros Hc. unfold lex_internal.
  pose proof (lex_fn_forward (ts_lexer_start lexer) (lex_state (ls_lex_mode st))) as Hf.
  rewrite start_position_kept in Hf.
  destruct (lex_fn (ts_lexer_start lexer) (lex_state (ls_lex_mode st))) as [ok lexer2].
  cbn [snd] in Hf.
  assert (Hc2 : covered start_position lexer2 last
                  (bytes (current_position lexer2) :: reached)).
  { apply covered_cons. eapply covered_weaken; [exact Hc | lia | lia]. }
  destruct ok.
  - intros [= <- <-]. exact Hc2.
  - destruct (negb (ls_error_mode st)).
    + intros [= <- <-]. unfold lex_invariant. cbn.
      rewrite bump_last_byte_scanned_max.
      destruct Hc2 as [Hs Hr]. split; [lia|].
      intros q Hq. specialize (Hr q Hq). rewrite reset_position. lia.
    + apply lex_skip_invariant. exact Hc2.
Qed.

Lemma lex_iteration_invariant start_position external_token st e st' :
  lex_invariant start_position st ->
  lex_iteration start_position external_token st = (e, st') ->
  lex_invariant start_position st'.
Proof.
  intros Hinv. unfold lex_iteration.
  destruct (ls_valid_external_tokens st) as [valid|];
    [|apply lex_internal_invariant; exact Hinv].
  pose proof (scan_forward
                (parser__restore_external_scanner (ls_payload st) external_token)
                (ts_lexer_start (ls_lexer st)) valid) as Hf.
  rewrite start_position_kept in Hf.
  destruct (external_scanner_scan _ _ valid) as [[ok lexer2] payload2].
  cbn [fst snd] in Hf.
  set (lexer3 := if ok && length_is_undefined (token_end_position lexer2)
                 then set_token_end_position (current_position lexer2) lexer2
                 else lexer2).
  assert (Hcp : current_position lexer3 = current_position lexer2).
  { unfold lexer3. destruct (ok && _); reflexivity. }
  assert (Hc3 : covered start_position lexer3 (ls_last_byte_scanned st)
                  (bytes (current_position lexer2) :: ls_reached st)).
  { rewrite <- Hcp. apply covered_cons.
    eapply covered_weaken; [exact Hinv | lia | rewrite Hcp; lia]. }
  destruct (ok && (negb (ls_error_mode st) || _)).
  - intros [= <- <-]. exact Hc3.
  - apply lex_internal_invariant.
    rewrite bump_last_byte_scanned_max.
    destruct Hc3 as [Hs Hr]. split; [lia|].
    intros q Hq. specialize (Hr q Hq). lia.
Qed.

Lemma lex_loop_invariant fuel start_position external_token st st' :
  lex_invariant start_position st ->
  lex_loop fuel start_position external_token st = Some st' ->
  lex_invariant start_position st'.
Proof.
  revert st. induction fuel as [|fuel IH]; intros st Hinv; cbn [lex_loop];
    [discriminate|].
  destruct (lex_iteration start_position external_token st) as [[|] st1] eqn:Hit.
  - intros [= <-]. eapply lex_iteration_invariant; eauto.
  - apply IH. eapply lex_iteration_invariant; eauto.
Qed.

(** Where the count does not wrap.  For every token that [parser__lex]
    produces, [bytes_scanned] is [last_byte_scanned - start.bytes + 1]
    as a [uint32_t], where [last_byte_scanned] is at least [start.bytes] and
    at least the position reached by every attempt of the loop (external
    scan, internal lexer, retry in error mode, skipped character); hence
    [bytes_scanned >= 1] as long as the span
    [last_byte_scanned - start.bytes] is below [UINT_MAX]. *)
Theorem lex_bytes_scanned fuel lexer payload start_position external_token
  parse_state_ o :
  parser__lex_run fuel lexer payload start_position external_token parse_state_
    = Some o ->
  bytes_scanned (lo_result o)
    = u32 (lo_last_byte_scanned o - bytes start_position + 1) /\
  bytes start_position <= lo_last_byte_scanned o /\
  (forall q, In q (lo_reached o) -> q <= lo_last_byte_scanned o) /\
  (lo_last_byte_scanned o - bytes start_position < UINT_MAX ->
   1 <= bytes_scanned (lo_result o)).
Proof.
  unfold parser__lex_run.
  destruct (lex_loop fuel start_position external_token _) as [st|] eqn:Hloop;
    [|discriminate].
  apply lex_loop_invariant in Hloop.
  2:{ unfold lex_invariant, covered. cbn. split; [lia|]. intros q []. }
  destruct (lex_result start_position parse_state_ st) as [[result lexer'] payload'].
  intros [= <-]. cbn [lo_result lo_last_byte_scanned lo_reached].
  rewrite bytes_scanned_set, bump_last_byte_scanned_max.
  destruct Hloop as [Hs Hr].
  repeat split; [lia | exact Hr |].
  intros Hspan. rewrite u32_small; [lia|]. unfold is_u32. lia.
Qed.

End LexFacts.

(** The lexer of [Inputs] honours the contract, whatever the length of
    its input. *)
Lemma toy_reset_position n (l : Lexer unit) p :
  current_position (ts_lexer_reset (LexEnv := Inputs.toy_env n) l p) = p.
Proof. reflexivity. Qed.

Lemma toy_start_position_kept n (l : Lexer unit) :
  current_position (ts_lexer_start (LexEnv := Inputs.toy_env n) l)
  = current_position l.
Proof. reflexivity. Qed.

Lemma toy_advance_forward n (l : Lexer unit) skip :
  bytes (current_position l)
  <= bytes (current_position (lexer_advance (LexEnv := Inputs.toy_env n) l skip)).
Proof.
  cbn [lexer_advance Inputs.toy_env]. unfold Inputs.toy_advance.
  destruct (bytes (current_position l) <? n); cbn; lia.
Qed.

Lemma toy_lex_fn_forward n (l : Lexer unit) m :
  bytes (current_position l)
  <= bytes (current_position (snd (lex_fn (LexEnv := Inputs.toy_env n) l m))).
Proof.
  cbn [lex_fn Inputs.toy_env]. unfold Inputs.toy_lex_fn.
  destruct (Z.ltb_spec (bytes (current_position l)) n); cbn; lia.
Qed.

Lemma toy_scan_forward n (p : unit) (l : Lexer unit) (v : unit) :
  bytes (current_position l)
  <= bytes (current_position
              (snd (fst (external_scanner_scan (LexEnv := Inputs.toy_env n) p l v)))).
Proof. cbn. lia. Qed.

Lemma lex_bytes_scanned_witness :
  exists o,
    parser__lex_run (env := Inputs.toy_env 3) 1 Inputs.toy_lexer tt
      length_zero None 1 = Some o /\
    bytes_scanned (lo_result o) = 4 /\
    1 <= bytes_scanned (lo_result o).
Proof.
  eexists. split; [reflexivity|]. split; [reflexivity|].
  refine (proj2 (proj2 (proj2
    (lex_bytes_scanned (env := Inputs.toy_env 3)
       (toy_reset_position 3) (toy_start_position_kept 3)
       (toy_advance_forward 3) (toy_lex_fn_forward 3) (toy_scan_forward 3)
       1%nat Inputs.toy_lexer tt length_zero None 1 _ eq_refl))) _).
  vm_compute. reflexivity.
Defined.

(** C7.  Where the count wraps, the code departs from the specified
    value.  On an
    input of [2^32 - 1] bytes that is a single token, lexed from
    position 0, the lexer reaches byte [4294967295], so that
    [last_byte_scanned - start.bytes + 1] is [2^32]; line 367 stores it
    in a [uint32_t], and the token gets [bytes_scanned = 0]: less than
    1, and less than the [4294967295] bytes of the token itself. *)
Lemma lex_bytes_scanned_wraps :
  exists o,
    parser__lex_run (env := Inputs.toy_env 4294967295) 1 Inputs.toy_lexer tt
      length_zero None 1 = Some o /\
    lo_last_byte_scanned o = 4294967295 /\
    lo_last_byte_scanned o - bytes length_zero + 1 = 4294967296 /\
    bytes_scanned (lo_result o) = 0 /\
    bytes (size (lo_result o)) = 4294967295.
Proof.
  eexists. split; [reflexivity|]. repeat split.
Qed.

(** ** Condensing the stack *)

Lemma u32_pred_succ (j : Z) : is_u32 j -> u32 (u32 (j - 1) + 1) = j.
Proof.
  unfold is_u32, UINT_MAX, u32. intros Hj.
  destruct (Z.eq_dec j 0) as [-> | Hne]; [reflexivity|].
  rewrite (Z.mod_small (j - 1)) by lia.
  replace (j - 1 + 1) with j by lia. apply Z.mod_small. lia.
Qed.

Lemma delete_app_lt {A} (l1 l2 : list A) (i : nat) :
  (i < length l1)%nat -> delete i (l1 ++ l2) = delete i l1 ++ l2.
Proof.
  revert i. induction l1 as [|x l1 IH]; intros i Hi; cbn [length] in Hi; [lia|].
  destruct i as [|i]; [reflexivity|].
  cbn. f_equal. apply IH. lia.
Qed.

Section StackFrame.
Context {senv : StackEnv}.
Variable E : Z.

(** A version inside [l] is the same in [l ++ suf]. *)
Lemma ts_stack_head_app (l suf : Stack) (v : StackVersion) :
  0 <= v < ts_stack_version_count l ->
  ts_stack_head (l ++ suf) v = ts_stack_head l v.
Proof.
  unfold ts_stack_head, ts_stack_version_count. intros Hv.
  rewrite lookup_app_l by lia. reflexivity.
Qed.

Lemma ts_stack_head_lookup (s : Stack) (v : StackVersion) (h : StackHead) :
  0 <= v -> s !! Z.to_nat v = Some h -> ts_stack_head s v = h.
Proof.
  unfold ts_stack_head. intros Hv Hl.
  destruct (Z.ltb_spec v 0); [lia|]. rewrite Hl. reflexivity.
Qed.

Lemma version_status_app (l suf : Stack) (v : StackVersion) :
  0 <= v < ts_stack_version_count l ->
  version_status E (l ++ suf) v = version_status E l v.
Proof.
  intros Hv. unfold version_status, ErrorCosts.parser__version_status,
    ts_stack_error_cost, ts_stack_is_paused, ts_stack_node_count_since_error,
    ts_stack_dynamic_precedence, ts_stack_state.
  rewrite (ts_stack_head_app l suf v Hv). reflexivity.
Qed.

Lemma ts_stack_remove_version_app (l suf : Stack) (v : StackVersion) :
  0 <= v < ts_stack_version_count l ->
  ts_stack_remove_version (l ++ suf) v = ts_stack_remove_version l v ++ suf.
Proof.
  unfold ts_stack_remove_version, ts_stack_version_count. intros Hv.
  apply delete_app_lt. lia.
Qed.

Lemma ts_stack_merge_app (l suf : Stack) (v1 v2 : StackVersion) :
  0 <= v1 < ts_stack_version_count l ->
  0 <= v2 < ts_stack_version_count l ->
  ts_stack_merge (l ++ suf) v1 v2 =
  (fst (ts_stack_merge l v1 v2), snd (ts_stack_merge l v1 v2) ++ suf).
Proof.
  intros H1 H2. unfold ts_stack_merge, ts_stack_can_merge.
  rewrite !(ts_stack_head_app l suf) by assumption.
  destruct (_ && _); cbn [fst snd]; [|reflexivity].
  f_equal. unfold ts_stack_version_count in *.
  rewrite insert_app_l by lia.
  apply ts_stack_remove_version_app.
  unfold ts_stack_version_count. rewrite length_insert. lia.
Qed.

Lemma ts_stack_swap_versions_app (l suf : Stack) (v1 v2 : StackVersion) :
  0 <= v1 < ts_stack_version_count l ->
  0 <= v2 < ts_stack_version_count l ->
  ts_stack_swap_versions (l ++ suf) v1 v2 = ts_stack_swap_versions l v1 v2 ++ suf.
Proof.
  intros H1 H2. unfold ts_stack_swap_versions.
  rewrite !(ts_stack_head_app l suf) by assumption.
  unfold ts_stack_version_count in *.
  rewrite insert_app_l by lia.
  rewrite insert_app_l by (rewrite length_insert; lia). reflexivity.
Qed.

Lemma condense_pair_app (l suf : Stack) (i j : StackVersion) status_i made :
  0 <= j < i -> i < ts_stack_version_count l ->
  condense_pair E (l ++ suf) i j status_i made =
  let '(l', i', j', made') := condense_pair E l i j status_i made in
  (l' ++ suf, i', j', made').
Proof.
  intros Hj Hi. unfold condense_pair.
  rewrite version_status_app by lia.
  rewrite !ts_stack_remove_version_app by lia.
  rewrite ts_stack_merge_app by lia.
  destruct (ErrorCosts.parser__compare_versions E _ status_i); try reflexivity.
  - destruct (ts_stack_merge l j i) as [[|] l']; reflexivity.
  - destruct (ts_stack_merge l j i) as [[|] l']; reflexivity.
  - destruct (ts_stack_merge l j i) as [[|] l'] eqn:Hm; cbn [fst snd]; [reflexivity|].
    rewrite ts_stack_swap_versions_app; [reflexivity| |].
    all: unfold ts_stack_merge in Hm; destruct (ts_stack_can_merge l j i);
      [discriminate | injection Hm as <-; lia].
Qed.

End StackFrame.

Section CondenseFacts.
Context {senv : StackEnv}.
Variable E : Z.

Lemma ts_stack_head_In (l : Stack) (v : StackVersion) :
  0 <= v < ts_stack_version_count l -> ts_stack_head l v ∈ l.
Proof.
  unfold ts_stack_version_count. intros Hv.
  destruct (lookup_lt_is_Some_2 l (Z.to_nat v)) as [h Hh]; [lia|].
  rewrite (ts_stack_head_lookup l v h) by (lia || assumption).
  apply list_elem_of_lookup. eauto.
Qed.

Lemma ts_stack_remove_version_count (l : Stack) (v : StackVersion) :
  0 <= v < ts_stack_version_count l ->
  ts_stack_version_count (ts_stack_remove_version l v)
  = ts_stack_version_count l - 1.
Proof.
  unfold ts_stack_version_count, ts_stack_remove_version. intros Hv.
  rewrite length_delete by (apply lookup_lt_is_Some_2; lia). lia.
Qed.

Lemma ts_stack_merge_shape (l l' : Stack) (v1 v2 : StackVersion) (b : bool) :
  0 <= v1 < ts_stack_version_count l ->
  0 <= v2 < ts_stack_version_count l ->
  ts_stack_merge l v1 v2 = (b, l') ->
  ts_stack_version_count l'
    = (if b then ts_stack_version_count l - 1 else ts_stack_version_count l) /\
  (Forall not_halted l -> Forall not_halted l').
Proof.
  intros H1 H2. unfold ts_stack_merge.
  destruct (ts_stack_can_merge l v1 v2); intros [= <- <-]; [|auto].
  split.
  - rewrite ts_stack_remove_version_count;
      unfold ts_stack_version_count in *; rewrite length_insert; lia.
  - intros Hall. apply Forall_delete, Forall_insert; [exact Hall|].
    pose proof (ts_stack_head_In l v1 H1) as Hin.
    rewrite Forall_forall in Hall. apply Hall in Hin. exact Hin.
Qed.

Lemma ts_stack_swap_versions_shape (l : Stack) (v1 v2 : StackVersion) :
  0 <= v1 < ts_stack_version_count l ->
  0 <= v2 < ts_stack_version_count l ->
  ts_stack_version_count (ts_stack_swap_versions l v1 v2)
    = ts_stack_version_count l /\
  (Forall not_halted l -> Forall not_halted (ts_stack_swap_versions l v1 v2)).
Proof.
  intros H1 H2. unfold ts_stack_swap_versions. split.
  - unfold ts_stack_version_count. rewrite !length_insert. reflexivity.
  - intros Hall.
    assert (forall v, 0 <= v < ts_stack_version_count l ->
              not_halted (ts_stack_head l v)) as Hh.
    { intros v Hv. rewrite Forall_forall in Hall.
      apply Hall, ts_stack_head_In, Hv. }
    apply Forall_insert; [apply Forall_insert|]; auto.
Qed.

(** One pass through the body of the inner loop, followed by [j++]:
    the versions up to [i] stay the versions up to the new [i], and the
    distance from [j] to [i] shrinks. *)
Lemma condense_pair_shape (l l' : Stack) (i j i' j' : StackVersion) status_i
  (made made' : bool) :
  0 <= j < i -> ts_stack_version_count l = i + 1 ->
  ts_stack_version_count l <= UINT_MAX ->
  condense_pair E l i j status_i made = (l', i', j', made') ->
  ts_stack_version_count l' = i' + 1 /\ 0 <= i' <= i /\
  0 <= u32 (j' + 1) /\ i' - u32 (j' + 1) < i - j /\
  (Forall not_halted l -> Forall not_halted l').
Proof.
  intros Hj Hi Hmax. unfold condense_pair.
  assert (Hpred : u32 (i - 1) = i - 1)
    by (apply u32_small; unfold is_u32; lia).
  assert (Hsucc : u32 (i - 1 + 1) = i)
    by (replace (i - 1 + 1) with i by lia; apply u32_small; unfold is_u32; lia).
  assert (Hjs : u32 (j + 1) = j + 1)
    by (apply u32_small; unfold is_u32; lia).
  assert (Hjp : u32 (u32 (j - 1) + 1) = j)
    by (apply u32_pred_succ; unfold is_u32; lia).
  destruct (ErrorCosts.parser__compare_versions E _ status_i).
  - intros [= <- <- <- <-]. rewrite Hpred, Hsucc.
    rewrite ts_stack_remove_version_count by lia.
    repeat split; try lia. apply Forall_delete.
  - destruct (ts_stack_merge l j i) as [[|] l1] eqn:Hm;
      destruct (ts_stack_merge_shape l l1 j i _ ltac:(lia) ltac:(lia) Hm)
        as [Hc Hf];
      intros [= <- <- <- <-]; rewrite ?Hpred, ?Hsucc, ?Hjs;
      repeat split; try lia; exact Hf.
  - destruct (ts_stack_merge l j i) as [[|] l1] eqn:Hm;
      destruct (ts_stack_merge_shape l l1 j i _ ltac:(lia) ltac:(lia) Hm)
        as [Hc Hf];
      intros [= <- <- <- <-]; rewrite ?Hpred, ?Hsucc, ?Hjs;
      repeat split; try lia; exact Hf.
  - destruct (ts_stack_merge l j i) as [[|] l1] eqn:Hm;
      destruct (ts_stack_merge_shape l l1 j i _ ltac:(lia) ltac:(lia) Hm)
        as [Hc Hf];
      intros [= <- <- <- <-]; rewrite ?Hpred, ?Hsucc, ?Hjs.
    + repeat split; try lia; exact Hf.
    + destruct (ts_stack_swap_versions_shape l1 i j ltac:(lia) ltac:(lia))
        as [Hc' Hf'].
      repeat split; try lia. intros Hall. apply Hf', Hf, Hall.
  - intros [= <- <- <- <-]. rewrite Hpred, Hjp.
    rewrite ts_stack_remove_version_count by lia.
    repeat split; try lia. apply Forall_delete.
Qed.

(** The inner loop ends, whatever the comparisons answer. *)
Lemma condense_inner_total (fuel : nat) :
  forall (l : Stack) (i j : StackVersion) status_i made,
    0 <= j -> 0 <= i -> ts_stack_version_count l = i + 1 ->
    ts_stack_version_count l <= UINT_MAX ->
    i - j <= Z.of_nat fuel ->
    exists l' i' made',
      condense_inner E fuel l i j status_i made = Some (l', i', made') /\
      ts_stack_version_count l' = i' + 1 /\ 0 <= i' /\
      ts_stack_version_count l' <= ts_stack_version_count l /\
      (Forall not_halted l -> Forall not_halted l').
Proof.
  induction fuel as [|fuel IH]; intros l i j status_i made Hj Hi Hc Hmax Hfuel.
  - cbn [condense_inner]. destruct (Z.ltb_spec j i); [lia|].
    exists l, i, made. repeat split; auto; lia.
  - cbn [condense_inner]. destruct (Z.ltb_spec j i) as [Hlt | Hge].
    2:{ exists l, i, made. repeat split; auto; lia. }
    destruct (condense_pair E l i j status_i made) as [[[l1 i1] j1] made1] eqn:Hp.
    destruct (condense_pair_shape _ _ _ _ _ _ _ _ _ (conj Hj Hlt) Hc Hmax Hp)
      as (Hc1 & Hi1 & Hj1 & Hm1 & Hf1).
    destruct (IH l1 i1 (u32 (j1 + 1)) status_i made1 Hj1 ltac:(lia) Hc1
                ltac:(lia) ltac:(lia))
      as (l' & i' & made' & Hr & Hc' & Hi' & Hle' & Hf').
    exists l', i', made'. repeat split; auto; lia.
Qed.

(** The inner loop does not look at the versions after [i]. *)
Lemma condense_inner_app (fuel : nat) :
  forall (l suf : Stack) (i j : StackVersion) status_i made,
    0 <= j -> 0 <= i -> ts_stack_version_count l = i + 1 ->
    ts_stack_version_count l <= UINT_MAX ->
    condense_inner E fuel (l ++ suf) i j status_i made =
    match condense_inner E fuel l i j status_i made with
    | Some (l', i', made') => Some (l' ++ suf, i', made')
    | None => None
    end.
Proof.
  induction fuel as [|fuel IH]; intros l suf i j status_i made Hj Hi Hc Hmax;
    cbn [condense_inner]; destruct (Z.ltb_spec j i) as [Hlt | Hge]; try reflexivity.
  rewrite condense_pair_app by lia.
  destruct (condense_pair E l i j status_i made) as [[[l1 i1] j1] made1] eqn:Hp.
  destruct (condense_pair_shape _ _ _ _ _ _ _ _ _ (conj Hj Hlt) Hc Hmax Hp)
    as (Hc1 & Hi1 & Hj1 & Hm1 & Hf1).
  apply IH; lia.
Qed.

Lemma ts_stack_head_middle (pre suf : Stack) (h : StackHead) :
  ts_stack_head (pre ++ h :: suf) (ts_stack_version_count pre) = h.
Proof.
  unfold ts_stack_version_count. apply ts_stack_head_lookup; [lia|].
  rewrite Nat2Z.id. apply list_lookup_middle. reflexivity.
Qed.

Lemma ts_stack_remove_version_middle (pre suf : Stack) (h : StackHead) :
  ts_stack_remove_version (pre ++ h :: suf) (ts_stack_version_count pre)
  = pre ++ suf.
Proof.
  unfold ts_stack_remove_version, ts_stack_version_count.
  rewrite Nat2Z.id. apply delete_middle.
Qed.

Lemma version_count_app (l1 l2 : Stack) :
  ts_stack_version_count (l1 ++ l2)
  = ts_stack_version_count l1 + ts_stack_version_count l2.
Proof. unfold ts_stack_version_count. rewrite length_app. lia. Qed.

Lemma remove_halted_cons (h : StackHead) (l : Stack) :
  remove_halted (h :: l) =
  if head_is_halted h then remove_halted l else h :: remove_halted l.
Proof.
  unfold remove_halted. rewrite filter_cons.
  destruct (head_is_halted h); case_decide; congruence.
Qed.

(** The scan of the code on [pre ++ suf], about to look at the first
    version of [suf], and the scan of the pairs on [pre] followed by the
    versions of [suf] that are not halted, end with the same result. *)
Lemma condense_outer_agree (suf : Stack) :
  forall (pre : Stack) (made : bool) (min_error_cost : Z) (fuel fuel2 : nat),
    ts_stack_version_count (pre ++ suf) <= UINT_MAX ->
    (length suf <= fuel)%nat ->
    (length (remove_halted suf) <= fuel2)%nat ->
    Forall not_halted pre ->
    exists r,
      condense_outer E fuel (pre ++ suf) (ts_stack_version_count pre)
        made min_error_cost = Some r /\
      pairs_outer E fuel2 (pre ++ remove_halted suf) (ts_stack_version_count pre)
        made min_error_cost = Some r /\
      Forall not_halted (fst (fst r)).
Proof.
  induction suf as [|h suf IH]; intros pre made min_error_cost fuel fuel2
    Hmax Hfuel Hfuel2 Hpre.
  - exists (pre, made, min_error_cost). cbn [remove_halted filter list_filter].
    rewrite app_nil_r.
    assert (Hend : (ts_stack_version_count pre <? ts_stack_version_count pre) = false)
      by apply Z.ltb_irrefl.
    repeat split; [| |exact Hpre].
    + destruct fuel; cbn [condense_outer]; rewrite Hend; reflexivity.
    + destruct fuel2; cbn [pairs_outer]; rewrite Hend; reflexivity.
  - destruct fuel as [|fuel]; [cbn [length] in Hfuel; lia|].
    cbn [condense_outer].
    assert (Hlt : (ts_stack_version_count pre
                   <? ts_stack_version_count (pre ++ h :: suf)) = true).
    { apply Z.ltb_lt. rewrite version_count_app.
      unfold ts_stack_version_count. cbn [length]. lia. }
    rewrite Hlt.
    unfold ts_stack_is_halted at 1. rewrite ts_stack_head_middle.
    fold (head_is_halted h). rewrite remove_halted_cons.
    rewrite remove_halted_cons in Hfuel2.
    rewrite version_count_app in Hmax.
    assert (Hsufpos : 0 <= ts_stack_version_count suf)
      by (unfold ts_stack_version_count; lia).
    assert (Hpos : 0 <= ts_stack_version_count pre)
      by (unfold ts_stack_version_count; lia).
    assert (Hsuf : ts_stack_version_count (h :: suf)
                   = 1 + ts_stack_version_count suf)
      by (unfold ts_stack_version_count; cbn [length]; lia).
    destruct (head_is_halted h) eqn:Hh.
    + (* the halted version is removed and the same index is looked at again *)
      rewrite ts_stack_remove_version_middle.
      rewrite u32_pred_succ by (unfold is_u32; lia).
      apply IH; [rewrite version_count_app; lia | cbn [length] in Hfuel; lia
                | exact Hfuel2 | exact Hpre].
    + (* the version is compared with those before it *)
      destruct fuel2 as [|fuel2]; [cbn [length] in Hfuel2; lia|].
      cbn [pairs_outer].
      assert (Hlt2 : (ts_stack_version_count pre
                      <? ts_stack_version_count (pre ++ h :: remove_halted suf))
                     = true).
      { apply Z.ltb_lt. rewrite version_count_app.
        unfold ts_stack_version_count. cbn [length]. lia. }
      rewrite Hlt2.
      assert (Hi1 : ts_stack_version_count (pre ++ [h])
                    = ts_stack_version_count pre + 1).
      { rewrite version_count_app. unfold ts_stack_version_count. cbn [length]. lia. }
      set (i := ts_stack_version_count pre) in *.
      replace (pre ++ h :: suf) with ((pre ++ [h]) ++ suf)
        by (rewrite <- app_assoc; reflexivity).
      replace (pre ++ h :: remove_halted suf) with ((pre ++ [h]) ++ remove_halted suf)
        by (rewrite <- app_assoc; reflexivity).
      rewrite !(version_status_app E (pre ++ [h])) by lia.
      set (status_i := version_status E (pre ++ [h]) i).
      rewrite !(condense_inner_app (S (Z.to_nat i)) (pre ++ [h])) by lia.
      destruct (condense_inner_total (S (Z.to_nat i)) (pre ++ [h]) i 0 status_i made
                  ltac:(lia) Hpos Hi1 ltac:(lia) ltac:(lia))
        as (l' & i' & made' & Hin & Hc' & Hi' & Hle & Hf).
      rewrite Hin.
      assert (Hnext : u32 (i' + 1) = ts_stack_version_count l').
      { rewrite Hc'. apply u32_small. unfold is_u32. lia. }
      rewrite Hnext.
      apply IH.
      * rewrite version_count_app. lia.
      * cbn [length] in Hfuel. lia.
      * cbn [length] in Hfuel2. lia.
      * apply Hf, Forall_app. split; [exact Hpre|].
        apply Forall_cons. split; [exact Hh | apply Forall_nil_2].
Qed.

End CondenseFacts.

Section CondenseScan.
Context {senv : StackEnv}.
Variable E : Z.

(** Once the scan for [i] is reset ([i--; j = i]), the increment of [j]
    ends the inner loop: the outer loop resumes at the index after
    [i - 1], where the version that followed [i] now stands. *)
Lemma condense_inner_reset (fuel : nat) (s : Stack) (i : StackVersion) status_i made :
  1 <= i <= UINT_MAX ->
  condense_inner E fuel s (i - 1) (u32 (i - 1 + 1)) status_i made
  = Some (s, i - 1, made).
Proof.
  intros Hi. replace (i - 1 + 1) with i by lia.
  rewrite u32_small by (unfold is_u32; lia).
  destruct fuel; cbn [condense_inner]; destruct (Z.ltb_spec i (i - 1)); (lia || reflexivity).
Qed.

Lemma ts_stack_merge_failed (s s' : Stack) (v1 v2 : StackVersion) :
  ts_stack_merge s v1 v2 = (false, s') -> s' = s.
Proof.
  unfold ts_stack_merge. destruct (ts_stack_can_merge s v1 v2); congruence.
Qed.

(** The inner loop of the code and the pairs of the table, with the
    status of [i] kept: the loop leaves [i] one below the index at which
    the scan of the versions goes on. *)
Lemma condense_inner_by_table (fuel : nat) :
  forall (s : Stack) (i j : StackVersion) status_i made,
    0 <= j -> 0 <= i < UINT_MAX ->
    table_pairs E fuel (fun _ _ => status_i) s i j made =
    match condense_inner E fuel s i j status_i made with
    | Some (s', i', made') => Some (s', u32 (i' + 1), made')
    | None => None
    end.
Proof.
  induction fuel as [|fuel IH]; intros s i j status_i made Hj Hi;
    cbn [table_pairs condense_inner]; destruct (Z.ltb_spec j i) as [Hlt | Hge];
    try reflexivity;
    try (rewrite (u32_small (i + 1)) by (unfold is_u32; lia); reflexivity).
  assert (Hpred : u32 (i - 1) = i - 1)
    by (apply u32_small; unfold is_u32; lia).
  assert (Hjs : u32 (j + 1) = j + 1)
    by (apply u32_small; unfold is_u32; lia).
  assert (Hjp : u32 (u32 (j - 1) + 1) = j)
    by (apply u32_pred_succ; unfold is_u32; lia).
  assert (Hreset : forall s' made',
            match condense_inner E fuel s' (i - 1) (u32 (i - 1 + 1)) status_i made' with
            | Some (s'', i', made'') => Some (s'', u32 (i' + 1), made'')
            | None => None
            end = Some (s', i, made')).
  { intros s' made'. rewrite condense_inner_reset by lia.
    replace (i - 1 + 1) with i by lia.
    rewrite u32_small by (unfold is_u32; lia). reflexivity. }
  unfold condense_pair.
  destruct (ErrorCosts.parser__compare_versions E (version_status E s j) status_i);
    cbn [condense_action].
  - rewrite Hpred, Hreset. reflexivity.
  - destruct (ts_stack_merge s j i) as [[|] s'] eqn:Hm; cbn [fst snd].
    + rewrite Hpred, Hreset. reflexivity.
    + apply ts_stack_merge_failed in Hm as ->. rewrite Hjs. apply IH; lia.
  - destruct (ts_stack_merge s j i) as [[|] s'] eqn:Hm; cbn [fst snd].
    + rewrite Hpred, Hreset. reflexivity.
    + apply ts_stack_merge_failed in Hm as ->. rewrite Hjs. apply IH; lia.
  - destruct (ts_stack_merge s j i) as [[|] s'] eqn:Hm; cbn [fst snd].
    + rewrite Hpred, Hreset. reflexivity.
    + apply ts_stack_merge_failed in Hm as ->. rewrite Hjs. apply IH; lia.
  - rewrite Hpred, Hjp. apply IH; lia.
Qed.

(** The scan of the code on a stack without halted versions and the
    scan of the table with the status of [i] kept give the same result. *)
Lemma pairs_outer_by_table (fuel : nat) :
  forall (pre suf : Stack) (made : bool) (min_error_cost : Z),
    ts_stack_version_count (pre ++ suf) <= UINT_MAX ->
    pairs_outer E fuel (pre ++ suf) (ts_stack_version_count pre) made min_error_cost
    = table_versions E fuel StatusKept (pre ++ suf) (ts_stack_version_count pre)
        made min_error_cost.
Proof.
  induction fuel as [|fuel IH]; intros pre suf made min_error_cost Hmax;
    cbn [pairs_outer table_versions];
    destruct (Z.ltb_spec (ts_stack_version_count pre)
                (ts_stack_version_count (pre ++ suf))) as [Hlt | Hge];
    try reflexivity.
  assert (Hpos : 0 <= ts_stack_version_count pre)
    by (unfold ts_stack_version_count; lia).
  destruct suf as [|h suf]; [rewrite app_nil_r in Hlt; lia|].
  assert (Hi1 : ts_stack_version_count (pre ++ [h])
                = ts_stack_version_count pre + 1).
  { rewrite version_count_app. unfold ts_stack_version_count. cbn [length]. lia. }
  set (i := ts_stack_version_count pre) in *.
  set (status_i := version_status E (pre ++ h :: suf) i).
  rewrite (condense_inner_by_table (S (Z.to_nat i)) (pre ++ h :: suf) i 0
             status_i made) by lia.
  assert (Hsplit : pre ++ h :: suf = (pre ++ [h]) ++ suf)
    by (rewrite <- app_assoc; reflexivity).
  rewrite Hsplit in Hmax |- *. rewrite version_count_app in Hmax.
  assert (Hsufpos : 0 <= ts_stack_version_count suf)
    by (unfold ts_stack_version_count; lia).
  rewrite (condense_inner_app E (S (Z.to_nat i)) (pre ++ [h])) by lia.
  destruct (condense_inner_total E (S (Z.to_nat i)) (pre ++ [h]) i 0 status_i made
              ltac:(lia) Hpos Hi1 ltac:(lia) ltac:(lia))
    as (l' & i' & made' & Hin & Hc' & Hi' & Hle & _).
  rewrite Hin.
  assert (Hnext : u32 (i' + 1) = ts_stack_version_count l').
  { rewrite Hc'. apply u32_small. unfold is_u32. lia. }
  rewrite Hnext. apply IH. rewrite version_count_app. lia.
Qed.

(** C3, as amended.  The scan of [parser__condense_stack] over a stack
    of fewer than [2^32] versions ends, and its result is the one that
    section 4.7 describes, with the status on the right of each
    comparison kept from the beginning of the scan of [i]: every halted
    version is removed; then, version after version, each pair [(j, i)]
    with [j < i] is compared and on [TakeLeft] version [i] is removed,
    on [PreferLeft] and [None] the merge of [i] into [j] is attempted
    and, if it succeeds, the scan for [i] starts again, on
    [PreferRight] the merge is attempted and, if it fails, the versions
    [i] and [j] are swapped, on [TakeRight] version [j] is removed.  No
    halted version is left. *)
Theorem condense_scan_by_table (s : Stack) :
  ts_stack_version_count s <= UINT_MAX ->
  exists r,
    condense_stack_scan E s = Some r /\
    condense_by_table E StatusKept s = Some r /\
    Forall not_halted (fst (fst r)).
Proof.
  intros Hmax. unfold condense_stack_scan, condense_by_table.
  destruct (condense_outer_agree E s [] false UINT_MAX
              (S (length s)) (S (length (remove_halted s))))
    as (r & H1 & H2 & H3); try (cbn [app]; lia || constructor).
  exists r. cbn [app] in H1, H2.
  assert (Hlen : ts_stack_version_count (remove_halted s) <= UINT_MAX).
  { pose proof (length_filter (fun h : StackHead => head_is_halted h = false) s).
    unfold ts_stack_version_count, remove_halted in *. lia. }
  pose proof (pairs_outer_by_table (S (length (remove_halted s))) []
                (remove_halted s) false UINT_MAX Hlen) as Hby.
  cbn [app] in Hby.
  change (ts_stack_version_count []) with 0 in H1, H2, Hby.
  cbv zeta. rewrite <- Hby. auto.
Qed.

End CondenseScan.

Lemma condense_scan_by_table_witness :
  ts_stack_version_count Inputs.costly_versions <= UINT_MAX /\
  exists r,
    condense_stack_scan (senv := Inputs.toy_stack_env) 100 Inputs.costly_versions
      = Some r /\
    condense_by_table (senv := Inputs.toy_stack_env) 100 StatusKept
      Inputs.costly_versions = Some r /\
    Forall not_halted (fst (fst r)).
Proof.
  assert (Hmax : ts_stack_version_count Inputs.costly_versions <= UINT_MAX)
    by (vm_compute; discriminate).
  split; [exact Hmax|].
  exact (condense_scan_by_table (senv := Inputs.toy_stack_env) 100
           Inputs.costly_versions Hmax).
Defined.

(** C3, counterexample.  Three versions of error cost 500, 1000 and 0
    that cannot be merged.  The third is swapped with the first
    ([PreferRight]).  The pair [(1, 2)] is then the version of cost
    1000 and the one of cost 500: compared with each other they give
    [PreferRight], a second swap, and all three versions are kept.  The
    code compares the version of cost 1000 with the status it kept,
    that of the version of cost 0 which is now at index 0, gets
    [TakeRight] and removes the version of cost 1000. *)
Lemma condense_scan_keeps_status :
  condense_stack_scan (senv := Inputs.toy_stack_env) 100 Inputs.costly_versions
  = Some ([Inputs.costly_version 4 0; Inputs.costly_version 2 500], true, 0) /\
  condense_by_table (senv := Inputs.toy_stack_env) 100 StatusOfVersion
    Inputs.costly_versions
  = Some ([Inputs.costly_version 4 0; Inputs.costly_version 2 500;
           Inputs.costly_version 3 1000], true, 0) /\
  ErrorCosts.parser__compare_versions 100
    (version_status (senv := Inputs.toy_stack_env) 100 Inputs.costly_versions 0)
    (version_status (senv := Inputs.toy_stack_env) 100 Inputs.costly_versions 2)
  = ErrorCosts.ErrorComparisonPreferRight /\
  ErrorCosts.parser__compare_versions 100
    (version_status (senv := Inputs.toy_stack_env) 100 Inputs.costly_versions 1)
    (version_status (senv := Inputs.toy_stack_env) 100 Inputs.costly_versions 0)
  = ErrorCosts.ErrorComparisonPreferRight /\
  ErrorCosts.parser__compare_versions 100
    (version_status (senv := Inputs.toy_stack_env) 100 Inputs.costly_versions 1)
    (version_status (senv := Inputs.toy_stack_env) 100 Inputs.costly_versions 2)
  = ErrorCosts.ErrorComparisonTakeRight.
Proof. repeat split; vm_compute; reflexivity. Qed.

(** On the three versions of [Inputs] the halted one is dropped and the
    other two, which cannot be merged, are both kept. *)
Example condense_three_versions :
  condense_stack_scan (senv := Inputs.toy_stack_env) 100 Inputs.three_versions
  = Some (drop 1 Inputs.three_versions, false, 0).
Proof. reflexivity. Qed.

(** ** The bound on the number of versions *)

Lemma take_delete_same {A} (l : list A) (n : nat) :
  take n (delete n l) = take n l.
Proof.
  revert n. induction l as [|x l IH]; intros [|n]; cbn; try reflexivity.
  f_equal. apply IH.
Qed.

Section VersionBound.
Context {senv : StackEnv} {tenv : TreeEnv}.

(** The loop [while (version_count > n) remove_version(n)] keeps the
    first [n] versions. *)
Lemma remove_versions_from_take (fuel : nat) :
  forall (s : Stack) (n : StackVersion),
    0 <= n -> (length s <= fuel + Z.to_nat n)%nat ->
    remove_versions_from fuel s n = Some (take (Z.to_nat n) s).
Proof.
  induction fuel as [|fuel IH]; intros s n Hn Hlen; cbn [remove_versions_from];
    unfold ts_stack_version_count;
    destruct (Z.gtb_spec (Z.of_nat (length s)) n) as [Hgt | Hle].
  - lia.
  - rewrite take_ge by lia. reflexivity.
  - unfold ts_stack_remove_version. rewrite IH; [|exact Hn|].
    + rewrite take_delete_same. reflexivity.
    + rewrite length_delete by (apply lookup_lt_is_Some_2; lia). lia.
  - rewrite take_ge by lia. reflexivity.
Qed.

Lemma ts_stack_push_count (s : Stack) v tree pending state :
  ts_stack_version_count (ts_stack_push s v tree pending state)
  = ts_stack_version_count s.
Proof. unfold ts_stack_version_count, ts_stack_push. rewrite length_insert. reflexivity. Qed.

Lemma push_extras_count (extras : TreeArray) :
  forall (s : Stack) v state,
    ts_stack_version_count (push_extras s v extras state)
    = ts_stack_version_count s.
Proof.
  unfold push_extras. induction extras as [|t extras IH]; intros s v state;
    cbn [foldl]; [reflexivity|].
  rewrite IH. apply ts_stack_push_count.
Qed.

Lemma halt_slices_count (rest : StackSliceArray) :
  forall s : Stack,
    ts_stack_version_count (halt_slices s rest) = ts_stack_version_count s.
Proof.
  unfold halt_slices. induction rest as [|slice rest IH]; intros s;
    cbn [foldl]; [reflexivity|].
  rewrite IH. unfold ts_stack_version_count, ts_stack_halt.
  rewrite length_insert. reflexivity.
Qed.

(** The slice kept among the alternatives has the version of the first. *)
Lemma reduce_alternatives_version (rest : StackSliceArray) :
  forall parent slice parent' slice' rest',
    reduce_alternatives parent slice rest = (parent', slice', rest') ->
    slice_version slice' = slice_version slice /\
    (length rest' <= length rest)%nat /\
    (forall P : StackSlice -> Prop, Forall P rest -> Forall P rest').
Proof.
  induction rest as [|next rest IH]; intros parent slice parent' slice' rest';
    cbn [reduce_alternatives].
  - intros [= <- <- <-]. repeat split; auto.
  - destruct (Z.eqb_spec (slice_version next) (slice_version slice)) as [Heq | Hne];
      cbn [negb].
    + destruct (parser__replace_children parent _) as [parent1 [|]]; intros Hr;
        apply IH in Hr as (Hv & Hl & Hf); cbn [length];
        (repeat split; [lia || congruence | lia |]);
        intros P HP; apply Forall_cons in HP as [_ HP]; auto.
    + intros [= <- <- <-]. repeat split; auto.
Qed.

(** The loop over the slices: below the bound the number of versions
    does not change; above it only the versions up to that of the first
    slice are kept. *)
Lemma reduce_slices_count (fuel : nat) :
  forall in_ambiguity (s : Stack) pop pop_size initial_version_count sym dp
    alias fragile,
    (length pop <= fuel)%nat ->
    Forall (fun slice => 0 <= slice_version slice < UINT_MAX) pop ->
    exists s',
      reduce_slices fuel in_ambiguity s pop pop_size initial_version_count
        sym dp alias fragile = Some s' /\
      ts_stack_version_count s' =
        match pop with
        | [] => ts_stack_version_count s
        | slice :: _ =>
            if ts_stack_version_count s >? MAX_VERSION_COUNT
            then Z.min (ts_stack_version_count s) (slice_version slice + 1)
            else ts_stack_version_count s
        end.
Proof.
  induction fuel as [|fuel IH];
    intros in_ambiguity s pop pop_size initial_version_count sym dp alias
      fragile Hfuel Hver.
  - destruct pop; [|cbn [length] in Hfuel; lia].
    exists s. split; reflexivity.
  - destruct pop as [|slice rest]; [exists s; split; reflexivity|].
    cbn [reduce_slices].
    destruct (reduce_alternatives _ slice rest) as [[parent slice'] rest'] eqn:Halt.
    apply reduce_alternatives_version in Halt as (Hv & Hl & Hall).
    set (s1 := push_extras _ _ _ _).
    assert (Hc1 : ts_stack_version_count s1 = ts_stack_version_count s).
    { unfold s1. rewrite push_extras_count, ts_stack_push_count. reflexivity. }
    rewrite Hc1, Hv.
    apply Forall_cons in Hver as [Hslice Hrest].
    destruct (Z.gtb_spec (ts_stack_version_count s) MAX_VERSION_COUNT) as [Hgt | Hle].
    + rewrite u32_small by (unfold is_u32; lia).
      rewrite remove_versions_from_take by lia.
      eexists. split; [reflexivity|].
      unfold ts_stack_version_count at 1. rewrite length_take.
      pose proof (halt_slices_count rest' s1) as Hh.
      unfold ts_stack_version_count in Hh, Hc1 |- *. lia.
    + assert (Hrest' : Forall (fun slice => 0 <= slice_version slice < UINT_MAX) rest')
        by (apply Hall, Hrest).
      destruct (IH in_ambiguity s1 rest' pop_size initial_version_count sym dp
                  alias fragile ltac:(cbn [length] in Hfuel; lia) Hrest')
        as (s' & Hr & Hc').
      exists s'. split; [exact Hr|].
      rewrite Hc', Hc1.
      destruct rest'; [reflexivity|].
      destruct (Z.gtb_spec (ts_stack_version_count s) MAX_VERSION_COUNT); [lia|reflexivity].
Qed.

Lemma reduce_merge_inner_total (fuel : nat) :
  forall (s : Stack) (i j : StackVersion),
    0 <= j -> i < ts_stack_version_count s ->
    ts_stack_version_count s <= UINT_MAX ->
    i - j <= Z.of_nat fuel ->
    exists s' i',
      reduce_merge_inner fuel s i j = Some (s', i') /\
      ((ts_stack_version_count s' = ts_stack_version_count s /\ i' = i) \/
       (ts_stack_version_count s' = ts_stack_version_count s - 1 /\
        i' = i - 1 /\ 1 <= i)).
Proof.
  induction fuel as [|fuel IH]; intros s i j Hj Hi Hmax Hfuel;
    cbn [reduce_merge_inner]; destruct (Z.ltb_spec j i) as [Hlt | Hge];
    try (exists s, i; split; [reflexivity | left; split; reflexivity]).
  - lia.
  - destruct (ts_stack_merge s j i) as [[|] s1] eqn:Hm;
      destruct (ts_stack_merge_shape s s1 j i _ ltac:(lia) ltac:(lia) Hm)
        as [Hc _].
    + exists s1, (u32 (i - 1)). split; [reflexivity|]. right.
      rewrite u32_small by (unfold is_u32; lia). lia.
    + rewrite u32_small by (unfold is_u32; lia).
      destruct (IH s1 i (j + 1)) as (s' & i' & Hr & Hcases); try lia.
      exists s', i'. split; [exact Hr|]. lia.
Qed.


(** The slices of a pop carry the new versions, the first one first. *)
Lemma slices_of_versions (groups : list (StackNode * TreeArray * list TreeArray)) :
  forall v : StackVersion,
    Forall (fun slice => v <= slice_version slice < v + Z.of_nat (length groups))
      (slices_of groups v) /\
    match slices_of groups v with
    | [] => groups = []
    | slice :: _ => slice_version slice = v
    end.
Proof.
  induction groups as [|[[n first] others] groups IH]; intros v;
    cbn [slices_of length].
  - split; [constructor | reflexivity].
  - split; [|reflexivity].
    apply Forall_cons. split; [cbn; lia|].
    apply Forall_app. split.
    + apply Forall_forall. intros slice Hin.
      apply list_elem_of_fmap in Hin as (trees & -> & _). cbn. lia.
    + destruct (IH (v + 1)) as [Hall _].
      eapply Forall_impl; [exact Hall|]. cbn. intros slice Hs. lia.
Qed.



End VersionBound.

Section VersionBoundTheorem.
Context {senv : StackEnv} {tenv : TreeEnv}.


End VersionBoundTheorem.



(** ** Halting on error *)

Lemma set_extra_fields (b : bool) (t : Tree) :
  extra (set_extra b t) = b /\ symbol (set_extra b t) = symbol t /\
  ts_tree_total_bytes (set_extra b t) = ts_tree_total_bytes t.
Proof. destruct t; repeat split. Qed.


Lemma u32_add_l (a b : Z) : u32 (u32 a + b) = u32 (a + b).
Proof. unfold u32. apply Zplus_mod_idemp_l. Qed.



Section HaltFacts.
Context {lenv : LexEnv} {senv : StackEnv} {tenv : TreeEnv}.



End HaltFacts.

Section HaltParse.
Context {lenv : LexEnv} {senv : StackEnv} {tenv : TreeEnv}.



End HaltParse.







(** ** The sources of the lookahead *)

Section LookaheadFacts.
Context {lenv : LexEnv} {senv : StackEnv} {tenv : TreeEnv} {renv : ReuseEnv}.

Lemma get_cached_token_inv (p : Parser) byte_index last_external_token result :
  parser__get_cached_token p byte_index last_external_token = Some result <->
  cache_token (parser_token_cache p) = Some result /\
  cache_byte_index (parser_token_cache p) = byte_index /\
  ts_tree_external_token_state_eq
    (cache_last_external_token (parser_token_cache p)) last_external_token = true.
Proof.
  unfold parser__get_cached_token.
  destruct (cache_token (parser_token_cache p)) as [token|].
  - destruct (Z.eqb_spec (cache_byte_index (parser_token_cache p)) byte_index)
      as [Heq|Hne]; cbn [andb].
    + destruct (ts_tree_external_token_state_eq _ _); split.
      * intros [= <-]. auto.
      * intros ([= <-] & _ & _). reflexivity.
      * discriminate.
      * intros (_ & _ & [=]).
    + split; [discriminate|]. intros (_ & Heq & _). contradiction.
  - split; [discriminate|]. intros ([=] & _).
Qed.

Lemma get_lookahead_cached_inv (p : Parser) position last_external_token state :
  match get_lookahead_cached p position last_external_token state with
  | Some (result, table_entry) =>
      cache_applies p position last_external_token state result /\
      table_entry = ts_language_table_entry state (first_leaf_symbol result)
  | None =>
      forall t, ~ cache_applies p position last_external_token state t
  end.
Proof.
  unfold get_lookahead_cached.
  destruct (parser__get_cached_token p (bytes position) last_external_token)
    as [result|] eqn:Hcached.
  - apply get_cached_token_inv in Hcached as (Htoken & Hbyte & Hext).
    destruct (parser__can_reuse_first_leaf state result _) eqn:Hcan.
    + split; [|reflexivity]. repeat split; assumption.
    + intros t (Ht & _ & _ & Hcan'). rewrite Htoken in Ht. injection Ht as <-.
      rewrite Hcan in Hcan'. discriminate.
  - intros t (Ht & Hbyte & Hext & _).
    assert (Hsome : parser__get_cached_token p (bytes position) last_external_token
                    = Some t)
      by (apply get_cached_token_inv; auto).
    rewrite Hcached in Hsome. discriminate.
Qed.

Lemma get_lookahead_cached_applies (p : Parser) position last_external_token state
  result :
  cache_applies p position last_external_token state result ->
  get_lookahead_cached p position last_external_token state
  = Some (result, ts_language_table_entry state (first_leaf_symbol result)).
Proof.
  intros (Htoken & Hbyte & Hext & Hcan). unfold get_lookahead_cached.
  rewrite (proj2 (get_cached_token_inv p (bytes position) last_external_token result))
    by auto.
  cbv zeta. rewrite Hcan. reflexivity.
Qed.

(** The checks of lines 438-449 find no reason exactly when the
    conditions on the tree hold. *)
Lemma cant_reuse_node_spec (in_ambiguity : bool) (t : Tree) :
  cant_reuse_node in_ambiguity t = false <-> node_reusable in_ambiguity t.
Proof.
  unfold cant_reuse_node, node_reusable, has_children.
  destruct (has_changes t);
    [split; [discriminate | intros (H & _); discriminate]|].
  destruct (Z.eqb_spec (symbol t) ts_builtin_sym_error) as [Heq | Hne];
    [split; [discriminate | intros (_ & H & _); contradiction]|].
  destruct (is_missing t);
    [split; [discriminate | intros (_ & _ & H & _); discriminate]|].
  destruct (fragile_left t); cbn [orb];
    [split; [discriminate | intros (_ & _ & _ & H & _); discriminate]|].
  destruct (fragile_right t);
    [split; [discriminate | intros (_ & _ & _ & _ & H & _); discriminate]|].
  destruct in_ambiguity; cbn [andb].
  - destruct (children t) as [|c cs].
    + split; [intros _; repeat split; auto | reflexivity].
    + split; [discriminate|].
      intros (_ & _ & _ & _ & _ & H). discriminate (H eq_refl).
  - split; [|reflexivity].
    intros _. repeat split; auto. intros H. discriminate H.
Qed.

(** More iterations do not change what a loop that ended has given. *)
Lemma lex_loop_mono (fuel : nat) :
  forall (fuel' : nat) start_position external_token st st',
    lex_loop fuel start_position external_token st = Some st' ->
    (fuel <= fuel')%nat ->
    lex_loop fuel' start_position external_token st = Some st'.
Proof.
  induction fuel as [|fuel IH]; intros fuel' sp et st st'; cbn [lex_loop];
    [discriminate|].
  intros Hrun Hle. destruct fuel' as [|fuel']; [lia|]. cbn [lex_loop].
  destruct (lex_iteration sp et st) as [[] st1];
    first [exact Hrun | apply IH; [exact Hrun | lia]].
Qed.

Lemma parser__lex_mono (fuel fuel' : nat) lexer payload start_position
  external_token state r :
  parser__lex fuel lexer payload start_position external_token state = Some r ->
  (fuel <= fuel')%nat ->
  parser__lex fuel' lexer payload start_position external_token state = Some r.
Proof.
  unfold parser__lex, parser__lex_run. cbv zeta. intros Hrun Hle.
  destruct (lex_loop fuel start_position external_token _) as [st|] eqn:Hloop;
    [|discriminate].
  rewrite (lex_loop_mono _ _ _ _ _ _ Hloop Hle). exact Hrun.
Qed.

Lemma breakdown_loop_mono (fuel : nat) :
  forall (fuel' : nat) s version did r,
    breakdown_loop fuel s version did = Some r ->
    (fuel <= fuel')%nat ->
    breakdown_loop fuel' s version did = Some r.
Proof.
  induction fuel as [|fuel IH]; intros fuel' s version did r; cbn [breakdown_loop];
    [discriminate|].
  intros Hrun Hle. destruct fuel' as [|fuel']; [lia|]. cbn [breakdown_loop].
  destruct (ts_stack_pop_pending s version) as [pop s1].
  destruct pop as [|slice pop]; [exact Hrun|].
  destruct (breakdown_slices (slice :: pop) s1 false) as [[s2 pending]|];
    [|discriminate].
  destruct pending; [apply IH; [exact Hrun | lia] | exact Hrun].
Qed.

Section CursorRuns.
Variable in_ambiguity : bool.
Variable version : StackVersion.
Variable position : Length.
Variable last_external_token : option Tree.

(** What the loop over the cursor has done when it ends: it has moved
    on as far as the exit says, and there the first source applies, or
    does not. *)
Lemma get_lookahead_cursor_sound (fuel : nat) :
  forall s state r exit_,
    get_lookahead_cursor fuel in_ambiguity version position last_external_token
      s state r = Some exit_ ->
    cursor_exit_ok in_ambiguity version position last_external_token
      (s, state, r) exit_.
Proof.
  induction fuel as [|fuel IH]; intros s state r exit_; cbn [get_lookahead_cursor];
    [discriminate|].
  assert (Hnext : forall s1 state1 r1,
            cursor_skips in_ambiguity version position last_external_token
              (s, state, r) (s1, state1, r1) ->
            get_lookahead_cursor fuel in_ambiguity version position
              last_external_token s1 state1 r1 = Some exit_ ->
            cursor_exit_ok in_ambiguity version position last_external_token
              (s, state, r) exit_).
  { intros s1 state1 r1 Hskip Hrun. apply IH in Hrun.
    destruct exit_ as [result te s' state' r' | s' state' r'']; cbn [cursor_exit_ok] in *.
    - destruct Hrun as (Hwalk & Happ & Hte).
      split; [eapply rtc_l; eassumption | auto].
    - destruct Hrun as (r' & Hwalk & Hup). exists r'.
      split; [eapply rtc_l; eassumption | exact Hup]. }
  unfold get_lookahead_step.
  destruct (reusable_tree r) as [result|] eqn:Htree.
  2:{ intros [= <-]. exists r.
      split; [apply rtc_refl | apply gives_up_at_end; exact Htree]. }
  destruct (Z.gtb_spec (reusable_byte_index r) (bytes position)) as [Hgt|Hle].
  { intros [= <-]. exists r.
    split; [apply rtc_refl | eapply gives_up_beyond; [exact Htree | lia]]. }
  destruct (Z.ltb_spec (reusable_byte_index r) (bytes position)) as [Hlt|Hge].
  { apply Hnext. eapply skips_before; eassumption. }
  assert (Hidx : reusable_byte_index r = bytes position) by lia.
  destruct (ts_tree_external_token_state_eq (reusable_last_external_token r)
              last_external_token) eqn:Hext; cbn [negb].
  2:{ apply Hnext. eapply skips_external; eassumption. }
  assert (Hhere : candidate_here position last_external_token r result)
    by (repeat split; assumption).
  destruct (cant_reuse_node in_ambiguity result) eqn:Hcant.
  { assert (Hnot : ~ node_reusable in_ambiguity result).
    { intros Hre. apply cant_reuse_node_spec in Hre. congruence. }
    destruct (reusable_node_breakdown r) as [[|] r1] eqn:Hbd.
    - apply Hnext.
      replace r1 with (snd (reusable_node_breakdown r)) by (rewrite Hbd; reflexivity).
      eapply skips_into; [exact Hhere | exact Hnot | rewrite Hbd; reflexivity].
    - destruct (parser__breakdown_top_of_stack fuel s version) as [[did s1]|] eqn:Htop;
        [|discriminate].
      apply Hnext.
      replace r1 with (snd (reusable_node_breakdown r)) by (rewrite Hbd; reflexivity).
      eapply skips_leaf;
        [exact Hhere | exact Hnot | rewrite Hbd; reflexivity | exact Htop]. }
  apply cant_reuse_node_spec in Hcant. cbv zeta.
  destruct (parser__can_reuse_first_leaf state result
              (ts_language_table_entry state (first_leaf_symbol result)))
    eqn:Hcan; cbn [negb].
  - intros [= <-]. split; [apply rtc_refl|]. split; [|reflexivity].
    split; [exact Hhere|]. split; [exact Hcant | exact Hcan].
  - intros [= <-]. exists r. split; [apply rtc_refl|].
    eapply gives_up_first_leaf; [exact Hhere | exact Hcant|].
    unfold first_leaf_reusable. congruence.
Qed.

(** A candidate that applies is returned at once. *)
Lemma get_lookahead_cursor_applies (fuel : nat) s state r t :
  candidate_applies in_ambiguity position last_external_token state r t ->
  get_lookahead_cursor (S fuel) in_ambiguity version position last_external_token
    s state r
  = Some (CursorReused t (ts_language_table_entry state (first_leaf_symbol t))
            s state r).
Proof.
  intros ((Htree & Hidx & Hext) & Hre & Hcan).
  apply cant_reuse_node_spec in Hre. unfold first_leaf_reusable in Hcan.
  cbn [get_lookahead_cursor]. unfold get_lookahead_step. rewrite Htree.
  destruct (Z.gtb_spec (reusable_byte_index r) (bytes position)); [lia|].
  destruct (Z.ltb_spec (reusable_byte_index r) (bytes position)); [lia|].
  rewrite Hext. cbn [negb]. rewrite Hre. cbv zeta. rewrite Hcan. reflexivity.
Qed.

(** A cursor that gives up ends the loop at once. *)
Lemma get_lookahead_cursor_gives_up (fuel : nat) s state r r' :
  cursor_gives_up in_ambiguity position last_external_token state r r' ->
  get_lookahead_cursor (S fuel) in_ambiguity version position last_external_token
    s state r
  = Some (CursorPassed s state r').
Proof.
  intros Hup. cbn [get_lookahead_cursor]. unfold get_lookahead_step.
  destruct Hup as [Htree | t Htree Hgt | t (Htree & Hidx & Hext) Hre Hcan];
    rewrite Htree; [reflexivity| |].
  - destruct (Z.gtb_spec (reusable_byte_index r) (bytes position)); [reflexivity|lia].
  - apply cant_reuse_node_spec in Hre. unfold first_leaf_reusable in Hcan.
    destruct (Z.gtb_spec (reusable_byte_index r) (bytes position)); [lia|].
    destruct (Z.ltb_spec (reusable_byte_index r) (bytes position)); [lia|].
    rewrite Hext. cbn [negb]. rewrite Hre. cbv zeta.
    destruct (parser__can_reuse_first_leaf state t
                (ts_language_table_entry state (first_leaf_symbol t)));
      [contradiction Hcan; reflexivity | reflexivity].
Qed.

(** One move of the cursor is one turn of the loop. *)
Lemma get_lookahead_cursor_skip (c c' : CursorAt) :
  cursor_skips in_ambiguity version position last_external_token c c' ->
  forall exit_ (f0 : nat),
    (forall fuel, (f0 <= fuel)%nat ->
       get_lookahead_cursor fuel in_ambiguity version position last_external_token
         (fst (fst c')) (snd (fst c')) (snd c') = Some exit_) ->
    exists f1 : nat,
      forall fuel, (f1 <= fuel)%nat ->
        get_lookahead_cursor fuel in_ambiguity version position last_external_token
          (fst (fst c)) (snd (fst c)) (snd c) = Some exit_.
Proof.
  intros Hskip exit_ f0 Hrun.
  destruct Hskip
    as [s state r t Htree Hlt
       | s state r t Htree Hidx Hext
       | s state r t (Htree & Hidx & Hext) Hnot Hdown
       | s state r t fb did s' (Htree & Hidx & Hext) Hnot Hdown Htop];
    cbn [fst snd] in *.
  - exists (S f0). intros [|fuel] Hle; [lia|].
    cbn [get_lookahead_cursor]. unfold get_lookahead_step. rewrite Htree.
    destruct (Z.gtb_spec (reusable_byte_index r) (bytes position)); [lia|].
    destruct (Z.ltb_spec (reusable_byte_index r) (bytes position)); [|lia].
    apply Hrun. lia.
  - exists (S f0). intros [|fuel] Hle; [lia|].
    cbn [get_lookahead_cursor]. unfold get_lookahead_step. rewrite Htree.
    destruct (Z.gtb_spec (reusable_byte_index r) (bytes position)); [lia|].
    destruct (Z.ltb_spec (reusable_byte_index r) (bytes position)); [lia|].
    rewrite Hext. cbn [negb]. apply Hrun. lia.
  - exists (S f0). intros [|fuel] Hle; [lia|].
    cbn [get_lookahead_cursor]. unfold get_lookahead_step. rewrite Htree.
    destruct (Z.gtb_spec (reusable_byte_index r) (bytes position)); [lia|].
    destruct (Z.ltb_spec (reusable_byte_index r) (bytes position)); [lia|].
    rewrite Hext. cbn [negb].
    destruct (cant_reuse_node in_ambiguity t) eqn:Hcant;
      [|exfalso; apply Hnot, cant_reuse_node_spec, Hcant].
    destruct (reusable_node_breakdown r) as [went_down r1].
    cbn [fst snd] in *. subst went_down. apply Hrun. lia.
  - exists (S (Nat.max f0 fb)). intros [|fuel] Hle; [lia|].
    cbn [get_lookahead_cursor]. unfold get_lookahead_step. rewrite Htree.
    destruct (Z.gtb_spec (reusable_byte_index r) (bytes position)); [lia|].
    destruct (Z.ltb_spec (reusable_byte_index r) (bytes position)); [lia|].
    rewrite Hext. cbn [negb].
    destruct (cant_reuse_node in_ambiguity t) eqn:Hcant;
      [|exfalso; apply Hnot, cant_reuse_node_spec, Hcant].
    destruct (reusable_node_breakdown r) as [went_down r1].
    cbn [fst snd] in *. subst went_down.
    unfold parser__breakdown_top_of_stack in *.
    rewrite (breakdown_loop_mono fb fuel s version false _ Htop) by lia.
    apply Hrun. lia.
Qed.

(** The moves of the cursor are the turns of the loop. *)
Lemma get_lookahead_cursor_walk (c c' : CursorAt) :
  rtc (cursor_skips in_ambiguity version position last_external_token) c c' ->
  forall exit_ (f0 : nat),
    (forall fuel, (f0 <= fuel)%nat ->
       get_lookahead_cursor fuel in_ambiguity version position last_external_token
         (fst (fst c')) (snd (fst c')) (snd c') = Some exit_) ->
    exists f1 : nat,
      forall fuel, (f1 <= fuel)%nat ->
        get_lookahead_cursor fuel in_ambiguity version position last_external_token
          (fst (fst c)) (snd (fst c)) (snd c) = Some exit_.
Proof.
  induction 1 as [c | c c1 c' Hskip Hwalk IH]; intros exit_ f0 Hrun; [eauto|].
  destruct (IH _ _ Hrun) as [f1 H1].
  eapply get_lookahead_cursor_skip; eassumption.
Qed.

End CursorRuns.

(** C5.  [parser__get_lookahead] tries its three sources in a fixed
    order, and what it returns is fixed by them.  The cursor is moved
    on, past the trees that begin before the byte position of the
    version or carry another external token state, and into or past
    those that fail the checks; then
    - if it stands on a candidate (a tree at the position, with the
      external token state of the version) that passes the checks, that
      tree is the lookahead, and neither lexer nor cache is touched;
    - if it gives up (it is at its end or beyond the position, or the
      first leaf of the candidate cannot be reused), and the cache holds
      a token for this position and external token state whose first
      leaf can be reused in the current state, that token is the
      lookahead, and the lexer is not touched;
    - only if the cursor gives up and the cache does not apply is
      [parser__lex] called, on the version and the current state; its
      token is the lookahead and is stored in the cache for this
      position and external token state.
    A call that returns has returned the lookahead of these rules; and
    whenever the rules give a lookahead, every call with enough fuel
    returns it, and no other. *)
Theorem get_lookahead_order (p : Parser) (version : StackVersion)
  (state : TSStateId) (reusable_node : ReusableNode) (out : Lookahead) :
  (forall fuel,
     parser__get_lookahead fuel p version state reusable_node = Some out ->
     lookahead_of p version (ts_stack_position (parser_stack p) version)
       (ts_stack_last_external_token (parser_stack p) version)
       state reusable_node out) /\
  (lookahead_of p version (ts_stack_position (parser_stack p) version)
     (ts_stack_last_external_token (parser_stack p) version)
     state reusable_node out ->
   exists fuel0 : nat,
     forall fuel, (fuel0 <= fuel)%nat ->
       parser__get_lookahead fuel p version state reusable_node = Some out).
Proof.
  split.
  - intros fuel. unfold parser__get_lookahead.
    destruct (get_lookahead_cursor fuel (parser_in_ambiguity p) version
                (ts_stack_position (parser_stack p) version)
                (ts_stack_last_external_token (parser_stack p) version)
                (parser_stack p) state reusable_node)
      as [[result table_entry s state' r'|s state' r'']|] eqn:Hcursor;
      [| |discriminate];
      apply get_lookahead_cursor_sound in Hcursor; cbn [cursor_exit_ok] in Hcursor.
    + destruct Hcursor as (Hwalk & Happ & ->). intros [= <-].
      exact (of_cursor _ _ _ _ _ _ _ _ _ _ Hwalk Happ).
    + destruct Hcursor as (r' & Hwalk & Hup).
      pose proof (get_lookahead_cached_inv (set_parser_stack s p)
                    (ts_stack_position (parser_stack p) version)
                    (ts_stack_last_external_token (parser_stack p) version) state')
        as Hcached.
      destruct (get_lookahead_cached (set_parser_stack s p) _ _ state')
        as [[result table_entry]|].
      * destruct Hcached as [Happ ->]. intros [= <-].
        exact (of_cache _ _ _ _ _ _ _ _ _ _ _ Hwalk Hup Happ).
      * destruct (parser__lex fuel _ _ _ _ state')
          as [[[result lexer] payload]|] eqn:Hlex; [|discriminate].
        intros [= <-].
        exact (of_lexer _ _ _ _ _ _ _ _ _ _ _ _ _ _ Hwalk Hup Hcached Hlex).
  - intros Hof.
    destruct Hof
      as [s' state' r' result Hwalk Happ
         | s' state' r' r'' result Hwalk Hup Hcache
         | s' state' r' r'' fl result lexer payload Hwalk Hup Hcache Hlex].
    + destruct (get_lookahead_cursor_walk _ _ _ _ _ _ Hwalk
                  (CursorReused result
                     (ts_language_table_entry state' (first_leaf_symbol result))
                     s' state' r') 1%nat) as [f1 H1].
      { intros [|fuel] Hle; [lia|]. cbn [fst snd].
        apply get_lookahead_cursor_applies, Happ. }
      exists f1. intros fuel Hle. unfold parser__get_lookahead.
      cbn [fst snd] in H1. rewrite (H1 fuel Hle). reflexivity.
    + destruct (get_lookahead_cursor_walk _ _ _ _ _ _ Hwalk
                  (CursorPassed s' state' r'') 1%nat) as [f1 H1].
      { intros [|fuel] Hle; [lia|]. cbn [fst snd].
        apply get_lookahead_cursor_gives_up, Hup. }
      exists f1. intros fuel Hle. unfold parser__get_lookahead.
      cbn [fst snd] in H1. rewrite (H1 fuel Hle). cbv zeta.
      rewrite (get_lookahead_cached_applies (set_parser_stack s' p) _ _ _ result Hcache).
      reflexivity.
    + destruct (get_lookahead_cursor_walk _ _ _ _ _ _ Hwalk
                  (CursorPassed s' state' r'') 1%nat) as [f1 H1].
      { intros [|fuel] Hle; [lia|]. cbn [fst snd].
        apply get_lookahead_cursor_gives_up, Hup. }
      exists (Nat.max f1 fl). intros fuel Hle. unfold parser__get_lookahead.
      cbn [fst snd] in H1. rewrite (H1 fuel ltac:(lia)). cbv zeta.
      pose proof (get_lookahead_cached_inv (set_parser_stack s' p)
                    (ts_stack_position (parser_stack p) version)
                    (ts_stack_last_external_token (parser_stack p) version) state')
        as Hcached.
      destruct (get_lookahead_cached (set_parser_stack s' p) _ _ state')
        as [[result' table_entry]|].
      { destruct Hcached as [Happ _]. exfalso. exact (Hcache _ Happ). }
      change (parser_lexer (set_parser_stack s' p)) with (parser_lexer p).
      change (parser_external_scanner_payload (set_parser_stack s' p))
        with (parser_external_scanner_payload p).
      change (parser_stack (set_parser_stack s' p)) with s'.
      rewrite (parser__lex_mono fl fuel _ _ _ _ _ _ Hlex) by lia.
      reflexivity.
Qed.

(** When the cursor is at its end and the cache is empty, the lookahead
    is the token of the lexer, whatever [fuel] the loop over the cursor
    is given. *)
Lemma get_lookahead_lexes (fuel : nat) (p : Parser) (version : StackVersion)
  (state : TSStateId) (reusable_node : ReusableNode) result lexer payload :
  reusable_tree reusable_node = None ->
  cache_token (parser_token_cache p) = None ->
  parser__lex (S fuel) (parser_lexer p) (parser_external_scanner_payload p)
    (ts_stack_position (parser_stack p) version)
    (ts_stack_last_external_token (parser_stack p) version) state
  = Some (result, lexer, payload) ->
  exists out,
    parser__get_lookahead (S fuel) p version state reusable_node = Some out /\
    la_result out = result.
Proof.
  intros Htree Hcache Hlex. unfold parser__get_lookahead.
  cbn [get_lookahead_cursor]. unfold get_lookahead_step. rewrite Htree.
  unfold get_lookahead_cached, parser__get_cached_token.
  cbn [set_parser_stack parser_token_cache parser_lexer parser_stack
       parser_external_scanner_payload].
  rewrite Hcache, Hlex. eexists. split; reflexivity.
Qed.

End LookaheadFacts.

Lemma get_lookahead_order_witness :
  exists out,
    lookahead_of (tenv := Inputs.toy_tree_env) (renv := Inputs.toy_reuse_env)
      Inputs.toy_parser_start 0
      (ts_stack_position (parser_stack Inputs.toy_parser_start) 0)
      (ts_stack_last_external_token (parser_stack Inputs.toy_parser_start) 0)
      2 Inputs.toy_cursor out /\
    la_result out = Inputs.toy_leaf_tree 1 3 /\
    exists fuel0 : nat,
      forall fuel, (fuel0 <= fuel)%nat ->
        parser__get_lookahead (tenv := Inputs.toy_tree_env)
          (renv := Inputs.toy_reuse_env) fuel Inputs.toy_parser_start 0 2
          Inputs.toy_cursor
        = Some out.
Proof.
  set (out := mkLookahead (lenv := Inputs.toy_env 10) (senv := Inputs.toy_stack_env)
                (renv := Inputs.toy_reuse_env) (Inputs.toy_leaf_tree 1 3)
                (set_parser_stack (parser_stack Inputs.toy_parser_start)
                   Inputs.toy_parser_start)
                2 Inputs.toy_cursor
                (ts_language_table_entry (ReuseEnv := Inputs.toy_reuse_env) 2
                   (first_leaf_symbol (Inputs.toy_leaf_tree 1 3)))).
  assert (Hof : lookahead_of (tenv := Inputs.toy_tree_env)
                  (renv := Inputs.toy_reuse_env) Inputs.toy_parser_start 0
                  (ts_stack_position (parser_stack Inputs.toy_parser_start) 0)
                  (ts_stack_last_external_token
                     (parser_stack Inputs.toy_parser_start) 0)
                  2 Inputs.toy_cursor out).
  { apply of_cursor; [apply rtc_refl|].
    split; [repeat split|split; [|reflexivity]].
    repeat split; try reflexivity.
    intros H. discriminate H. }
  exists out. split; [exact Hof|]. split; [reflexivity|].
  exact (proj2 (get_lookahead_order (tenv := Inputs.toy_tree_env)
                  (renv := Inputs.toy_reuse_env) Inputs.toy_parser_start 0 2
                  Inputs.toy_cursor out) Hof).
Defined.

(** With the version at byte 3 the same cursor is moved past its tree,
    which begins at byte 0; it is then at its end, the cache is empty,
    and the lookahead is the token of the lexer. *)
Lemma get_lookahead_order_lexes :
  exists out,
    lookahead_of (tenv := Inputs.toy_tree_env) (renv := Inputs.toy_reuse_env)
      Inputs.toy_parser 0
      (ts_stack_position (parser_stack Inputs.toy_parser) 0)
      (ts_stack_last_external_token (parser_stack Inputs.toy_parser) 0)
      2 Inputs.toy_cursor out /\
    parser__get_lookahead (tenv := Inputs.toy_tree_env)
      (renv := Inputs.toy_reuse_env) 2 Inputs.toy_parser 0 2 Inputs.toy_cursor
    = Some out /\
    bytes (size (la_result out)) = 7.
Proof.
  eexists. split; [|split; [reflexivity|reflexivity]].
  eapply (of_lexer (tenv := Inputs.toy_tree_env) (renv := Inputs.toy_reuse_env)
            Inputs.toy_parser 0 _ _ 2 Inputs.toy_cursor
            _ 2 ([], 3) ([], 3) 2%nat).
  - eapply rtc_l; [|apply rtc_refl].
    eapply (skips_before (renv := Inputs.toy_reuse_env) false 0 _ _ _ 2
              Inputs.toy_cursor); [reflexivity | vm_compute; reflexivity].
  - apply gives_up_at_end. reflexivity.
  - intros t (Htoken & _). discriminate Htoken.
  - reflexivity.
Qed.

(** On that input the tree of the cursor lies before the version and is
    passed, the cache is empty, and the lexer gives the token of the
    seven bytes that remain, which the cache then holds for byte 3. *)
Example get_lookahead_toy :
  exists out,
    parser__get_lookahead (tenv := Inputs.toy_tree_env)
      (renv := Inputs.toy_reuse_env) 2 Inputs.toy_parser 0 2 Inputs.toy_cursor
    = Some out /\
    symbol (la_result out) = 1 /\
    bytes (size (la_result out)) = 7 /\
    la_reusable_node out = ([], 3) /\
    parser_token_cache (la_parser out) = mkTokenCache (Some (la_result out)) 3 None.
Proof.
  eexists. split; [reflexivity|]. repeat split.
Qed.

(** ** The parse table: the order of actions *)

Section LexProd.
Context {A B : Type} (RA : A -> A -> Prop) (RB : B -> B -> Prop).

Lemma lexprod_irrefl :
  (forall x, ~ RA x x) -> (forall y, ~ RB y y) ->
  forall p, ~ lexprod RA RB p p.
Proof. intros HA HB p [H | [_ H]]; [eapply HA | eapply HB]; eauto. Qed.

Lemma lexprod_trans :
  (forall x y z, RA x y -> RA y z -> RA x z) ->
  (forall x y z, RB x y -> RB y z -> RB x z) ->
  forall p q r, lexprod RA RB p q -> lexprod RA RB q r -> lexprod RA RB p r.
Proof.
  intros HA HB p q r [H1 | [E1 H1]] [H2 | [E2 H2]]; unfold lexprod.
  - left. eauto.
  - left. rewrite <- E2. exact H1.
  - left. rewrite E1. exact H2.
  - right. split; [congruence | eauto].
Qed.

Lemma lexprod_total :
  (forall x y, RA x y \/ x = y \/ RA y x) ->
  (forall x y, RB x y \/ x = y \/ RB y x) ->
  forall p q, lexprod RA RB p q \/ p = q \/ lexprod RA RB q p.
Proof.
  intros HA HB [a b] [a' b']. unfold lexprod. cbn [fst snd].
  destruct (HA a a') as [H | [-> | H]]; [tauto | | tauto].
  destruct (HB b b') as [H | [-> | H]]; tauto.
Qed.

End LexProd.

Section ParseActionOrder.
Import ParseTable.

Context {Symbol : Type} `{Countable Symbol}.
Context {PrecedenceRange Associativity : Type}.
Variable Symbol_lt : Symbol -> Symbol -> bool.

Local Abbreviation Action := (ParseAction (Symbol := Symbol) PrecedenceRange Associativity).

Hypothesis Symbol_lt_irrefl : forall x, Symbol_lt x x = false.
Hypothesis Symbol_lt_trans :
  forall x y z, Symbol_lt x y = true -> Symbol_lt y z = true -> Symbol_lt x z = true.
Hypothesis Symbol_lt_total :
  forall x y, Symbol_lt x y = false -> Symbol_lt y x = false -> x = y.

Lemma ParseActionType_rank_inj (t1 t2 : ParseActionType) :
  ParseActionType_rank t1 = ParseActionType_rank t2 -> t1 = t2.
Proof. destruct t1, t2; cbn; congruence. Qed.

Lemma bool_rank_inj (b1 b2 : bool) : bool_rank b1 = bool_rank b2 -> b1 = b2.
Proof. destruct b1, b2; cbn; congruence. Qed.

Lemma ProductionPtr_rank_inj (p q : ProductionPtr) :
  ProductionPtr_rank p = ProductionPtr_rank q -> p = q.
Proof. destruct p, q; cbn; intros Heq; try lia; congruence. Qed.

Lemma ProductionPtr_lt_rank (p q : ProductionPtr) :
  ProductionPtr_lt p q = true <-> ProductionPtr_rank p < ProductionPtr_rank q.
Proof.
  destruct p as [a|], q as [b|]; cbn [ProductionPtr_lt ProductionPtr_rank].
  - rewrite Pos.ltb_lt. reflexivity.
  - split; [discriminate | lia].
  - split; [lia | reflexivity].
  - split; [discriminate | lia].
Qed.

Lemma bool_rank_lt (b1 b2 : bool) :
  b1 && negb b2 = true <-> bool_rank b1 < bool_rank b2.
Proof. destruct b1, b2; cbn; split; (discriminate || lia || reflexivity). Qed.

(** [operator<] compares the keys of two actions field by field. *)
Lemma ParseAction_ltb_key (a b : Action) :
  ParseAction_ltb Symbol_lt a b = true <->
  ParseAction_key_lt Symbol_lt (ParseAction_key a) (ParseAction_key b).
Proof.
  unfold ParseAction_ltb, ParseAction_key_lt, ParseAction_key, lexprod.
  cbn [fst snd].
  destruct (Z.ltb_spec (ParseActionType_rank (type a)) (ParseActionType_rank (type b)));
    [tauto|].
  destruct (Z.ltb_spec (ParseActionType_rank (type b)) (ParseActionType_rank (type a))).
  { split; [discriminate|]. intros [? | [? _]]; lia. }
  pose proof (bool_rank_lt (extra a) (extra b)) as Hx1.
  pose proof (bool_rank_lt (extra b) (extra a)) as Hx2.
  destruct (extra a && negb (extra b)); [intuition lia|].
  destruct (extra b && negb (extra a)).
  { split; [discriminate|]. intuition lia. }
  pose proof (bool_rank_lt (fragile a) (fragile b)) as Hf1.
  pose proof (bool_rank_lt (fragile b) (fragile a)) as Hf2.
  destruct (fragile a && negb (fragile b)); [intuition lia|].
  destruct (fragile b && negb (fragile a)).
  { split; [discriminate|]. intuition lia. }
  assert (Hre : bool_rank (extra a) = bool_rank (extra b)).
  { destruct (Z.lt_trichotomy (bool_rank (extra a)) (bool_rank (extra b)))
      as [Hlt | [Heq | Hgt]]; [|exact Heq|].
    - apply Hx1 in Hlt. discriminate.
    - apply Hx2 in Hgt. discriminate. }
  assert (Hrf : bool_rank (fragile a) = bool_rank (fragile b)).
  { destruct (Z.lt_trichotomy (bool_rank (fragile a)) (bool_rank (fragile b)))
      as [Hlt | [Heq | Hgt]]; [|exact Heq|].
    - apply Hf1 in Hlt. discriminate.
    - apply Hf2 in Hgt. discriminate. }
  assert (Hrt : ParseActionType_rank (type a) = ParseActionType_rank (type b)) by lia.
  clear Hx1 Hx2 Hf1 Hf2.
  destruct (Symbol_lt (symbol a) (symbol b)) eqn:Hs1.
  { split; [|reflexivity]. intros _. right. split; [exact Hrt|].
    right. split; [exact Hre|]. right. split; [exact Hrf|]. left. reflexivity. }
  destruct (Symbol_lt (symbol b) (symbol a)) eqn:Hs2.
  { split; [discriminate|].
    intros [? | [_ [? | [_ [? | [_ [? | [Heq _]]]]]]]]; try lia; try discriminate.
    rewrite Heq, Symbol_lt_irrefl in Hs2. discriminate. }
  pose proof (Symbol_lt_total _ _ Hs1 Hs2) as Hsym.
  pose proof (ProductionPtr_lt_rank (production a) (production b)) as Hp1.
  pose proof (ProductionPtr_lt_rank (production b) (production a)) as Hp2.
  destruct (Z.ltb_spec (state_index a) (state_index b)).
  { split; [|reflexivity]. intros _. right. split; [exact Hrt|].
    right. split; [exact Hre|]. right. split; [exact Hrf|].
    right. split; [exact Hsym|]. left. assumption. }
  destruct (Z.ltb_spec (state_index b) (state_index a)).
  { split; [discriminate|].
    intros [? | [_ [? | [_ [? | [_ [? | [_ [? | [? _]]]]]]]]]];
      try lia; discriminate. }
  destruct (ProductionPtr_lt (production a) (production b)).
  { split; [|reflexivity]. intros _. right. split; [exact Hrt|].
    right. split; [exact Hre|]. right. split; [exact Hrf|].
    right. split; [exact Hsym|]. right. split; [lia|]. left.
    apply Hp1. reflexivity. }
  destruct (ProductionPtr_lt (production b) (production a)).
  { split; [discriminate|].
    assert (ProductionPtr_rank (production b) < ProductionPtr_rank (production a))
      by (apply Hp2; reflexivity).
    intros [? | [_ [? | [_ [? | [_ [? | [_ [? | [_ [? | [? _]]]]]]]]]]]];
      try lia; discriminate. }
  assert (Hrp : ProductionPtr_rank (production a) = ProductionPtr_rank (production b)).
  { destruct (Z.lt_trichotomy (ProductionPtr_rank (production a))
                (ProductionPtr_rank (production b))) as [Hlt | [Heq | Hgt]];
      [|exact Heq|].
    - apply Hp1 in Hlt. discriminate.
    - apply Hp2 in Hgt. discriminate. }
  rewrite Z.ltb_lt. split.
  - intros Hlt. right. split; [exact Hrt|].
    right. split; [exact Hre|]. right. split; [exact Hrf|].
    right. split; [exact Hsym|]. right. split; [lia|].
    right. split; [exact Hrp | exact Hlt].
  - intros [? | [_ [? | [_ [? | [_ [? | [_ [? | [_ [? | [_ ?]]]]]]]]]]]];
      try lia; discriminate.
Qed.

(** [operator==] compares the same keys. *)
Lemma ParseAction_eqb_key (a b : Action) :
  ParseAction_eqb a b = true <-> ParseAction_key a = ParseAction_key b.
Proof.
  unfold ParseAction_eqb, ParseAction_key.
  rewrite !andb_true_iff, !bool_decide_eq_true, !Bool.eqb_true_iff, !Z.eqb_eq.
  split.
  - intros ((((((-> & ->) & ->) & ->) & ->) & ->) & ->). reflexivity.
  - intros [= Ht Hx Hf Hs Hi Hp Hc].
    apply ParseActionType_rank_inj in Ht. apply bool_rank_inj in Hx.
    apply bool_rank_inj in Hf. apply ProductionPtr_rank_inj in Hp.
    repeat split; assumption.
Qed.

Lemma ParseAction_key_lt_irrefl k : ~ ParseAction_key_lt Symbol_lt k k.
Proof.
  unfold ParseAction_key_lt.
  repeat (apply lexprod_irrefl; [intros ?; lia|]); try (intros ?; lia).
  apply lexprod_irrefl.
  - intros x Hx. rewrite Symbol_lt_irrefl in Hx. discriminate.
  - repeat (apply lexprod_irrefl; [intros ?; lia|]). intros ?; lia.
Qed.

Lemma ParseAction_key_lt_trans k1 k2 k3 :
  ParseAction_key_lt Symbol_lt k1 k2 -> ParseAction_key_lt Symbol_lt k2 k3 ->
  ParseAction_key_lt Symbol_lt k1 k3.
Proof.
  unfold ParseAction_key_lt.
  repeat (apply lexprod_trans; [intros ? ? ?; lia|]).
  apply lexprod_trans; [exact Symbol_lt_trans|].
  repeat (apply lexprod_trans; [intros ? ? ?; lia|]). intros ? ? ?; lia.
Qed.

Lemma ParseAction_key_lt_total k1 k2 :
  ParseAction_key_lt Symbol_lt k1 k2 \/ k1 = k2 \/ ParseAction_key_lt Symbol_lt k2 k1.
Proof.
  unfold ParseAction_key_lt.
  repeat (apply lexprod_total; [intros ? ?; lia|]).
  apply lexprod_total.
  - intros x y. destruct (Symbol_lt x y) eqn:H1; [tauto|].
    destruct (Symbol_lt y x) eqn:H2; [tauto|].
    right. left. apply Symbol_lt_total; assumption.
  - repeat (apply lexprod_total; [intros ? ?; lia|]). intros ? ?; lia.
Qed.

(** X1.  Over symbols in a strict total order, [ParseAction::operator<]
    is a strict order on actions (nothing is below itself, and it is
    transitive), and two actions are equal for [operator==] exactly
    when neither is below the other.  Neither operator reads the
    precedence range or the associativity. *)
Theorem ParseAction_lt_strict_order_up_to_eq :
  (forall a : Action, ParseAction_ltb Symbol_lt a a = false) /\
  (forall a b c : Action,
     ParseAction_ltb Symbol_lt a b = true -> ParseAction_ltb Symbol_lt b c = true ->
     ParseAction_ltb Symbol_lt a c = true) /\
  (forall a b : Action,
     ParseAction_eqb a b = true <->
     ParseAction_ltb Symbol_lt a b = false /\ ParseAction_ltb Symbol_lt b a = false).
Proof.
  split; [|split].
  - intros a. apply not_true_is_false. rewrite ParseAction_ltb_key.
    apply ParseAction_key_lt_irrefl.
  - intros a b c. rewrite !ParseAction_ltb_key. apply ParseAction_key_lt_trans.
  - intros a b. rewrite ParseAction_eqb_key.
    rewrite <- !not_true_iff_false, !ParseAction_ltb_key. split.
    + intros ->. split; apply ParseAction_key_lt_irrefl.
    + intros [Hab Hba].
      destruct (ParseAction_key_lt_total (ParseAction_key a) (ParseAction_key b))
        as [Hlt | [Heq | Hgt]]; [contradiction | exact Heq | contradiction].
Qed.

End ParseActionOrder.

Lemma ParseAction_lt_strict_order_witness :
  (forall x, Z.ltb x x = false) /\
  (ParseTable.ParseAction_eqb Inputs.accept_action Inputs.accept_action = true <->
   ParseTable.ParseAction_ltb Z.ltb Inputs.accept_action Inputs.accept_action = false /\
   ParseTable.ParseAction_ltb Z.ltb Inputs.accept_action Inputs.accept_action = false).
Proof.
  assert (Hirrefl : forall x, Z.ltb x x = false) by (intros x; apply Z.ltb_irrefl).
  split; [exact Hirrefl|].
  apply (ParseAction_lt_strict_order_up_to_eq (Symbol := Z)
           (PrecedenceRange := unit) (Associativity := unit) Z.ltb Hirrefl).
  - intros x y z. rewrite !Z.ltb_lt. lia.
  - intros x y. rewrite !Z.ltb_ge. lia.
Defined.

(** ** The parse table: building a table *)

Section ParseTableOps.
Import ParseTable.

Context {Symbol : Type} `{Countable Symbol}.
Context {PrecedenceRange Associativity : Type}.

Local Abbreviation Action := (ParseAction (Symbol := Symbol) PrecedenceRange Associativity).
Local Abbreviation Table := (ParseTable.ParseTable (Symbol := Symbol) PrecedenceRange Associativity).
Local Abbreviation State := (ParseState (Symbol := Symbol) PrecedenceRange Associativity).

(** Both operations put one entry in one state and mark one symbol. *)
Lemma add_action_shape (t t1 : Table) (id : nat) (s : Symbol) (a : Action) (k : nat) :
  add_action t id s a = Some (t1, k) ->
  exists st e, states t !! id = Some st /\
    t1 = set_entry t id st s e (mark_symbol t s a) /\
    reusable e = reusable (entry_at st s) /\
    depends_on_lookahead e = depends_on_lookahead (entry_at st s).
Proof.
  unfold add_action.
  destruct (states t !! id) as [st|]; [|discriminate].
  destruct (find_existing a (actions (entry_at st s))); intros [= <- <-];
    eexists _, _; repeat split.
Qed.

Lemma set_action_shape (t t1 : Table) (id : nat) (s : Symbol) (a : Action) (k : nat) :
  set_action t id s a = Some (t1, k) ->
  exists st e, states t !! id = Some st /\
    t1 = set_entry t id st s e (mark_symbol t s a) /\
    reusable e = reusable (entry_at st s) /\
    depends_on_lookahead e = depends_on_lookahead (entry_at st s).
Proof.
  unfold set_action.
  destruct (states t !! id) as [st|]; [|discriminate].
  intros [= <- <-]. eexists _, _; repeat split.
Qed.

Lemma set_entry_frame (t : Table) (id : nat) (st : State) (s : Symbol)
  (e : ParseTableEntry PrecedenceRange Associativity) syms :
  states t !! id = Some st ->
  length (states (set_entry t id st s e syms)) = length (states t) /\
  error_state (set_entry t id st s e syms) = error_state t /\
  (forall id' st', states (set_entry t id st s e syms) !! id' = Some st' ->
     exists st0, states t !! id' = Some st0 /\ lex_state_id st' = lex_state_id st0) /\
  (forall id' s', (id' <> id \/ s' <> s) ->
     (states (set_entry t id st s e syms) !! id' ≫= fun st' => entries st' !! s')
     = (states t !! id' ≫= fun st' => entries st' !! s')).
Proof.
  intros Hst. unfold set_entry. cbn [states error_state].
  assert (Hlt : (id < length (states t))%nat) by (eapply lookup_lt_Some; eauto).
  split; [apply length_insert|]. split; [reflexivity|]. split.
  - intros id' st'. destruct (decide (id' = id)) as [->|Hne].
    + rewrite list_lookup_insert_eq by exact Hlt. intros [= <-]. eauto.
    + rewrite list_lookup_insert_ne by congruence. eauto.
  - intros id' s' Hdiff. destruct (decide (id' = id)) as [->|Hne].
    + rewrite list_lookup_insert_eq by exact Hlt. rewrite Hst. cbn.
      destruct Hdiff as [? | Hs]; [congruence|].
      rewrite lookup_insert_ne by congruence. reflexivity.
    + rewrite list_lookup_insert_ne by congruence. reflexivity.
Qed.

(** X2.  [add_action] and [set_action] on entry [(id, symbol)] touch
    nothing else in the array of states: the number of states, the error
    state and the lexical state of every state stay, every entry of
    another state or of another symbol is what it was (present or
    absent), and the flags [reusable] and [depends_on_lookahead] of the
    entry itself are kept. *)
Theorem table_update_frame (t t1 : Table) (id : nat) (s : Symbol) (a : Action)
  (k : nat) :
  add_action t id s a = Some (t1, k) \/ set_action t id s a = Some (t1, k) ->
  length (states t1) = length (states t) /\
  error_state t1 = error_state t /\
  (forall id' st', states t1 !! id' = Some st' ->
     exists st0, states t !! id' = Some st0 /\ lex_state_id st' = lex_state_id st0) /\
  (forall id' s', (id' <> id \/ s' <> s) ->
     (states t1 !! id' ≫= fun st' => entries st' !! s')
     = (states t !! id' ≫= fun st' => entries st' !! s')) /\
  (exists st st1, states t !! id = Some st /\ states t1 !! id = Some st1 /\
     reusable (entry_at st1 s) = reusable (entry_at st s) /\
     depends_on_lookahead (entry_at st1 s) = depends_on_lookahead (entry_at st s)).
Proof.
  intros Hop.
  assert (Hshape : exists st e, states t !! id = Some st /\
            t1 = set_entry t id st s e (mark_symbol t s a) /\
            reusable e = reusable (entry_at st s) /\
            depends_on_lookahead e = depends_on_lookahead (entry_at st s)).
  { destruct Hop as [Hop | Hop];
      [eapply add_action_shape | eapply set_action_shape]; eauto. }
  destruct Hshape as (st & e & Hst & -> & Hr & Hd).
  destruct (set_entry_frame t id st s e (mark_symbol t s a) Hst)
    as (Hlen & Herr & Hlex & Hframe).
  repeat split; try assumption.
  exists st. eexists. split; [exact Hst|]. split.
  - unfold set_entry. cbn [states]. apply list_lookup_insert_eq.
    eapply lookup_lt_Some; eauto.
  - rewrite entry_at_insert. split; assumption.
Qed.

(** X3.  [add_action] never removes or reorders the actions of an
    entry: the list afterwards is the old list, or the old list with the
    new action at its end; and the reference returned designates the
    first action of the list that is equal, for [operator==], to the one
    given. *)
Theorem add_action_extends (t t1 : Table) (id : nat) (s : Symbol) (a : Action)
  (k : nat) :
  add_action t id s a = Some (t1, k) ->
  (actions_at t1 id s = actions_at t id s \/
   actions_at t1 id s = actions_at t id s ++ [a]) /\
  exists e, actions_at t1 id s !! k = Some e /\ ParseAction_eqb e a = true /\
    forall j e', (j < k)%nat -> actions_at t1 id s !! j = Some e' ->
      ParseAction_eqb e' a = false.
Proof.
  intros Hadd. rewrite (actions_at_add_action _ _ _ _ _ _ Hadd).
  revert Hadd. unfold add_action, actions_at.
  destruct (states t !! id) as [st|]; [|discriminate].
  destruct (find_existing a (actions (entry_at st s))) as [k'|] eqn:Hf;
    intros [= <- <-].
  - split; [left; reflexivity|].
    destruct (find_existing_Some _ _ _ Hf) as (e & Hl & He & Hfirst). eauto.
  - split; [right; reflexivity|].
    exists a. split; [apply list_lookup_middle; reflexivity|].
    split; [apply ParseAction_eqb_refl|].
    intros j e' Hj Hl. rewrite lookup_app_l in Hl by exact Hj.
    apply (proj1 (find_existing_None _ _) Hf).
    apply list_elem_of_In. eapply list_elem_of_lookup_2. exact Hl.
Qed.

(** X4.  [set_action] replaces whatever the entry held: afterwards the
    entry holds the one action, at index 0.  A following [add_action]
    on the same entry finds that action if it is given an equal one, and
    otherwise appends its own at index 1. *)
Theorem set_action_then_add_action (t t1 : Table) (id : nat) (s : Symbol)
  (a : Action) (k1 : nat) :
  set_action t id s a = Some (t1, k1) ->
  k1 = O /\ actions_at t1 id s = [a] /\
  forall b : Action, exists t2,
    add_action t1 id s b
      = Some (t2, if ParseAction_eqb a b then O else 1%nat) /\
    actions_at t2 id s = if ParseAction_eqb a b then [a] else [a; b].
Proof.
  unfold set_action.
  destruct (states t !! id) as [st|] eqn:Hst; [|discriminate].
  assert (Hlt : (id < length (states t))%nat) by (eapply lookup_lt_Some; eauto).
  intros [= <- <-]. split; [reflexivity|].
  assert (Hacts : forall e syms,
            actions_at (set_entry t id st s e syms) id s = actions e).
  { intros e syms. unfold actions_at, set_entry. cbn [states].
    rewrite list_lookup_insert_eq by exact Hlt. rewrite entry_at_insert.
    reflexivity. }
  split; [apply Hacts|].
  intros b.
  set (e1 := {| actions := [a]; reusable := reusable (entry_at st s);
                depends_on_lookahead := depends_on_lookahead (entry_at st s) |}).
  set (st1 := {| entries := <[s := e1]> (entries st);
                 lex_state_id := lex_state_id st |}).
  set (t1 := set_entry t id st s e1 (mark_symbol t s a)).
  assert (Hst1 : states t1 !! id = Some st1)
    by (unfold t1, set_entry; cbn [states]; apply list_lookup_insert_eq; exact Hlt).
  assert (Hlt1 : (id < length (states t1))%nat) by (eapply lookup_lt_Some; eauto).
  assert (He1 : entry_at st1 s = e1) by apply entry_at_insert.
  unfold add_action. rewrite Hst1, He1. cbn [e1 actions find_existing].
  destruct (ParseAction_eqb a b); cbn [option_map];
    eexists; (split; [reflexivity|]); unfold actions_at, set_entry; cbn [states];
    rewrite list_lookup_insert_eq by exact Hlt1;
    rewrite entry_at_insert; reflexivity.
Qed.

(** X5.  [add_state] appends one state behind the states the table
    had and returns its index, the former number of states: the states
    before it, the error state and the symbols are unchanged, and the
    new state has no entry and the lexical state -1.  [add_action] on
    the id returned never goes out of range: it makes the entry hold the
    one action, the symbol being the only expected input of the new
    state, and leaves the states before it as they were. *)
Theorem add_state_then_add_action (t : Table) (s : Symbol) (a : Action) :
  let t1 := fst (add_state t) in
  let id := snd (add_state t) in
  id = length (states t) /\
  states t1 = states t ++ [ParseState_default] /\
  error_state t1 = error_state t /\
  symbols t1 = symbols t /\
  expected_inputs (Symbol := Symbol) (PrecedenceRange := PrecedenceRange)
    (Associativity := Associativity) ParseState_default = ∅ /\
  lex_state_id (Symbol := Symbol) (PrecedenceRange := PrecedenceRange)
    (Associativity := Associativity) ParseState_default = -1 /\
  exists st2,
    add_action t1 id s a
      = Some ({| states := states t ++ [st2];
                 error_state := error_state t;
                 symbols := mark_symbol t s a |}, O) /\
    entries st2 = {[ s := {| actions := [a]; reusable := true;
                             depends_on_lookahead := false |} ]} /\
    expected_inputs st2 = {[ s ]} /\
    lex_state_id st2 = -1.
Proof.
  cbn [add_state fst snd states error_state symbols].
  split; [reflexivity|]. split; [reflexivity|]. split; [reflexivity|].
  split; [reflexivity|].
  split; [unfold expected_inputs; cbn [ParseState_default entries];
          apply dom_empty_L|].
  split; [reflexivity|].
  assert (Hnew : (states t ++ [ParseState_default (Symbol := Symbol)
                                 (PrecedenceRange := PrecedenceRange)
                                 (Associativity := Associativity)])
                 !! length (states t) = Some ParseState_default)
    by (apply list_lookup_middle; reflexivity).
  unfold add_action. cbn [states]. rewrite Hnew.
  unfold entry_at at 1. cbn [ParseState_default entries].
  rewrite lookup_empty. cbn [default ParseTableEntry_default actions find_existing].
  eexists. split.
  { unfold set_entry. cbn [states error_state symbols].
    rewrite insert_app_r_alt by lia. rewrite Nat.sub_diag. cbn [insert list_insert].
    unfold mark_symbol, symbols_at. cbn [symbols]. reflexivity. }
  cbn [entries lex_state_id reusable depends_on_lookahead ParseTableEntry_default].
  split; [reflexivity|]. split; [|reflexivity].
  unfold expected_inputs. cbn [entries ParseState_default].
  rewrite dom_insert_L, dom_empty_L. apply union_empty_r_L.
Qed.

Lemma mark_symbol_dom (t : Table) (s : Symbol) (a : Action) :
  dom (mark_symbol t s a) = {[ s ]} ∪ dom (symbols t).
Proof.
  unfold mark_symbol. destruct (extra a); apply dom_insert_L.
Qed.

(** X6.  A table in which every symbol with an entry in some state is
    among [all_symbols] stays so under [add_state], [add_action] and
    [set_action]; and the symbol given to [add_action] or [set_action]
    is afterwards an expected input of the state and one of
    [all_symbols]. *)
Theorem symbols_cover_kept (t : Table) :
  symbols_cover t ->
  symbols_cover (fst (add_state t)) /\
  forall id s (a : Action) t1 k,
    add_action t id s a = Some (t1, k) \/ set_action t id s a = Some (t1, k) ->
    symbols_cover t1 /\ s ∈ all_symbols t1 /\
    exists st1, states t1 !! id = Some st1 /\ s ∈ expected_inputs st1.
Proof.
  intros Hcover. split.
  - intros st Hin. cbn [add_state fst states] in Hin.
    unfold all_symbols. cbn [add_state fst symbols].
    apply elem_of_app in Hin as [Hin | Hin]; [apply Hcover, Hin|].
    apply list_elem_of_singleton in Hin as ->.
    unfold expected_inputs. cbn [ParseState_default entries].
    rewrite dom_empty_L. set_solver.
  - intros id s a t1 k Hop.
    assert (Hshape : exists st e, states t !! id = Some st /\
              t1 = set_entry t id st s e (mark_symbol t s a)).
    { destruct Hop as [Hop | Hop];
        [apply add_action_shape in Hop | apply set_action_shape in Hop];
        destruct Hop as (st & e & ? & ? & _); eauto. }
    destruct Hshape as (st & e & Hst & ->).
    assert (Hlt : (id < length (states t))%nat) by (eapply lookup_lt_Some; eauto).
    split; [|split].
    + intros st' Hin. unfold all_symbols, set_entry in *. cbn [states symbols] in *.
      rewrite mark_symbol_dom.
      apply list_elem_of_lookup in Hin as (i & Hi).
      destruct (decide (i = id)) as [->|Hne].
      * rewrite list_lookup_insert_eq in Hi by exact Hlt. injection Hi as <-.
        unfold expected_inputs. cbn [entries]. rewrite dom_insert_L.
        assert (Hst' : st ∈ states t) by (eapply list_elem_of_lookup_2; eauto).
        specialize (Hcover st Hst'). unfold expected_inputs, all_symbols in Hcover.
        set_solver.
      * rewrite list_lookup_insert_ne in Hi by congruence.
        assert (Hst' : st' ∈ states t) by (eapply list_elem_of_lookup_2; eauto).
        specialize (Hcover st' Hst'). unfold all_symbols in Hcover. set_solver.
    + unfold all_symbols, set_entry. cbn [symbols]. rewrite mark_symbol_dom.
      set_solver.
    + eexists. split.
      * unfold set_entry. cbn [states]. apply list_lookup_insert_eq. exact Hlt.
      * unfold expected_inputs. cbn [entries]. rewrite dom_insert_L. set_solver.
Qed.

(** X7.  [add_action] and [set_action] only ever raise the flags of a
    symbol: the symbol of the call gets [extra] if the action is extra
    and [structural] if it is not, and every flag that was set on any
    symbol before is still set. *)
Theorem symbol_flags_raised (t t1 : Table) (id : nat) (s : Symbol) (a : Action)
  (k : nat) :
  add_action t id s a = Some (t1, k) \/ set_action t id s a = Some (t1, k) ->
  (if extra a then md_extra (symbols_at t1 s) else md_structural (symbols_at t1 s))
    = true /\
  forall s',
    (md_extra (symbols_at t s') = true -> md_extra (symbols_at t1 s') = true) /\
    (md_structural (symbols_at t s') = true ->
     md_structural (symbols_at t1 s') = true).
Proof.
  intros Hop.
  assert (Hshape : exists st e, t1 = set_entry t id st s e (mark_symbol t s a)).
  { destruct Hop as [Hop | Hop];
      [apply add_action_shape in Hop | apply set_action_shape in Hop];
      destruct Hop as (st & e & ? & ? & _); eauto. }
  destruct Hshape as (st & e & ->).
  assert (Hat : forall s',
            symbols_at (set_entry t id st s e (mark_symbol t s a)) s'
            = default {| md_extra := false; md_structural := false |}
                (mark_symbol t s a !! s')) by reflexivity.
  split.
  - rewrite Hat. unfold mark_symbol.
    destruct (extra a); rewrite lookup_insert_eq; reflexivity.
  - intros s'. rewrite Hat. unfold mark_symbol.
    destruct (extra a), (decide (s' = s)) as [->|Hne];
      rewrite ?lookup_insert_eq, ?lookup_insert_ne by congruence;
      cbn [default md_extra md_structural]; unfold symbols_at; split; auto.
Qed.

Lemma ParseAction_eqb_sym (a b : Action) :
  ParseAction_eqb a b = ParseAction_eqb b a.
Proof.
  apply eq_true_iff_eq. rewrite !ParseAction_eqb_key. split; congruence.
Qed.

Lemma ParseAction_eqb_trans (a b c : Action) :
  ParseAction_eqb a b = true -> ParseAction_eqb b c = true ->
  ParseAction_eqb a c = true.
Proof. rewrite !ParseAction_eqb_key. congruence. Qed.

Lemma find_existing_eq (a b : Action) (l : list Action) :
  ParseAction_eqb a b = true -> find_existing a l = find_existing b l.
Proof.
  intros Hab. induction l as [|x l IH]; cbn [find_existing]; [reflexivity|].
  rewrite IH.
  assert (Hx : ParseAction_eqb x a = ParseAction_eqb x b).
  { apply eq_true_iff_eq. split; intros Hx.
    - eapply ParseAction_eqb_trans; eauto.
    - eapply ParseAction_eqb_trans; [exact Hx|]. rewrite ParseAction_eqb_sym.
      exact Hab. }
  rewrite Hx. reflexivity.
Qed.

(** X8.  An action that is equal, for [operator==], to one that was
    added is not added again: after [add_action] of [a], [add_action]
    of any [b] with [a == b] on the same entry leaves the table as it is
    and returns the reference that the first call returned.  As
    [operator==] does not read them, [b] may differ from [a] in its
    precedence range and in its associativity, which are then lost. *)
Theorem add_action_drops_equal (t t1 : Table) (id : nat) (s : Symbol)
  (a b : Action) (k1 : nat) :
  ParseAction_eqb a b = true ->
  add_action t id s a = Some (t1, k1) ->
  add_action t1 id s b = Some (t1, k1).
Proof.
  intros Hab Hadd.
  assert (Hextra : extra b = extra a).
  { apply ParseAction_eqb_key in Hab. injection Hab as _ Hx _ _ _ _ _.
    symmetry. apply bool_rank_inj. exact Hx. }
  revert Hadd. unfold add_action.
  destruct (states t !! id) as [st|] eqn:Hst; [|discriminate].
  assert (Hlt : (id < length (states t))%nat) by (eapply lookup_lt_Some; eauto).
  intros Hadd.
  assert (exists e', t1 = set_entry t id st s e' (mark_symbol t s a) /\
            find_existing a (actions e') = Some k1) as (e' & -> & Hf').
  { destruct (find_existing a (actions (entry_at st s))) as [k|] eqn:Hf;
      injection Hadd as <- <-.
    - exists (entry_at st s). split; [reflexivity | exact Hf].
    - eexists. split; [reflexivity|]. cbn [actions].
      apply find_existing_snoc, Hf. }
  assert (Hmark : mark_symbol (set_entry t id st s e' (mark_symbol t s a)) s b
                  = mark_symbol t s a).
  { rewrite <- (mark_symbol_idem t st id s e' a) at 2.
    unfold mark_symbol. rewrite Hextra. reflexivity. }
  rewrite Hmark.
  unfold set_entry at 1. cbn [states].
  rewrite list_lookup_insert_eq by exact Hlt.
  rewrite !entry_at_insert.
  rewrite <- (find_existing_eq a b _ Hab), Hf'.
  unfold set_entry. cbn [states entries lex_state_id error_state].
  rewrite list_insert_insert_eq, insert_insert_eq. reflexivity.
Qed.

End ParseTableOps.

Lemma table_update_frame_witness :
  exists t1 k,
    ParseTable.set_action Inputs.one_state_table 0%nat 5 Inputs.accept_action
      = Some (t1, k) /\
    length (ParseTable.states t1) = length (ParseTable.states Inputs.one_state_table) /\
    ParseTable.error_state t1 = ParseTable.error_state Inputs.one_state_table.
Proof.
  destruct (ParseTable.set_action Inputs.one_state_table 0%nat 5 Inputs.accept_action)
    as [[t1 k]|] eqn:Hset.
  - exists t1, k. split; [reflexivity|].
    destruct (table_update_frame _ _ _ _ _ _ (or_intror Hset)) as (Hlen & Herr & _).
    split; assumption.
  - discriminate Hset.
Defined.

Lemma add_action_extends_witness :
  exists t1 k,
    ParseTable.add_action Inputs.one_state_table 0%nat 5 Inputs.accept_action
      = Some (t1, k) /\
    exists e, ParseTable.actions_at t1 0%nat 5 !! k = Some e /\
              ParseTable.ParseAction_eqb e Inputs.accept_action = true.
Proof.
  destruct (ParseTable.add_action Inputs.one_state_table 0%nat 5 Inputs.accept_action)
    as [[t1 k]|] eqn:Hadd.
  - exists t1, k. split; [reflexivity|].
    destruct (add_action_extends _ _ _ _ _ _ Hadd) as (_ & e & Hl & He & _).
    exists e. split; assumption.
  - discriminate Hadd.
Defined.

Lemma set_action_then_add_action_witness :
  exists t1 k1,
    ParseTable.set_action Inputs.shift_table 0%nat 5 Inputs.shift_low = Some (t1, k1) /\
    exists t2,
      ParseTable.add_action t1 0%nat 5 Inputs.shift_high = Some (t2, O) /\
      ParseTable.actions_at t2 0%nat 5 = [Inputs.shift_low].
Proof.
  destruct (ParseTable.set_action Inputs.shift_table 0%nat 5 Inputs.shift_low)
    as [[t1 k1]|] eqn:Hset.
  - exists t1, k1. split; [reflexivity|].
    destruct (set_action_then_add_action _ _ _ _ _ _ Hset) as (_ & _ & Hadd).
    exact (Hadd Inputs.shift_high).
  - discriminate Hset.
Defined.

Lemma symbols_cover_kept_witness :
  ParseTable.symbols_cover Inputs.one_state_table /\
  exists t1 k,
    ParseTable.add_action Inputs.one_state_table 0%nat 5 Inputs.accept_action
      = Some (t1, k) /\
    ParseTable.symbols_cover t1 /\ 5 ∈ ParseTable.all_symbols t1.
Proof.
  assert (Hcover : ParseTable.symbols_cover Inputs.one_state_table).
  { intros st Hin. apply list_elem_of_singleton in Hin as ->.
    unfold ParseTable.expected_inputs. cbn. rewrite dom_empty_L.
    apply empty_subseteq. }
  split; [exact Hcover|].
  destruct (ParseTable.add_action Inputs.one_state_table 0%nat 5 Inputs.accept_action)
    as [[t1 k]|] eqn:Hadd.
  - exists t1, k. split; [reflexivity|].
    destruct (proj2 (symbols_cover_kept _ Hcover) _ _ _ _ _ (or_introl Hadd))
      as (Hcover1 & Hin & _).
    split; assumption.
  - discriminate Hadd.
Defined.

Lemma symbol_flags_raised_witness :
  exists t1 k,
    ParseTable.add_action Inputs.one_state_table 0%nat 5 Inputs.accept_action
      = Some (t1, k) /\
    ParseTable.md_structural (ParseTable.symbols_at t1 5) = true.
Proof.
  destruct (ParseTable.add_action Inputs.one_state_table 0%nat 5 Inputs.accept_action)
    as [[t1 k]|] eqn:Hadd.
  - exists t1, k. split; [reflexivity|].
    exact (proj1 (symbol_flags_raised _ _ _ _ _ _ (or_introl Hadd))).
  - discriminate Hadd.
Defined.

Lemma add_action_drops_equal_witness :
  Inputs.shift_low <> Inputs.shift_high /\
  exists t1 k1,
    ParseTable.add_action Inputs.shift_table 0%nat 5 Inputs.shift_low = Some (t1, k1) /\
    ParseTable.add_action t1 0%nat 5 Inputs.shift_high = Some (t1, k1) /\
    ParseTable.actions_at t1 0%nat 5 = [Inputs.shift_low].
Proof.
  split; [discriminate|].
  assert (Heq : ParseTable.ParseAction_eqb Inputs.shift_low Inputs.shift_high = true)
    by (vm_compute; reflexivity).
  destruct (ParseTable.add_action Inputs.shift_table 0%nat 5 Inputs.shift_low)
    as [[t1 k1]|] eqn:Hadd.
  - exists t1, k1. split; [reflexivity|]. split.
    + apply (add_action_drops_equal _ _ _ _ Inputs.shift_low Inputs.shift_high _
               Heq Hadd).
    + injection Hadd as <- <-. reflexivity.
  - discriminate Hadd.
Defined.

(** ** Comparing versions from both sides *)

Section CompareVersionsMirror.
Import ErrorCosts.

Variable E : Z.

(** X9.  [parser__compare_versions] is symmetric: with its arguments
    exchanged it gives the mirror image of its answer ([TakeLeft] for
    [TakeRight], [PreferLeft] for [PreferRight]), whatever the products
    wrap to.  It answers [None] exactly when the two versions agree on
    being in error, on their cost and on their dynamic precedence. *)
Theorem compare_versions_mirror (a b : ErrorStatus) :
  parser__compare_versions E b a = comparison_mirror (parser__compare_versions E a b) /\
  (parser__compare_versions E a b = ErrorComparisonNone <->
   is_in_error a = is_in_error b /\ cost a = cost b /\
   dynamic_precedence a = dynamic_precedence b).
Proof.
  unfold parser__compare_versions.
  destruct (Z.ltb_spec (cost a) (cost b)), (Z.ltb_spec (cost b) (cost a));
    try lia;
    destruct (Z.gtb_spec (dynamic_precedence a) (dynamic_precedence b)),
      (Z.gtb_spec (dynamic_precedence b) (dynamic_precedence a));
    try lia;
    destruct (is_in_error a), (is_in_error b); cbn [negb andb];
    repeat match goal with
           | |- context [if ?c then _ else _] => destruct c
           end;
    (split;
     [reflexivity
     |split;
      [first [discriminate | intros _; repeat split; first [reflexivity | lia]]
      |first [reflexivity
             | intros (Hf & Hc & Hd); first [discriminate | lia]]]]).
Qed.

End CompareVersionsMirror.

(** ** Whether a better version exists *)

Section BetterVersionFacts.
Context {senv : StackEnv}.
Variable E : Z.

(** X10.  [parser__better_version_exists] answers [true] exactly when
    the finished tree costs no more than the given cost, or some other
    version that is active and not behind the given one compares as
    [TakeRight], or as [PreferRight] while it can be merged with the
    given version.  The version itself, inactive versions and versions
    behind it never count. *)
Theorem better_version_exists_iff (finished_tree : option Tree) (s : Stack)
  (version : StackVersion) (is_in_error : bool) (cost : Z) :
  let status :=
    {| ErrorCosts.cost := cost;
       ErrorCosts.is_in_error := is_in_error;
       ErrorCosts.dynamic_precedence := ts_stack_dynamic_precedence s version;
       ErrorCosts.node_count := ts_stack_node_count_since_error s version |} in
  parser__better_version_exists E finished_tree s version is_in_error cost = true <->
  (exists t, finished_tree = Some t /\ error_cost t <= cost) \/
  (exists i,
     0 <= i < ts_stack_version_count s /\ i <> version /\
     ts_stack_is_active s i = true /\
     bytes (ts_stack_position s version) <= bytes (ts_stack_position s i) /\
     (ErrorCosts.parser__compare_versions E status (version_status E s i)
        = ErrorCosts.ErrorComparisonTakeRight \/
      (ErrorCosts.parser__compare_versions E status (version_status E s i)
         = ErrorCosts.ErrorComparisonPreferRight /\
       ts_stack_can_merge s i version = true))).
Proof.
  intros status. unfold parser__better_version_exists. fold status.
  assert (Hat : forall i,
            better_version_at E s version (ts_stack_position s version) status i = true <->
            i <> version /\ ts_stack_is_active s i = true /\
            bytes (ts_stack_position s version) <= bytes (ts_stack_position s i) /\
            (ErrorCosts.parser__compare_versions E status (version_status E s i)
               = ErrorCosts.ErrorComparisonTakeRight \/
             (ErrorCosts.parser__compare_versions E status (version_status E s i)
                = ErrorCosts.ErrorComparisonPreferRight /\
              ts_stack_can_merge s i version = true))).
  { intros i. unfold better_version_at.
    destruct (Z.eqb_spec i version) as [Heq | Hne]; cbn [orb].
    { split; [discriminate | tauto]. }
    destruct (ts_stack_is_active s i); cbn [negb orb].
    2:{ split; [discriminate|]. intros (_ & Habs & _). discriminate. }
    destruct (Z.ltb_spec (bytes (ts_stack_position s i))
                (bytes (ts_stack_position s version))) as [Hlt | Hge].
    { split; [discriminate|]. intros (_ & _ & Habs & _). lia. }
    destruct (ErrorCosts.parser__compare_versions E status (version_status E s i)).
    - split; [discriminate|].
      intros (_ & _ & _ & [Habs | [Habs _]]); discriminate.
    - split; [discriminate|].
      intros (_ & _ & _ & [Habs | [Habs _]]); discriminate.
    - split; [discriminate|].
      intros (_ & _ & _ & [Habs | [Habs _]]); discriminate.
    - split.
      + intros Hm. split; [exact Hne|]. split; [reflexivity|]. split; [lia|].
        right. split; [reflexivity | exact Hm].
      + intros (_ & _ & _ & [Habs | [_ Hm]]); [discriminate | exact Hm].
    - split; [|reflexivity].
      intros _. split; [exact Hne|]. split; [reflexivity|]. split; [lia|].
      left. reflexivity. }
  destruct finished_tree as [t|].
  - destruct (Z.leb_spec (error_cost t) cost) as [Hle | Hgt].
    + split; [|reflexivity]. intros _. left. eauto.
    + rewrite existsb_exists. split.
      * intros (i & Hin & Hi). right. exists i.
        apply in_map_iff in Hin as (n & <- & Hn). apply in_seq in Hn.
        apply Hat in Hi. unfold ts_stack_version_count. split; [lia | exact Hi].
      * intros [(t' & [= <-] & Hle) | (i & Hr & Hi)]; [lia|].
        exists i. split; [|apply Hat, Hi].
        apply in_map_iff. exists (Z.to_nat i). split; [lia|].
        apply in_seq. unfold ts_stack_version_count in Hr. lia.
  - rewrite existsb_exists. split.
    + intros (i & Hin & Hi). right. exists i.
      apply in_map_iff in Hin as (n & <- & Hn). apply in_seq in Hn.
      apply Hat in Hi. unfold ts_stack_version_count. split; [lia | exact Hi].
    + intros [(t' & [=] & _) | (i & Hr & Hi)].
      exists i. split; [|apply Hat, Hi].
      apply in_map_iff. exists (Z.to_nat i). split; [lia|].
      apply in_seq. unfold ts_stack_version_count in Hr. lia.
Qed.

End BetterVersionFacts.

(** ** Selection in reductions and acceptance *)

Lemma no_worse_refl (t : Tree) : no_worse t t.
Proof. unfold no_worse. lia. Qed.

Lemma no_worse_trans (t1 t2 t3 : Tree) :
  no_worse t1 t2 -> no_worse t2 t3 -> no_worse t1 t3.
Proof. unfold no_worse. lia. Qed.

Lemma select_tree_no_worse (cmp : Tree -> Tree -> Z) (l r : Tree) :
  if parser__select_tree cmp (Some l) (Some r) then no_worse r l else no_worse l r.
Proof.
  unfold parser__select_tree, no_worse.
  destruct (Z.ltb_spec (error_cost r) (error_cost l)); [lia|].
  destruct (Z.ltb_spec (error_cost l) (error_cost r)); [lia|].
  destruct (Z.gtb_spec (dynamic_precedence r) (dynamic_precedence l)); [lia|].
  destruct (Z.gtb_spec (dynamic_precedence l) (dynamic_precedence r)); [lia|].
  repeat match goal with |- context [if ?c then _ else _] => destruct c end; lia.
Qed.

Section ReduceChoice.
Context {senv : StackEnv} {tenv : TreeEnv}.

(** X11.  Among the slices that a pop returns, [parser__reduce] treats
    the run of slices that follow a slice and share its version as
    alternatives for one parent: exactly that run is consumed, the slice
    kept has the version of the first, and the parent that results is no
    worse than the parent made from the first slice, that is, it does
    not cost more and at equal cost has no lower dynamic precedence. *)
Theorem reduce_alternatives_choice (rest : StackSliceArray) :
  forall parent slice parent' slice' rest',
    reduce_alternatives parent slice rest = (parent', slice', rest') ->
    no_worse parent' parent /\
    slice_version slice' = slice_version slice /\
    exists k : nat,
      rest' = drop k rest /\
      Forall (fun next => slice_version next = slice_version slice) (take k rest) /\
      match rest' with
      | [] => True
      | next :: _ => slice_version next <> slice_version slice
      end.
Proof.
  induction rest as [|next rest IH]; intros parent slice parent' slice' rest';
    cbn [reduce_alternatives].
  - intros [= <- <- <-]. split; [apply no_worse_refl|]. split; [reflexivity|].
    exists O. repeat split. constructor.
  - destruct (Z.eqb_spec (slice_version next) (slice_version slice)) as [Heq | Hne];
      cbn [negb].
    + unfold parser__replace_children.
      pose proof (select_tree_no_worse ts_tree_compare parent
                    (ts_tree_set_children (set_children [] parent)
                       (strip_trailing_extras (slice_trees next)))) as Hsel.
      destruct (parser__select_tree ts_tree_compare (Some parent) _); intros Hr;
        apply IH in Hr as (Hw & Hv & k & Hdrop & Hrun & Hnext).
      * split; [eapply no_worse_trans; eauto|]. split; [congruence|].
        exists (S k). cbn [drop take]. split; [exact Hdrop|]. split.
        -- apply Forall_cons. split; [exact Heq|].
           eapply Forall_impl; [exact Hrun|]. cbn. intros x Hx. congruence.
        -- destruct rest'; [exact I | congruence].
      * split; [exact Hw|]. split; [exact Hv|].
        exists (S k). cbn [drop take]. split; [exact Hdrop|]. split.
        -- apply Forall_cons. split; [exact Heq | exact Hrun].
        -- exact Hnext.
    + intros [= <- <- <-]. split; [apply no_worse_refl|]. split; [reflexivity|].
      exists O. cbn [drop take]. repeat split; [constructor | exact Hne].
Qed.

End ReduceChoice.

Section AcceptFacts.
Context {lenv : LexEnv} {senv : StackEnv} {tenv : TreeEnv}.

Lemma accept_slices_best (pop : StackSliceArray) :
  forall finished_tree accept_count finished_tree' accept_count',
    accept_slices pop finished_tree accept_count
      = Some (finished_tree', accept_count') ->
    accept_count' = match pop with
                    | [] => accept_count
                    | _ :: _ => u32 (accept_count + Z.of_nat (length pop))
                    end /\
    (pop <> [] -> finished_tree' <> None) /\
    (forall t, finished_tree = Some t ->
       exists t', finished_tree' = Some t' /\ no_worse t' t).
Proof.
  induction pop as [|slice pop IH]; intros f c f' c'; cbn [accept_slices].
  - intros [= <- <-]. split; [reflexivity|]. split; [congruence|].
    intros t ->. exists t. split; [reflexivity | apply no_worse_refl].
  - destruct (accept_splice (slice_trees slice)) as [[child trees]|]; [|discriminate].
    set (root := ts_tree_make_node (symbol child) trees (alias_sequence_id child)).
    set (f1 := match f with
               | Some finished =>
                   if parser__select_tree ts_tree_compare (Some finished) (Some root)
                   then Some root else Some finished
               | None => Some root
               end).
    intros Hr. apply IH in Hr as (Hc & _ & Hbest).
    assert (Hf1 : exists x, f1 = Some x /\ forall t, f = Some t -> no_worse x t).
    { unfold f1. destruct f as [finished|].
      - pose proof (select_tree_no_worse ts_tree_compare finished root) as Hsel.
        destruct (parser__select_tree ts_tree_compare (Some finished) (Some root));
          eexists; (split; [reflexivity|]); intros t [= <-];
          [exact Hsel | apply no_worse_refl].
      - eexists. split; [reflexivity|]. discriminate. }
    destruct Hf1 as (x & Hx & Hxw).
    destruct (Hbest x Hx) as (t' & Ht' & Hw).
    split; [|split].
    + rewrite Hc. destruct pop as [|slice' pop]; cbn [length].
      * f_equal; lia.
      * rewrite u32_add_l. f_equal; lia.
    + intros _. congruence.
    + intros t Ht. exists t'. split; [exact Ht'|].
      eapply no_worse_trans; [exact Hw | apply Hxw, Ht].
Qed.

(** X12.  [parser__accept] on an existing version returns only for the
    token [END] (the assertion of line 691).  It then has counted one
    acceptance for each slice of its pop of the whole stack, of which
    there is at least one: [accept_count] has grown by the number of
    these slices (modulo [2^32]).  It leaves a finished tree, which is
    no worse than the finished tree there was, that is, not costlier
    and at equal cost of no lower dynamic precedence; it halts the
    version; and it does not touch the lexer. *)
Theorem accept_effects (p p' : Parser) (version : StackVersion) (lookahead_ : Tree) :
  let pop :=
    fst (ts_stack_pop_all
           (ts_stack_push (parser_stack p) version
              (Some (set_extra true lookahead_)) false 1) version) in
  0 <= version < ts_stack_version_count (parser_stack p) ->
  parser__accept p version lookahead_ = Some p' ->
  symbol lookahead_ = ts_builtin_sym_end /\
  pop <> [] /\
  parser_accept_count p' = u32 (parser_accept_count p + Z.of_nat (length pop)) /\
  (exists t', parser_finished_tree p' = Some t' /\
     forall t, parser_finished_tree p = Some t -> no_worse t' t) /\
  ts_stack_is_halted (parser_stack p') version = true /\
  parser_lexer p' = parser_lexer p.
Proof.
  intros pop Hv. subst pop. unfold parser__accept.
  destruct (set_extra_fields true lookahead_) as (_ & Hsym & _). rewrite Hsym.
  destruct (Z.eqb_spec (symbol lookahead_) ts_builtin_sym_end) as [Hend | Hne];
    cbn [negb]; [|discriminate].
  unfold ts_stack_pop_all, pop_with. cbn [fst].
  set (s1 := ts_stack_push (parser_stack p) version _ false 1).
  set (groups := node_pop_all _).
  assert (Hc1 : ts_stack_version_count s1 = ts_stack_version_count (parser_stack p))
    by apply ts_stack_push_count.
  destruct (accept_slices (slices_of groups (ts_stack_version_count s1))
              (parser_finished_tree p) (parser_accept_count p))
    as [[f' c']|] eqn:Hacc; [|discriminate].
  apply accept_slices_best in Hacc as (Hc & Hsome & Hbest).
  destruct (slices_of_versions groups (ts_stack_version_count s1)) as [_ Hfirst].
  destruct (slices_of groups (ts_stack_version_count s1)) as [|first rest] eqn:Hpop;
    [discriminate|].
  intros [= <-].
  cbn [parser_accept_count parser_finished_tree parser_stack parser_lexer].
  split; [exact Hend|]. split; [discriminate|].
  split; [exact Hc|]. split; [|split; [|reflexivity]].
  - destruct f' as [t'|]; [|exfalso; apply Hsome; congruence].
    exists t'. split; [reflexivity|].
    intros t Ht. destruct (Hbest t Ht) as (t'' & [= <-] & Hw). exact Hw.
  - assert (Hgroups : (1 <= length groups)%nat).
    { destruct groups; [cbn in Hpop; discriminate | cbn; lia]. }
    unfold ts_stack_is_halted, ts_stack_halt.
    rewrite (ts_stack_head_lookup _ version
               (set_head_status StackStatusHalted
                  (ts_stack_head
                     (ts_stack_remove_version
                        (s1 ++ map (fun g => set_head_node (fst (fst g))
                                               (ts_stack_head s1 version)) groups)
                        (slice_version first)) version))).
    + reflexivity.
    + lia.
    + apply list_lookup_insert_eq.
      unfold ts_stack_remove_version. rewrite Hfirst.
      rewrite length_delete.
      * rewrite length_app, length_map.
        unfold ts_stack_version_count in Hc1, Hv. lia.
      * apply lookup_lt_is_Some_2. rewrite length_app, length_map.
        unfold ts_stack_version_count. lia.
Qed.

End AcceptFacts.

Lemma accept_effects_witness :
  exists p',
    parser__accept (tenv := Inputs.toy_tree_env) Inputs.toy_parser 0
      (Inputs.toy_leaf ts_builtin_sym_end length_zero length_zero) = Some p' /\
    ts_stack_is_halted (parser_stack p') 0 = true /\
    parser_accept_count p' = 1.
Proof.
  destruct (parser__accept (tenv := Inputs.toy_tree_env) Inputs.toy_parser 0
              (Inputs.toy_leaf ts_builtin_sym_end length_zero length_zero))
    as [p'|] eqn:Hacc; [|discriminate Hacc].
  exists p'. split; [reflexivity|].
  assert (Hv : 0 <= 0 < ts_stack_version_count (parser_stack Inputs.toy_parser))
    by (split; [lia | reflexivity]).
  destruct (accept_effects (tenv := Inputs.toy_tree_env) Inputs.toy_parser p' 0 _
              Hv Hacc) as (_ & _ & _ & _ & Hhalted & _).
  split; [exact Hhalted|].
  injection Hacc as <-. reflexivity.
Defined.

(** ** What a reduction leaves alone *)

Lemma take_delete_ge {A} (l : list A) (n i : nat) :
  (n <= i)%nat -> take n (delete i l) = take n l.
Proof.
  revert n i. induction l as [|x l IH]; intros [|n] [|i] Hle; cbn;
    try reflexivity; try lia.
  f_equal. apply IH. lia.
Qed.

Section ReduceFrame.
Context {senv : StackEnv} {tenv : TreeEnv}.

Lemma ts_stack_push_take (s : Stack) (n : nat) v tree pending state :
  (n <= Z.to_nat v)%nat ->
  take n (ts_stack_push s v tree pending state) = take n s.
Proof. intros Hle. unfold ts_stack_push. apply take_insert_ge, Hle. Qed.

Lemma push_extras_take (extras : TreeArray) :
  forall (s : Stack) (n : nat) v state,
    (n <= Z.to_nat v)%nat ->
    take n (push_extras s v extras state) = take n s.
Proof.
  unfold push_extras. induction extras as [|t extras IH]; intros s n v state Hle;
    cbn [foldl]; [reflexivity|].
  rewrite IH by exact Hle. apply ts_stack_push_take, Hle.
Qed.

Lemma halt_slices_take (rest : StackSliceArray) :
  forall (s : Stack) (n : nat),
    Forall (fun slice => (n <= Z.to_nat (slice_version slice))%nat) rest ->
    take n (halt_slices s rest) = take n s.
Proof.
  unfold halt_slices. induction rest as [|slice rest IH]; intros s n Hall;
    cbn [foldl]; [reflexivity|].
  apply Forall_cons in Hall as [Hslice Hrest].
  rewrite IH by exact Hrest. unfold ts_stack_halt. apply take_insert_ge, Hslice.
Qed.

Lemma reduce_slices_take (fuel : nat) :
  forall in_ambiguity (s s' : Stack) pop pop_size initial_version_count sym dp
    alias fragile (n : nat),
    Forall (fun slice => Z.of_nat n <= slice_version slice < UINT_MAX) pop ->
    reduce_slices fuel in_ambiguity s pop pop_size initial_version_count
      sym dp alias fragile = Some s' ->
    take n s' = take n s.
Proof.
  induction fuel as [|fuel IH];
    intros in_ambiguity s s' pop pop_size initial_version_count sym dp alias
      fragile n Hver; destruct pop as [|slice rest]; cbn [reduce_slices];
    try (intros [= <-]; reflexivity); try discriminate.
  destruct (reduce_alternatives _ slice rest) as [[parent slice'] rest'] eqn:Halt.
  apply reduce_alternatives_version in Halt as (Hv & _ & Hall).
  apply Forall_cons in Hver as [Hslice Hrest].
  set (s1 := push_extras _ _ _ _).
  assert (Hs1 : take n s1 = take n s).
  { unfold s1. rewrite push_extras_take, ts_stack_push_take by (rewrite Hv; lia).
    reflexivity. }
  destruct (ts_stack_version_count s1 >? MAX_VERSION_COUNT).
  - rewrite u32_small by (unfold is_u32; rewrite Hv; lia).
    rewrite remove_versions_from_take by lia.
    intros [= <-]. rewrite take_take, Nat.min_l by (rewrite Hv; lia).
    rewrite halt_slices_take; [exact Hs1|].
    eapply Forall_impl; [apply Hall, Hrest|]. cbn. intros x Hx. lia.
  - intros Hr. rewrite <- Hs1. eapply IH; [|exact Hr]. apply Hall, Hrest.
Qed.

Lemma reduce_merge_inner_take (fuel : nat) :
  forall (s s' : Stack) (i i' j : StackVersion) (n : nat),
    Z.of_nat n <= j -> i <= UINT_MAX ->
    reduce_merge_inner fuel s i j = Some (s', i') ->
    take n s' = take n s.
Proof.
  induction fuel as [|fuel IH]; intros s s' i i' j n Hn Hi;
    cbn [reduce_merge_inner]; destruct (Z.ltb_spec j i) as [Hlt | Hge];
    try (intros [= <- <-]; reflexivity).
  - unfold ts_stack_merge. destruct (ts_stack_can_merge s j i).
    + intros [= <- <-]. unfold ts_stack_remove_version.
      rewrite take_delete_ge, take_insert_ge by lia. reflexivity.
    + discriminate.
  - unfold ts_stack_merge. destruct (ts_stack_can_merge s j i).
    + intros [= <- <-]. unfold ts_stack_remove_version.
      rewrite take_delete_ge, take_insert_ge by lia. reflexivity.
    + intros Hr. eapply IH; [| exact Hi | exact Hr].
      rewrite u32_small by (unfold is_u32; lia). lia.
Qed.

Lemma reduce_merge_take (fuel : nat) :
  forall (s s' : Stack) (initial_version_count : Z) (i : StackVersion) (n : nat),
    Z.of_nat n <= initial_version_count <= i ->
    ts_stack_version_count s <= UINT_MAX ->
    reduce_merge fuel s initial_version_count i = Some s' ->
    take n s' = take n s.
Proof.
  induction fuel as [|fuel IH]; intros s s' init i n Hinit Hmax;
    cbn [reduce_merge];
    destruct (Z.ltb_spec i (ts_stack_version_count s)) as [Hlt | Hge];
    try (intros [= <-]; reflexivity); try discriminate.
  destruct (reduce_merge_inner_total (Z.to_nat i) s i init)
    as (s1 & i1 & Hr & Hcases); try lia.
  rewrite Hr.
  assert (Hs1 : take n s1 = take n s)
    by (eapply reduce_merge_inner_take; [| |exact Hr]; lia).
  intros Hm. rewrite <- Hs1.
  destruct Hcases as [[Hc ->] | (Hc & -> & Hi)].
  - rewrite u32_small in Hm by (unfold is_u32; lia).
    eapply IH; [| |exact Hm]; lia.
  - replace (i - 1 + 1) with i in Hm by lia.
    rewrite u32_small in Hm by (unfold is_u32; lia).
    eapply IH; [| |exact Hm]; lia.
Qed.

(** X13.  A reduction works on new versions only.  The pop leaves the
    versions of the stack in place and appends those it creates; the
    parents are pushed, the leftover slices halted, the excess removed
    and the merges made among the new versions: when [parser__reduce]
    returns, every version that the stack had before, the reduced
    version included, is what it was, and the slices returned are those
    of the pop. *)
Theorem reduce_keeps_versions (in_ambiguity : bool) (s s' : Stack)
  (version : StackVersion) (sym : TSSymbol) (count dp alias : Z) (fragile : bool)
  (pop : StackSliceArray) :
  ts_stack_version_count (snd (ts_stack_pop_count s version count)) < UINT_MAX ->
  parser__reduce in_ambiguity s version sym count dp alias fragile = Some (pop, s') ->
  take (length s) s' = s /\
  pop = fst (ts_stack_pop_count s version count) /\
  Forall (fun slice => ts_stack_version_count s <= slice_version slice) pop.
Proof.
  unfold parser__reduce, ts_stack_pop_count, pop_with. cbn [fst snd].
  set (groups := node_pop_count _ count).
  set (s1 := s ++ map _ groups).
  intros Hmax.
  assert (Hc1 : ts_stack_version_count s1
                = ts_stack_version_count s + Z.of_nat (length groups)).
  { unfold s1. rewrite version_count_app. unfold ts_stack_version_count.
    rewrite length_map. reflexivity. }
  destruct (slices_of_versions groups (ts_stack_version_count s)) as [Hvers _].
  assert (Hvers' : Forall (fun slice =>
                     Z.of_nat (length s) <= slice_version slice < UINT_MAX)
                     (slices_of groups (ts_stack_version_count s))).
  { eapply Forall_impl; [exact Hvers|]. cbn. intros slice Hs.
    unfold ts_stack_version_count in *. lia. }
  destruct (reduce_slices _ in_ambiguity s1 _ _ _ sym dp alias fragile)
    as [s2|] eqn:Hslices; [|discriminate].
  destruct (reduce_slices_count (S (length (slices_of groups (ts_stack_version_count s))))
              in_ambiguity s1 (slices_of groups (ts_stack_version_count s))
              (Z.of_nat (length (slices_of groups (ts_stack_version_count s))))
              (ts_stack_version_count s) sym dp alias fragile ltac:(lia))
    as (s2' & Hr & Hc2).
  { eapply Forall_impl; [exact Hvers'|]. cbn. intros slice Hs. lia. }
  rewrite Hslices in Hr. injection Hr as <-.
  assert (Hle2 : ts_stack_version_count s2 <= UINT_MAX).
  { rewrite Hc2. destruct (slices_of groups (ts_stack_version_count s)); [lia|].
    destruct (ts_stack_version_count s1 >? MAX_VERSION_COUNT); lia. }
  apply (reduce_slices_take _ _ _ _ _ _ _ _ _ _ _ (length s) Hvers') in Hslices.
  destruct (reduce_merge _ s2 _ _) as [s3|] eqn:Hmerge; [|discriminate].
  intros [= <- <-].
  apply (reduce_merge_take _ _ _ _ _ (length s)) in Hmerge;
    [|unfold ts_stack_version_count; lia | exact Hle2].
  split; [|split].
  - rewrite Hmerge, Hslices. unfold s1. apply take_app_length.
  - reflexivity.
  - eapply Forall_impl; [exact Hvers|]. cbn. intros slice Hs. lia.
Qed.

End ReduceFrame.

Lemma reduce_keeps_versions_witness :
  exists pop s',
    parser__reduce (senv := Inputs.toy_stack_env) (tenv := Inputs.toy_tree_env)
      false Inputs.six_versions 0 7 1 0 0 false = Some (pop, s') /\
    take 6 s' = Inputs.six_versions.
Proof.
  destruct (parser__reduce (senv := Inputs.toy_stack_env)
              (tenv := Inputs.toy_tree_env) false Inputs.six_versions 0 7 1 0 0 false)
    as [[pop s']|] eqn:Hred; [|discriminate Hred].
  exists pop, s'. split; [reflexivity|].
  assert (Hmax : ts_stack_version_count
                   (snd (ts_stack_pop_count (senv := Inputs.toy_stack_env)
                           Inputs.six_versions 0 1)) < UINT_MAX)
    by reflexivity.
  exact (proj1 (reduce_keeps_versions (senv := Inputs.toy_stack_env)
                  (tenv := Inputs.toy_tree_env) false Inputs.six_versions s' 0 7 1
                  0 0 false pop Hmax Hred)).
Defined.

(** ** The token cache *)

Section CacheFacts.
Context {lenv : LexEnv} {senv : StackEnv} {tenv : TreeEnv} {renv : ReuseEnv}.

(** X14.  The token cache holds one token.  A token stored for a byte
    index and an external token is found again for that byte index and
    that external token, provided [ts_tree_external_token_state_eq]
    holds of the external token and itself; it is not found for any
    other byte index; and after a null token is stored, as
    [parser_parse] does when it is done, nothing is found at all. *)
Theorem cached_token_round_trip (p : Parser) (byte_index : Z)
  (last_external_token : option Tree) (token : Tree) :
  ts_tree_external_token_state_eq last_external_token last_external_token = true ->
  parser__get_cached_token
    (parser__set_cached_token p byte_index last_external_token (Some token))
    byte_index last_external_token = Some token /\
  (forall other_index other_token,
     other_index <> byte_index ->
     parser__get_cached_token
       (parser__set_cached_token p byte_index last_external_token (Some token))
       other_index other_token = None) /\
  (forall any_index any_token,
     parser__get_cached_token
       (parser__set_cached_token p byte_index last_external_token None)
       any_index any_token = None).
Proof.
  intros Hrefl.
  unfold parser__get_cached_token, parser__set_cached_token, set_parser_token_cache.
  cbn [parser_token_cache cache_token cache_byte_index cache_last_external_token].
  split; [|split].
  - rewrite Z.eqb_refl, Hrefl. reflexivity.
  - intros other_index other_token Hne.
    destruct (Z.eqb_spec byte_index other_index); [congruence | reflexivity].
  - reflexivity.
Qed.

(** The token of [parser__lex] records the state it was given. *)
Lemma lex_parse_state fuel lexer payload start_position external_token state
  result lexer' payload' :
  parser__lex fuel lexer payload start_position external_token state
    = Some (result, lexer', payload') ->
  parse_state result = state.
Proof.
  unfold parser__lex, parser__lex_run.
  destruct (lex_loop fuel start_position external_token _) as [st|]; [|discriminate].
  destruct (lex_result start_position state st) as [[r l] pl].
  intros [= <- _ _]. cbn [lo_result].
  destruct (set_bytes_scanned _ r). reflexivity.
Qed.

(** X15.  A token that the lexer produced is served from the cache the
    next time.  When the cursor is at its end and the cache is empty,
    [parser__get_lookahead] returns the token of [parser__lex]; if that
    token was lexed in the lexical mode of the state (the lexer did not
    fall back to the mode of the error state), a second call on the
    parser that the first one left returns the same token and leaves
    that parser as it is: the lexer is not run again. *)
Theorem get_lookahead_twice (fuel fuel' : nat) (p : Parser) (version : StackVersion)
  (state : TSStateId) (reusable_node : ReusableNode) (result : Tree)
  (lexer : Lexer Input) (payload : Payload) :
  reusable_tree reusable_node = None ->
  cache_token (parser_token_cache p) = None ->
  ts_tree_external_token_state_eq
    (ts_stack_last_external_token (parser_stack p) version)
    (ts_stack_last_external_token (parser_stack p) version) = true ->
  parser__lex (S fuel) (parser_lexer p) (parser_external_scanner_payload p)
    (ts_stack_position (parser_stack p) version)
    (ts_stack_last_external_token (parser_stack p) version) state
  = Some (result, lexer, payload) ->
  first_leaf_lex_mode result = lex_modes state ->
  exists out out',
    parser__get_lookahead (S fuel) p version state reusable_node = Some out /\
    la_result out = result /\
    parser_lexer (la_parser out) = lexer /\
    parser__get_lookahead (S fuel') (la_parser out) version (la_state out)
      (la_reusable_node out) = Some out' /\
    la_result out' = result /\
    la_parser out' = la_parser out.
Proof.
  intros Htree Hcache Hrefl Hlex Hmode.
  pose proof (lex_parse_state _ _ _ _ _ _ _ _ _ Hlex) as Hstate.
  unfold parser__get_lookahead at 1.
  cbn [get_lookahead_cursor]. unfold get_lookahead_step. rewrite Htree.
  unfold get_lookahead_cached, parser__get_cached_token.
  cbn [set_parser_stack parser_token_cache parser_lexer parser_stack
       parser_external_scanner_payload].
  rewrite Hcache, Hlex.
  eexists. eexists. split; [reflexivity|].
  cbn [la_result la_parser la_state la_reusable_node].
  split; [reflexivity|]. split; [reflexivity|].
  unfold parser__get_lookahead.
  cbn [get_lookahead_cursor]. unfold get_lookahead_step. rewrite Htree.
  unfold get_lookahead_cached, parser__get_cached_token, parser__set_cached_token,
    set_parser_token_cache, set_parser_external_scanner_payload, set_parser_lexer,
    set_parser_stack.
  cbn [parser_token_cache parser_lexer parser_stack parser_external_scanner_payload
       parser_finished_tree parser_accept_count parser_in_ambiguity
       cache_token cache_byte_index cache_last_external_token].
  rewrite Z.eqb_refl, Hrefl. cbn [andb].
  assert (Hcan : forall e, parser__can_reuse_first_leaf state result e = true).
  { intros e. unfold parser__can_reuse_first_leaf.
    rewrite Hmode, Hstate, !Z.eqb_refl, orb_true_r. reflexivity. }
  rewrite Hcan. split; [reflexivity|]. split; reflexivity.
Qed.

End CacheFacts.

Lemma cached_token_round_trip_witness :
  parser__get_cached_token
    (parser__set_cached_token Inputs.toy_parser 3 None
       (Some (Inputs.toy_leaf_tree 1 7))) 3 None
  = Some (Inputs.toy_leaf_tree 1 7).
Proof.
  apply (cached_token_round_trip Inputs.toy_parser 3 None
           (Inputs.toy_leaf_tree 1 7)).
  reflexivity.
Defined.

Lemma get_lookahead_twice_witness :
  exists out out',
    parser__get_lookahead (tenv := Inputs.toy_tree_env)
      (renv := Inputs.toy_reuse_env) 2 Inputs.toy_parser 0 2 ([], 3) = Some out /\
    parser__get_lookahead (tenv := Inputs.toy_tree_env)
      (renv := Inputs.toy_reuse_env) 1 (la_parser out) 0 (la_state out)
      (la_reusable_node out) = Some out' /\
    la_result out' = la_result out /\
    la_parser out' = la_parser out.
Proof.
  destruct (parser__lex (env := Inputs.toy_env 10) 2 (parser_lexer Inputs.toy_parser)
              (parser_external_scanner_payload Inputs.toy_parser)
              (ts_stack_position (parser_stack Inputs.toy_parser) 0)
              (ts_stack_last_external_token (parser_stack Inputs.toy_parser) 0) 2)
    as [[[result lexer] payload]|] eqn:Hlex; [|discriminate Hlex].
  assert (Hmode : first_leaf_lex_mode result
                  = lex_modes (LexEnv := Inputs.toy_env 10) 2).
  { injection Hlex as <- _ _. reflexivity. }
  destruct (get_lookahead_twice (tenv := Inputs.toy_tree_env)
              (renv := Inputs.toy_reuse_env) 1 0 Inputs.toy_parser 0 2 ([], 3)
              result lexer payload eq_refl eq_refl eq_refl Hlex Hmode)
    as (out & out' & H1 & Hr1 & _ & H2 & Hr2 & Hp2).
  exists out, out'. split; [exact H1|]. split; [exact H2|].
  split; [congruence | exact Hp2].
Defined.

(** ** Breaking down the lookahead *)

Section BreakdownLookaheadFacts.
Context {renv : ReuseEnv}.

Lemma breakdown_lookahead_loop_exit (fuel : nat) (state : TSStateId) :
  forall reusable_node did_break_down did_break_down' reusable_node',
    breakdown_lookahead_loop fuel state reusable_node did_break_down
      = Some (did_break_down', reusable_node') ->
    exists (n : nat) (tree : Tree),
      reusable_node'
        = Nat.iter n (fun r => snd (reusable_node_breakdown r)) reusable_node /\
      (forall k, (k < n)%nat ->
         exists t,
           reusable_tree
             (Nat.iter k (fun r => snd (reusable_node_breakdown r)) reusable_node)
           = Some t /\
           has_children t = true /\ parse_state t <> state) /\
      reusable_tree reusable_node' = Some tree /\
      (has_children tree = false \/ parse_state tree = state) /\
      did_break_down' = match n with O => did_break_down | S _ => true end.
Proof.
  induction fuel as [|fuel IH]; intros r did did' r';
    cbn [breakdown_lookahead_loop]; [discriminate|].
  destruct (reusable_tree r) as [tree|] eqn:Htree; [|discriminate].
  destruct (has_children tree) eqn:Hch; cbn [andb].
  - destruct (Z.eqb_spec (parse_state tree) state) as [Heq | Hne]; cbn [negb].
    + intros [= <- <-]. exists O, tree. cbn [Nat.iter].
      split; [reflexivity|]. split; [intros k Hk; lia|].
      split; [exact Htree|]. split; [right; exact Heq | reflexivity].
    + intros Hr. apply IH in Hr as (n & tree' & Hiter & Hneed & Htree' & Hset & Hdid).
      exists (S n), tree'. rewrite Nat.iter_succ_r.
      split; [exact Hiter|]. split.
      * intros [|k] Hk.
        -- exists tree. cbn [Nat.iter]. auto.
        -- rewrite Nat.iter_succ_r. apply Hneed. lia.
      * split; [exact Htree'|]. split; [exact Hset|].
        rewrite Hdid. destruct n; reflexivity.
  - intros [= <- <-]. exists O, tree. cbn [Nat.iter].
    split; [reflexivity|]. split; [intros k Hk; lia|].
    split; [exact Htree|]. split; [left; exact Hch | reflexivity].
Qed.

(** X16.  [parser__breakdown_lookahead] steps the cursor down as long
    as its tree has children and was parsed in another state than the
    given one, and no further: when it returns after [n] steps, each of
    the trees it left needed the step, and the cursor is on a tree that
    has no children or was parsed in the given state.  If the tree of
    the cursor needed no step at entry, lookahead and cursor are what
    they were; if it needed one, the lookahead is the tree the cursor
    ends on. *)
Theorem breakdown_lookahead_settles (fuel : nat) (lookahead_ lookahead' : Tree)
  (state : TSStateId) (reusable_node reusable_node' : ReusableNode) :
  parser__breakdown_lookahead fuel lookahead_ state reusable_node
    = Some (lookahead', reusable_node') ->
  exists (n : nat) (tree : Tree),
    reusable_node'
      = Nat.iter n (fun r => snd (reusable_node_breakdown r)) reusable_node /\
    (forall k, (k < n)%nat ->
       exists t,
         reusable_tree
           (Nat.iter k (fun r => snd (reusable_node_breakdown r)) reusable_node)
         = Some t /\
         has_children t = true /\ parse_state t <> state) /\
    reusable_tree reusable_node' = Some tree /\
    (has_children tree = false \/ parse_state tree = state) /\
    lookahead' = match n with O => lookahead_ | S _ => tree end /\
    (forall t0, reusable_tree reusable_node = Some t0 ->
       (has_children t0 = false \/ parse_state t0 = state) ->
       lookahead' = lookahead_ /\ reusable_node' = reusable_node) /\
    (forall t0, reusable_tree reusable_node = Some t0 ->
       has_children t0 = true -> parse_state t0 <> state ->
       lookahead' = tree).
Proof.
  unfold parser__breakdown_lookahead.
  destruct (breakdown_lookahead_loop fuel state reusable_node false)
    as [[did r']|] eqn:Hloop; [|discriminate].
  apply breakdown_lookahead_loop_exit in Hloop
    as (n & tree & Hiter & Hneed & Htree & Hsettled & Hdid).
  assert (Hla : forall la',
            (if did then
               match reusable_tree r' with
               | Some tree => Some (tree, r')
               | None => None
               end
             else Some (lookahead_, r')) = Some (la', reusable_node') ->
            reusable_node' = r' /\
            la' = match n with O => lookahead_ | S _ => tree end).
  { intros la'. rewrite Hdid, Htree. destruct n; intros [= <- <-]; auto. }
  intros Hr. apply Hla in Hr as [-> ->].
  exists n, tree.
  split; [exact Hiter|]. split; [exact Hneed|]. split; [exact Htree|].
  split; [exact Hsettled|]. split; [reflexivity|]. split.
  - intros t0 Ht0 Hset0. destruct n as [|n]; [cbn [Nat.iter] in Hiter; auto|].
    destruct (Hneed O ltac:(lia)) as (t & Ht & Hch & Hst).
    change (reusable_tree reusable_node = Some t) in Ht.
    rewrite Ht0 in Ht. injection Ht as ->.
    destruct Hset0 as [Hno | Heq]; [congruence | contradiction].
  - intros t0 Ht0 Hch0 Hst0. destruct n as [|n]; [|reflexivity].
    change (r' = reusable_node) in Hiter.
    rewrite Hiter, Ht0 in Htree. injection Htree as <-.
    destruct Hsettled as [Hno | Heq]; [congruence | contradiction].
Qed.

End BreakdownLookaheadFacts.

Lemma breakdown_lookahead_settles_witness :
  exists lookahead' reusable_node',
    parser__breakdown_lookahead (renv := Inputs.toy_reuse_env) 2
      Inputs.toy_node_tree 2 Inputs.toy_node_cursor
    = Some (lookahead', reusable_node') /\
    lookahead' = Inputs.toy_leaf_tree 1 3 /\
    exists tree,
      reusable_tree reusable_node' = Some tree /\
      (has_children tree = false \/ parse_state tree = 2).
Proof.
  destruct (parser__breakdown_lookahead (renv := Inputs.toy_reuse_env) 2
              Inputs.toy_node_tree 2 Inputs.toy_node_cursor)
    as [[lookahead' reusable_node']|] eqn:Hb; [|discriminate Hb].
  exists lookahead', reusable_node'. split; [reflexivity|].
  split; [injection Hb as <- _; reflexivity|].
  destruct (breakdown_lookahead_settles (renv := Inputs.toy_reuse_env) _ _ _ _ _ _ Hb)
    as (n & tree & _ & _ & Htree & Hsettled & _).
  exists tree. split; assumption.
Defined.

(** ** A condense pass that reports no change *)

Section CondenseQuiet.
Context {senv : StackEnv}.
Variable E : Z.

Lemma condense_pair_quiet (s s' : Stack) (i j i' j' : StackVersion) status_i
  (made : bool) :
  condense_pair E s i j status_i made = (s', i', j', false) ->
  s' = s /\ i' = i /\ j' = j /\ made = false.
Proof.
  unfold condense_pair.
  destruct (ErrorCosts.parser__compare_versions E _ status_i); try discriminate.
  - unfold ts_stack_merge. destruct (ts_stack_can_merge s j i); [discriminate|].
    intros [= <- <- <- ->]. auto.
  - unfold ts_stack_merge. destruct (ts_stack_can_merge s j i); [discriminate|].
    intros [= <- <- <- ->]. auto.
  - destruct (ts_stack_merge s j i) as [[|] ?]; discriminate.
Qed.

Lemma condense_inner_quiet (fuel : nat) :
  forall (s s' : Stack) (i i' j : StackVersion) status_i (made : bool),
    condense_inner E fuel s i j status_i made = Some (s', i', false) ->
    s' = s /\ i' = i /\ made = false.
Proof.
  induction fuel as [|fuel IH]; intros s s' i i' j status_i made;
    cbn [condense_inner]; destruct (j <? i);
    try (intros [= <- <- ->]; auto); try discriminate.
  destruct (condense_pair E s i j status_i made) as [[[s1 i1] j1] made1] eqn:Hp.
  intros Hr. apply IH in Hr as (-> & -> & ->).
  apply condense_pair_quiet in Hp as (-> & -> & _ & ->). auto.
Qed.

Lemma condense_outer_quiet_made (fuel : nat) :
  forall (s s' : Stack) (i : StackVersion) (made : bool) (m m' : Z),
    condense_outer E fuel s i made m = Some (s', false, m') -> made = false.
Proof.
  induction fuel as [|fuel IH]; intros s s' i made m m';
    cbn [condense_outer]; destruct (i <? ts_stack_version_count s);
    try (intros [= _ -> _]; reflexivity); try discriminate.
  destruct (ts_stack_is_halted s i); [apply IH|].
  destruct (condense_inner E _ s i 0 _ made) as [[[s1 i1] made1]|] eqn:Hin;
    [|discriminate].
  intros Hr. apply IH in Hr as ->.
  apply condense_inner_quiet in Hin as (_ & _ & ->). reflexivity.
Qed.

Lemma condense_outer_quiet (fuel : nat) :
  forall (s s' : Stack) (i : StackVersion) (made : bool) (m m' : Z),
    0 <= i -> ts_stack_version_count s <= UINT_MAX ->
    condense_outer E fuel s i made m = Some (s', false, m') ->
    s' = take (Z.to_nat i) s ++ remove_halted (drop (Z.to_nat i) s).
Proof.
  induction fuel as [|fuel IH]; intros s s' i made m m' Hi Hmax;
    cbn [condense_outer];
    destruct (Z.ltb_spec i (ts_stack_version_count s)) as [Hlt | Hge];
    try discriminate;
    try (intros [= <- _ _]; unfold ts_stack_version_count in Hge;
         rewrite take_ge, drop_ge by lia; cbn; rewrite app_nil_r; reflexivity).
  unfold ts_stack_version_count in Hlt, Hmax.
  destruct (lookup_lt_is_Some_2 s (Z.to_nat i) ltac:(lia)) as [h Hh].
  assert (Hhead : ts_stack_head s i = h) by (apply ts_stack_head_lookup; assumption).
  assert (Hdrop : drop (Z.to_nat i) s = h :: drop (S (Z.to_nat i)) s)
    by (apply drop_S, Hh).
  unfold ts_stack_is_halted. rewrite Hhead. fold (head_is_halted h).
  rewrite Hdrop, remove_halted_cons.
  destruct (head_is_halted h) eqn:Hhalted.
  - rewrite u32_pred_succ by (unfold is_u32; lia).
    intros Hr. apply IH in Hr; [|lia|].
    + rewrite Hr. unfold ts_stack_remove_version.
      rewrite take_delete_same. f_equal. f_equal.
      rewrite delete_take_drop, drop_app_length'; [reflexivity|].
      rewrite length_take. lia.
    + unfold ts_stack_version_count, ts_stack_remove_version.
      rewrite length_delete by eauto. lia.
  - destruct (condense_inner E _ s i 0 _ made) as [[[s1 i1] made1]|] eqn:Hin;
      [|discriminate].
    intros Hr. pose proof (condense_outer_quiet_made _ _ _ _ _ _ _ Hr) as ->.
    apply condense_inner_quiet in Hin as (-> & -> & _).
    rewrite u32_small in Hr by (unfold is_u32; lia).
    apply IH in Hr; [|lia | unfold ts_stack_version_count; lia].
    rewrite Hr. replace (Z.to_nat (i + 1)) with (S (Z.to_nat i)) by lia.
    rewrite (take_S_r _ _ _ Hh), <- app_assoc. reflexivity.
Qed.

(** X17.  The scan of [parser__condense_stack] does not count the
    removal of a halted version as a change.  If it reports no change,
    then no version was dropped for a better one, none merged and none
    swapped: the stack it leaves is the stack it was given without its
    halted versions, in their order. *)
Theorem condense_scan_quiet (s s' : Stack) (min_error_cost : Z) :
  ts_stack_version_count s <= UINT_MAX ->
  condense_stack_scan E s = Some (s', false, min_error_cost) ->
  s' = remove_halted s.
Proof.
  intros Hmax Hscan. unfold condense_stack_scan in Hscan.
  apply condense_outer_quiet in Hscan; [|lia | exact Hmax].
  exact Hscan.
Qed.

(** X18.  On a stack all of whose versions are halted, and so on the
    empty stack, the scan leaves no version, reports no change and
    returns [UINT_MAX] as the minimum error cost. *)
Theorem condense_scan_all_halted (s : Stack) :
  ts_stack_version_count s <= UINT_MAX ->
  Forall (fun h => head_is_halted h = true) s ->
  condense_stack_scan E s = Some ([], false, UINT_MAX).
Proof.
  intros Hmax Hall.
  assert (Hnone : remove_halted s = []).
  { induction s as [|h s IH]; [reflexivity|].
    apply Forall_cons in Hall as [Hh Hs].
    rewrite remove_halted_cons, Hh. apply IH; [|exact Hs].
    unfold ts_stack_version_count in *. cbn [length] in Hmax. lia. }
  unfold condense_stack_scan.
  destruct (condense_outer_agree E s [] false UINT_MAX (S (length s)) 1%nat)
    as (r & Hcode & Hspec & _).
  - exact Hmax.
  - lia.
  - rewrite Hnone. cbn. lia.
  - constructor.
  - cbn [app] in Hcode, Hspec. rewrite Hnone in Hspec.
    change (ts_stack_version_count []) with 0 in Hcode, Hspec.
    cbn in Hspec. injection Hspec as <-. exact Hcode.
Qed.

End CondenseQuiet.

Lemma condense_scan_quiet_witness :
  condense_stack_scan (senv := Inputs.toy_stack_env) 100 Inputs.three_versions
    = Some (drop 1 Inputs.three_versions, false, 0) /\
  drop 1 Inputs.three_versions = remove_halted Inputs.three_versions.
Proof.
  assert (Hscan : condense_stack_scan (senv := Inputs.toy_stack_env) 100
                    Inputs.three_versions
                  = Some (drop 1 Inputs.three_versions, false, 0)) by reflexivity.
  split; [exact Hscan|].
  apply (condense_scan_quiet (senv := Inputs.toy_stack_env) 100
           Inputs.three_versions _ 0); [|exact Hscan].
  vm_compute. discriminate.
Defined.

Lemma condense_scan_all_halted_witness :
  condense_stack_scan (senv := Inputs.toy_stack_env) 100
    [Inputs.toy_head [] StackStatusHalted; Inputs.toy_head [] StackStatusHalted]
  = Some ([], false, UINT_MAX).
Proof.
  apply (condense_scan_all_halted (senv := Inputs.toy_stack_env) 100).
  - vm_compute. discriminate.
  - repeat constructor.
Defined.

(** ** The order behind the comparison of versions *)

Section CompareVersionsOrder.
Import ErrorCosts.

Variable E : Z.

Lemma compare_versions_left (a b : ErrorStatus) :
  left_wins (parser__compare_versions E a b) <-> status_before a b.
Proof.
  unfold parser__compare_versions, left_wins, status_before.
  destruct (Z.ltb_spec (cost a) (cost b)), (Z.ltb_spec (cost b) (cost a));
    try lia;
    destruct (Z.gtb_spec (dynamic_precedence a) (dynamic_precedence b)),
      (Z.gtb_spec (dynamic_precedence b) (dynamic_precedence a));
    try lia;
    destruct (is_in_error a), (is_in_error b); cbn [negb andb];
    repeat match goal with
           | |- context [if ?c then _ else _] => destruct c
           end;
    (split;
     [intros [Hc | Hc]; first [discriminate Hc | tauto | right; split; [reflexivity | lia]]
     |intros [[Ha Hb] | [Hab Hord]];
      first [discriminate | lia | tauto | (left; reflexivity) | (right; reflexivity)]]).
Qed.

(** X19.  Which side [parser__compare_versions] decides for does not
    depend on the products that may wrap: the left version wins
    ([TakeLeft] or [PreferLeft]) exactly when it comes before the right
    one in the order "out of error first, then the lower cost, then the
    higher dynamic precedence", and the right one wins exactly in the
    converse case.  So winning is transitive: if [a] wins over [b] and
    [b] over [c], then [a] wins over [c]. *)
Theorem compare_versions_order (a b c : ErrorStatus) :
  (left_wins (parser__compare_versions E a b) <-> status_before a b) /\
  (right_wins (parser__compare_versions E a b) <-> status_before b a) /\
  (left_wins (parser__compare_versions E a b) ->
   left_wins (parser__compare_versions E b c) ->
   left_wins (parser__compare_versions E a c)).
Proof.
  split; [apply compare_versions_left|]. split.
  - rewrite <- compare_versions_left.
    assert (Hm : parser__compare_versions E b a
                 = comparison_mirror (parser__compare_versions E a b)).
    { unfold parser__compare_versions.
      destruct (Z.ltb_spec (cost a) (cost b)), (Z.ltb_spec (cost b) (cost a));
        try lia;
        destruct (Z.gtb_spec (dynamic_precedence a) (dynamic_precedence b)),
          (Z.gtb_spec (dynamic_precedence b) (dynamic_precedence a));
        try lia;
        destruct (is_in_error a), (is_in_error b); cbn [negb andb];
        repeat match goal with
               | |- context [if ?c then _ else _] => destruct c
               end; reflexivity. }
    rewrite Hm. unfold right_wins, left_wins.
    destruct (parser__compare_versions E a b); cbn [comparison_mirror];
      split; intros [Hc | Hc]; first [discriminate Hc | tauto].
  - rewrite !compare_versions_left. unfold status_before.
    destruct (is_in_error a), (is_in_error b), (is_in_error c);
      intros [[? ?] | [? ?]] [[? ?] | [? ?]]; try discriminate;
      first [left; split; reflexivity | right; split; [reflexivity | lia]].
Qed.

End CompareVersionsOrder.

(** ** Breaking down the top of the stack *)

Section BreakdownTopFacts.
Context {senv : StackEnv} {tenv : TreeEnv}.

(** X20.  [parser__breakdown_top_of_stack] returns [false] only when
    the first pop of pending nodes gives no slice, and then it leaves
    the stack as it found it; whenever it changes the stack it returns
    [true]. *)
Theorem breakdown_top_of_stack_quiet (fuel : nat) (s s' : Stack)
  (version : StackVersion) :
  parser__breakdown_top_of_stack fuel s version = Some (false, s') ->
  s' = s /\ fst (ts_stack_pop_pending s version) = [].
Proof.
  unfold parser__breakdown_top_of_stack.
  destruct fuel as [|fuel]; cbn [breakdown_loop]; [discriminate|].
  destruct (ts_stack_pop_pending s version) as [pop s1] eqn:Hpop.
  destruct pop as [|slice pop].
  - intros [= <-]. split; [|reflexivity].
    revert Hpop. unfold ts_stack_pop_pending, pop_with.
    destruct (slices_of (node_pop_pending _) _) as [|first rest] eqn:Hs;
      [|discriminate].
    intros [= <-].
    destruct (node_pop_pending (head_node (ts_stack_head s version)))
      as [|[[n f] o] groups]; [apply app_nil_r | discriminate Hs].
  - destruct (breakdown_slices _ s1 false) as [[s2 pending]|]; [|discriminate].
    destruct pending; [|discriminate].
    assert (Hloop : forall fuel s0 s0',
              breakdown_loop fuel s0 version true <> Some (false, s0')).
    { clear. intros fuel. induction fuel as [|fuel IH]; intros s0 s0';
        cbn [breakdown_loop]; [discriminate|].
      destruct (ts_stack_pop_pending s0 version) as [[|slice pop] s1];
        [discriminate|].
      destruct (breakdown_slices _ s1 false) as [[s2 [|]]|];
        [apply IH | discriminate | discriminate]. }
    intros Habs. exfalso. exact (Hloop _ _ _ Habs).
Qed.

End BreakdownTopFacts.

Lemma breakdown_top_of_stack_quiet_witness :
  parser__breakdown_top_of_stack (tenv := Inputs.toy_tree_env) 1
    (parser_stack Inputs.toy_parser) 0
  = Some (false, parser_stack Inputs.toy_parser) /\
  fst (ts_stack_pop_pending (parser_stack Inputs.toy_parser) 0) = [].
Proof.
  assert (Hb : parser__breakdown_top_of_stack (tenv := Inputs.toy_tree_env) 1
                 (parser_stack Inputs.toy_parser) 0
               = Some (false, parser_stack Inputs.toy_parser)) by reflexivity.
  split; [exact Hb|].
  exact (proj2 (breakdown_top_of_stack_quiet (tenv := Inputs.toy_tree_env) _ _ _ _ Hb)).
Defined.

(** ** The parse table: equal actions, equal entries *)

Section ParseTableEq.
Import ParseTable.

Context {Symbol : Type} `{Countable Symbol}.
Context {PrecedenceRange Associativity : Type}.

Local Abbreviation Action := (ParseAction (Symbol := Symbol) PrecedenceRange Associativity).
Local Abbreviation Table := (ParseTable.ParseTable (Symbol := Symbol) PrecedenceRange Associativity).

Lemma actions_eqb_refl (l : list Action) : actions_eqb l l = true.
Proof.
  induction l as [|a l IH]; cbn [actions_eqb]; [reflexivity|].
  rewrite ParseAction_eqb_refl, IH. reflexivity.
Qed.

Lemma actions_eqb_snoc (l : list Action) (a b : Action) :
  actions_eqb (l ++ [a]) (l ++ [b]) = ParseAction_eqb a b.
Proof.
  induction l as [|x l IH]; cbn [app actions_eqb].
  - apply andb_true_r.
  - rewrite ParseAction_eqb_refl, IH. reflexivity.
Qed.

(** X21.  [add_action] respects [operator==]: on the same table, adding
    either of two equal actions returns a reference to the same index,
    marks the symbol in the same way, and leaves entries that are equal
    for [ParseTableEntry::operator==], though the two tables may differ
    in the precedence range and the associativity of the action
    added. *)
Theorem add_action_respects_eq (t ta tb : Table) (id : nat) (s : Symbol)
  (a b : Action) (ka kb : nat) :
  ParseAction_eqb a b = true ->
  add_action t id s a = Some (ta, ka) ->
  add_action t id s b = Some (tb, kb) ->
  ka = kb /\ symbols ta = symbols tb /\
  exists sta stb,
    states ta !! id = Some sta /\ states tb !! id = Some stb /\
    ParseTableEntry_eqb (entry_at sta s) (entry_at stb s) = true.
Proof.
  intros Hab.
  assert (Hextra : extra b = extra a).
  { apply ParseAction_eqb_key in Hab. injection Hab as _ Hx _ _ _ _ _.
    symmetry. apply bool_rank_inj. exact Hx. }
  unfold add_action, mark_symbol. rewrite Hextra.
  destruct (states t !! id) as [st|] eqn:Hst; [|discriminate].
  assert (Hlt : (id < length (states t))%nat) by (eapply lookup_lt_Some; eauto).
  rewrite <- (find_existing_eq a b _ Hab).
  destruct (find_existing a (actions (entry_at st s))) as [k|];
    intros [= <- <-] [= <- <-]; (split; [reflexivity|]); (split; [reflexivity|]);
    eexists _, _; unfold set_entry; cbn [states];
    (split; [apply list_lookup_insert_eq; exact Hlt|]);
    (split; [apply list_lookup_insert_eq; exact Hlt|]);
    rewrite !entry_at_insert; unfold ParseTableEntry_eqb;
    cbn [actions reusable depends_on_lookahead];
    rewrite ?actions_eqb_refl, ?actions_eqb_snoc, ?Hab, !Bool.eqb_reflx; reflexivity.
Qed.

End ParseTableEq.

Lemma add_action_respects_eq_witness :
  exists ta tb k,
    ParseTable.add_action Inputs.shift_table 0%nat 5 Inputs.shift_low = Some (ta, k) /\
    ParseTable.add_action Inputs.shift_table 0%nat 5 Inputs.shift_high = Some (tb, k) /\
    ta <> tb /\
    ParseTable.symbols ta = ParseTable.symbols tb.
Proof.
  destruct (ParseTable.add_action Inputs.shift_table 0%nat 5 Inputs.shift_low)
    as [[ta ka]|] eqn:Ha; [|discriminate Ha].
  destruct (ParseTable.add_action Inputs.shift_table 0%nat 5 Inputs.shift_high)
    as [[tb kb]|] eqn:Hb; [|discriminate Hb].
  assert (Heq : ParseTable.ParseAction_eqb Inputs.shift_low Inputs.shift_high = true)
    by (vm_compute; reflexivity).
  destruct (add_action_respects_eq _ _ _ _ _ _ _ _ _ Heq Ha Hb) as (Hk & Hsyms & _).
  exists ta, tb, ka. split; [reflexivity|]. split; [rewrite Hk; reflexivity|].
  split; [|exact Hsyms].
  injection Ha as <- _. injection Hb as <- _.
  intros Habs. apply (f_equal (fun t => ParseTable.actions_at t 0%nat 5)) in Habs.
  vm_compute in Habs. discriminate Habs.
Defined.

Lemma reduce_alternatives_choice_witness :
  exists parent' slice' rest',
    reduce_alternatives (tenv := Inputs.toy_tree_env)
      (Inputs.toy_make_node 7 [Inputs.toy_leaf_tree 1 3] 0)
      (mkStackSlice [Inputs.toy_leaf_tree 1 3] 6)
      [mkStackSlice [set_error_cost 5 (Inputs.toy_leaf_tree 2 3)] 6;
       mkStackSlice [Inputs.toy_leaf_tree 1 3] 7]
    = (parent', slice', rest') /\
    no_worse parent' (Inputs.toy_make_node 7 [Inputs.toy_leaf_tree 1 3] 0) /\
    slice_version slice' = 6 /\
    rest' = [mkStackSlice [Inputs.toy_leaf_tree 1 3] 7].
Proof.
  destruct (reduce_alternatives (tenv := Inputs.toy_tree_env)
              (Inputs.toy_make_node 7 [Inputs.toy_leaf_tree 1 3] 0)
              (mkStackSlice [Inputs.toy_leaf_tree 1 3] 6)
              [mkStackSlice [set_error_cost 5 (Inputs.toy_leaf_tree 2 3)] 6;
               mkStackSlice [Inputs.toy_leaf_tree 1 3] 7])
    as [[parent' slice'] rest'] eqn:Halt.
  exists parent', slice', rest'. split; [reflexivity|].
  destruct (reduce_alternatives_choice (tenv := Inputs.toy_tree_env) _ _ _ _ _ _ Halt)
    as (Hw & Hv & _).
  split; [exact Hw|]. split; [exact Hv|].
  injection Halt as _ _ <-. reflexivity.
Defined.
